(** * MathLogic: the expression engine and the truth-table engine

    A shallow embedding of [public/js/logic-core.js] (classes [LogicCore]
    and [LogicEvaluator]) and of the truth-table generator
    ([TruthTableGenerator]), with the properties of the engine proved
    against it.

    Conventions of the embedding.
    - A JavaScript string is the list of its UTF-16 code units ([N]).
      [expression[i]] is a one-unit string and is represented by its unit.
    - The values that flow through the evaluator are the booleans of an
      assignment and [undefined] (a missing key, or [pop] on an empty
      array): type [jsval].
    - A JavaScript array used as a stack ([push]/[pop] at the end) is a
      list whose head is the LAST array element; [stack[0]] is therefore
      the last element of the list.  Arrays that are only appended to and
      read in order ([output], [combinations], [rows]) are lists in array
      order.
    - An array has at most [2^32 - 1] elements.  The bound is modelled
      where the program can reach it, in the loops of
      [generateCombinations] ([push]).  The arrays of the evaluator hold
      at most one element per code unit of the expression, and a string
      is taken to be shorter than that bound, as it is in every engine.
    - A [throw] is the [Throw] constructor of [completion]. *)

From Stdlib Require Import ZArith NArith List Bool Lia String Floats.
From Stdlib Require Import DecimalString.
From stdpp Require Import base option list gmap sorting.

Open Scope N_scope.

(** ** Code units and strings *)

Definition char := N.
Definition jsstring := list char.

Definition SPACE : char := 32.
Definition LPAREN : char := 40.
Definition RPAREN : char := 41.
Definition TILDE : char := 126.      (* ~  U+007E *)
Definition WEDGE : char := 8743.     (* ∧  U+2227 *)
Definition VEE : char := 8744.       (* ∨  U+2228 *)
Definition ARROW : char := 8594.     (* →  U+2192 *)
Definition IFF : char := 8596.       (* ↔  U+2194 *)

(** [/^[a-zA-Z]$/.test(char)] on a one-unit string. *)
Definition isLetter (c : char) : bool :=
  ((65 <=? c) && (c <=? 90)) || ((97 <=? c) && (c <=? 122)).

(** ** JavaScript values on the evaluation stack *)

Inductive jsval : Type :=
  | JUndefined
  | JBool (b : bool).

Global Instance jsval_eq_dec : EqDecision jsval.
Proof. solve_decision. Defined.

(** ToBoolean *)
Definition truthy (v : jsval) : bool :=
  match v with
  | JUndefined => false
  | JBool b => b
  end.

(** [!v] *)
Definition js_not (v : jsval) : jsval := JBool (negb (truthy v)).
(** [a && b] *)
Definition js_and (a b : jsval) : jsval := if truthy a then b else a.
(** [a || b] *)
Definition js_or (a b : jsval) : jsval := if truthy a then a else b.
(** [a === b] *)
Definition js_strict_eq (a b : jsval) : jsval := JBool (bool_decide (a = b)).

(** ** Exceptions *)

(** The errors the program constructs with [new Error(...)], the
    RangeError of an array that would grow beyond the largest array
    length, and an error thrown by an access to the page. *)
Inductive error : Type :=
  | UnknownUnaryOperator (operator : N)   (* `Unknown unary operator: ${operator}` *)
  | UnknownBinaryOperator (operator : N)  (* `Unknown binary operator: ${operator}` *)
  | EmptyExpression                       (* '表达式不能为空' *)
  | NoVariablesFound                      (* '表达式中没有找到有效变元' *)
  | InvalidArrayLength                    (* RangeError: Invalid array length *)
  | PageError (message : string).         (* e.g. the TypeError of a property
                                             access on a missing element *)

Inductive completion (A : Type) : Type :=
  | Ok (a : A)
  | Throw (e : error).
Arguments Ok {A} a.
Arguments Throw {A} e.

Definition bind {A B : Type} (r : completion A) (k : A -> completion B) : completion B :=
  match r with
  | Ok a => k a
  | Throw e => Throw e
  end.

Notation "'perform' x <- r ; k" := (bind r (fun x => k))
  (at level 10, x name, r at level 100, k at level 200).

(** ** Arrays that grow *)

(** The largest length of an array, [2^32 - 1]. *)
Definition MAX_ARRAY_LENGTH : N := 4294967295.

(** [array.push(x)] on an array in array order: the element is appended
    and the length grows by one; on an array that already has the
    largest length, setting the new length throws a RangeError. *)
Definition push {A : Type} (array : list A) (x : A) : completion (list A) :=
  if N.of_nat (length array) <? MAX_ARRAY_LENGTH then Ok (array ++ [x])
  else Throw InvalidArrayLength.

(** ** Strings: iteration, trimming, sets and sorting *)

Definition isHighSurrogate (c : char) : bool := (55296 <=? c) && (c <=? 56319).
Definition isLowSurrogate (c : char) : bool := (56320 <=? c) && (c <=? 57343).

(** [for (let char of s)]: the string iterator yields code points, a
    surrogate pair as one two-unit string, any other unit on its own. *)
Fixpoint stringIterator (s : jsstring) : list jsstring :=
  match s with
  | [] => []
  | c :: tl =>
      match tl with
      | d :: tl' =>
          if isHighSurrogate c && isLowSurrogate d
          then [c; d] :: stringIterator tl'
          else [c] :: stringIterator tl
      | [] => [[c]]
      end
  end.

(** [/^[a-zA-Z]$/.test(item)] on any string. *)
Definition testLetter (item : jsstring) : bool :=
  match item with
  | [c] => isLetter c
  | _ => false
  end.

(** A [Set] of one-unit strings, in insertion order; [set.add(c)]. *)
Definition set_add (c : char) (set : list char) : list char :=
  if bool_decide (c ∈ set) then set else set ++ [c].

(** [Array.prototype.sort()] with the default comparison, on an array of
    one-unit strings: ascending code units.  The algorithm of the engine
    is not specified; an insertion sort stands for it (the sorted
    permutation of a list is unique, see [sort_unique]). *)
Fixpoint sort_insert (c : char) (sorted : list char) : list char :=
  match sorted with
  | [] => [c]
  | d :: rest => if c <=? d then c :: sorted else d :: sort_insert c rest
  end.

Definition sort (l : list char) : list char := foldr sort_insert [] l.

(** WhiteSpace and LineTerminator code units, as [String.prototype.trim]
    strips them. *)
Definition isWhiteSpace (c : char) : bool :=
  ((9 <=? c) && (c <=? 13)) || (c =? 32) || (c =? 160) || (c =? 5760)
  || ((8192 <=? c) && (c <=? 8202)) || (c =? 8232) || (c =? 8233)
  || (c =? 8239) || (c =? 8287) || (c =? 12288) || (c =? 65279).

Fixpoint trimStart (s : jsstring) : jsstring :=
  match s with
  | [] => []
  | c :: rest => if isWhiteSpace c then trimStart rest else s
  end.

Definition trimEnd (s : jsstring) : jsstring := rev (trimStart (rev s)).

Definition trim (s : jsstring) : jsstring := trimEnd (trimStart s).

(** ** LogicEvaluator *)

Module LogicEvaluator.

(** An entry of [this.operators]; a field that the object literal does
    not give ([unary] or [binary]) reads as [undefined], here [false]. *)
Record opinfo : Type := {
  precedence : N;
  unary : bool;
  binary : bool
}.

(** [this.operators[c]] for a one-unit string [c]. *)
Definition operators (c : char) : option opinfo :=
  if c =? TILDE then Some {| precedence := 4; unary := true; binary := false |}
  else if c =? WEDGE then Some {| precedence := 3; unary := false; binary := true |}
  else if c =? VEE then Some {| precedence := 2; unary := false; binary := true |}
  else if c =? ARROW then Some {| precedence := 1; unary := false; binary := true |}
  else if c =? IFF then Some {| precedence := 1; unary := false; binary := true |}
  else None.

Definition isVariable (c : char) : bool := isLetter c.

(** *** infixToPostfix *)

(** The loop of the [')'] branch:
    [while (stack.length > 0 && top !== '(') output.push(stack.pop())].
    Returns the popped tokens in pop order and the remaining stack. *)
Fixpoint pop_to_paren (stack : list char) : list char * list char :=
  match stack with
  | [] => ([], [])
  | top :: below =>
      if top =? LPAREN then ([], stack)
      else let '(popped, rest) := pop_to_paren below in (top :: popped, rest)
  end.

(** The loop condition of the operator branch, for the stack top [top]
    and the incoming operator's precedence [p]. *)
Definition pops_before (p : N) (top : char) : bool :=
  negb (top =? LPAREN) &&
  match operators top with
  | Some info => p <=? precedence info
  | None => false
  end.

(** The loop of the operator branch. *)
Fixpoint pop_higher (p : N) (stack : list char) : list char * list char :=
  match stack with
  | [] => ([], [])
  | top :: below =>
      if pops_before p top
      then let '(popped, rest) := pop_higher p below in (top :: popped, rest)
      else ([], stack)
  end.

(** The loop state: [output] in array order, [operatorStack] top first. *)
Record scanner : Type := {
  output : list char;
  operatorStack : list char
}.

(** One iteration of the [for] loop, on the character [c]. *)
Definition scan (st : scanner) (c : char) : scanner :=
  if c =? SPACE then st
  else if isVariable c then
    {| output := output st ++ [c]; operatorStack := operatorStack st |}
  else if c =? LPAREN then
    {| output := output st; operatorStack := c :: operatorStack st |}
  else if c =? RPAREN then
    let '(popped, rest) := pop_to_paren (operatorStack st) in
    {| output := output st ++ popped;
       operatorStack := match rest with
                        | top :: below => if top =? LPAREN then below else rest
                        | [] => rest
                        end |}
  else
    match operators c with
    | Some info =>
        let '(popped, rest) := pop_higher (precedence info) (operatorStack st) in
        {| output := output st ++ popped; operatorStack := c :: rest |}
    | None => st
    end.

Definition scan_all (expression : jsstring) : scanner :=
  fold_left scan expression {| output := []; operatorStack := [] |}.

(** The final loop, [while (stack.length > 0) output.push(stack.pop())]. *)
Fixpoint flush (output stack : list char) : list char :=
  match stack with
  | [] => output
  | top :: below => flush (output ++ [top]) below
  end.

Definition infixToPostfix (expression : jsstring) : list char :=
  let st := scan_all expression in
  flush (output st) (operatorStack st).

(** *** evaluatePostfix *)

Definition applyUnaryOperator (operator : char) (operand : jsval) : completion jsval :=
  if operator =? TILDE then Ok (js_not operand)
  else Throw (UnknownUnaryOperator operator).

Definition applyBinaryOperator (operator : char) (operand1 operand2 : jsval)
  : completion jsval :=
  if operator =? WEDGE then Ok (js_and operand1 operand2)
  else if operator =? VEE then Ok (js_or operand1 operand2)
  else if operator =? ARROW then Ok (js_or (js_not operand1) operand2)
  else if operator =? IFF then Ok (js_strict_eq operand1 operand2)
  else Throw (UnknownBinaryOperator operator).

(** [stack.pop()]: the popped value ([undefined] on an empty array) and
    the array left. *)
Definition pop (stack : list jsval) : jsval * list jsval :=
  match stack with
  | [] => (JUndefined, [])
  | top :: below => (top, below)
  end.

(** [variableValues[token]]: a missing key reads as [undefined]. *)
Definition read (variableValues : gmap char jsval) (token : char) : jsval :=
  default JUndefined (variableValues !! token).

(** One iteration of the [for ... of] loop of [evaluatePostfix]. *)
Definition step (variableValues : gmap char jsval) (stack : list jsval)
    (token : char) : completion (list jsval) :=
  if isVariable token then Ok (read variableValues token :: stack)
  else
    match operators token with
    | Some info =>
        if unary info then
          let '(operand, stack1) := pop stack in
          perform v <- applyUnaryOperator token operand;
          Ok (v :: stack1)
        else if binary info then
          let '(operand2, stack1) := pop stack in
          let '(operand1, stack2) := pop stack1 in
          perform v <- applyBinaryOperator token operand1 operand2;
          Ok (v :: stack2)
        else Ok stack
    | None => Ok stack
    end.

Fixpoint run (variableValues : gmap char jsval) (stack : list jsval)
    (postfix : list char) : completion (list jsval) :=
  match postfix with
  | [] => Ok stack
  | token :: rest =>
      perform stack' <- step variableValues stack token;
      run variableValues stack' rest
  end.

(** [stack[0]]: the first array element, [undefined] on an empty array. *)
Definition bottom (stack : list jsval) : jsval :=
  List.last stack JUndefined.

Definition evaluatePostfix (postfix : list char)
    (variableValues : gmap char jsval) : completion jsval :=
  perform stack <- run variableValues [] postfix;
  Ok (bottom stack).

(** [evaluate]: the [catch] clause turns a thrown error into [false]
    (the message written to the console is not part of the result). *)
Definition evaluate (expression : jsstring)
    (variableValues : gmap char jsval) : jsval :=
  match evaluatePostfix (infixToPostfix expression) variableValues with
  | Ok v => v
  | Throw _ => JBool false
  end.

End LogicEvaluator.

(** ** LogicCore (the two methods the engine uses) *)

Module LogicCore.

Definition operators : list char := [WEDGE; VEE; TILDE; ARROW; IFF].

(** [/^[a-zA-Z]$/.test(char) && !this.operators.includes(char)] *)
Definition isVariable (item : jsstring) : bool :=
  testLetter item &&
  negb (match item with
        | [c] => bool_decide (c ∈ operators)
        | _ => false
        end).

Definition collect (variables : list char) (item : jsstring) : list char :=
  if isVariable item then
    match item with
    | [c] => set_add c variables
    | _ => variables
    end
  else variables.

Definition getVariablesFromExpression (expression : jsstring) : list char :=
  sort (fold_left collect (stringIterator expression) []).

End LogicCore.

(** ** 32-bit integer operators and number formatting *)

Open Scope Z_scope.

(** ToInt32 of an integral number. *)
Definition ToInt32 (x : Z) : Z := (x + 2 ^ 31) mod 2 ^ 32 - 2 ^ 31.

(** [x >> count]: both operands go through ToInt32/ToUint32 and only the
    low five bits of the count are used. *)
Definition js_sar (x count : Z) : Z := Z.shiftr (ToInt32 x) (count mod 32).

(** [x & y] *)
Definition js_band (x y : Z) : Z := Z.land (ToInt32 x) (ToInt32 y).

(** A count as a Number (binary64). *)
Definition number_of_nat (n : nat) : float :=
  PrimFloat.of_uint63 (Uint63.of_Z (Z.of_nat n)).

(** The decimal digits of a natural number. *)
Definition digits (n : Z) : string :=
  NilZero.string_of_uint (N.to_uint (Z.to_N n)).

(** [x.toFixed(1)] for a finite [x >= 0] below 10^21 (the only numbers
    [checkAnswers] formats): the integer [n] for which [n / 10 - x] is
    closest to zero, the larger one on a tie, printed with one digit
    after the point.  [x] is taken at its exact binary64 value. *)
Definition tenths (x : float) : Z :=
  match Prim2SF x with
  | S754_finite _ m e =>
      if 0 <=? e then 10 * (Z.pos m * 2 ^ e)
      else (20 * Z.pos m + 2 ^ (- e)) / 2 ^ (- e + 1)
  | _ => 0
  end.

Definition toFixed1 (x : float) : string :=
  let n := tenths x in
  (digits (n / 10) ++ "." ++ digits (n mod 10))%string.

(** ** TruthTableGenerator *)

Module TruthTableGenerator.

Record row : Type := {
  index : nat;
  variables : list bool;
  result : jsval;
  userAnswer : option bool          (* [null] is [None] *)
}.

Record table : Type := {
  expression : jsstring;
  tvariables : list char;
  rows : list row
}.

(** The fields of the object: [currentTable] ([null] is [None]) and
    [userAnswers], an object keyed by row index. *)
Record generator : Type := {
  currentTable : option table;
  userAnswers : gmap nat bool
}.

(** *** getVariables *)

Definition collect (variables : list char) (item : jsstring) : list char :=
  if testLetter item then
    match item with
    | [c] => set_add c variables
    | _ => variables
    end
  else variables.

Definition getVariables (expression : jsstring) : list char :=
  sort (fold_left collect (stringIterator expression) []).

(** *** generateCombinations *)

(** [(i >> j) & 1 ? true : false] *)
Definition bit (i j : Z) : bool := negb (js_band (js_sar i j) 1 =? 0).

(** The inner loop, [for (let j = count - 1; j >= 0; j--)], with [count]
    iterations left and the array [combination] built so far. *)
Fixpoint fill_combination (i : Z) (count : nat) (combination : list bool)
  : completion (list bool) :=
  match count with
  | O => Ok combination
  | S j =>
      perform combination' <- push combination (bit i (Z.of_nat j));
      fill_combination i j combination'
  end.

(** The outer loop, [for (let i = 0; i < totalCombinations; i++)], over
    the values of [i] still to come, with the array [combinations] built
    so far. *)
Fixpoint fill_combinations (variableCount : nat) (indices : list nat)
    (combinations : list (list bool)) : completion (list (list bool)) :=
  match indices with
  | [] => Ok combinations
  | i :: rest =>
      perform combination <- fill_combination (Z.of_nat i) variableCount [];
      perform combinations' <- push combinations combination;
      fill_combinations variableCount rest combinations'
  end.

(** [variableCount] is an array length.  [Math.pow(2, variableCount)] is
    exact up to 2^1023 and infinite beyond; the loop ends before [i]
    reaches 2^32, by its test or by the RangeError of [push], and up to
    there [i++] is exact and both bounds give the same iterations. *)
Definition generateCombinations (variableCount : nat)
  : completion (list (list bool)) :=
  fill_combinations variableCount (seq 0 (2 ^ variableCount)) [].

(** *** generateTable *)

(** [combination[i]], [undefined] out of range. *)
Definition at_index (combination : list bool) (i : nat) : jsval :=
  from_option JBool JUndefined (combination !! i).

(** [variables.forEach((variable, i) => variableValues[variable] = combination[i])],
    from index [i] on. *)
Fixpoint assign (variables : list char) (i : nat) (combination : list bool)
    (variableValues : gmap char jsval) : gmap char jsval :=
  match variables with
  | [] => variableValues
  | variable :: rest =>
      assign rest (S i) combination
        (<[variable := at_index combination i]> variableValues)
  end.

Definition make_row (expression : jsstring) (variables : list char)
    (index : nat) (combination : list bool) : row :=
  {| index := index;
     variables := combination;
     result := LogicEvaluator.evaluate expression (assign variables 0 combination ∅);
     userAnswer := None |}.

(** The argument is a string; the empty string is the only falsy one. *)
Definition generateTable (g : generator) (expression : jsstring)
  : completion table * generator :=
  if bool_decide (expression = []) || bool_decide (trim expression = []) then
    (Throw EmptyExpression, g)
  else
    let variables := getVariables expression in
    if (length variables =? 0)%nat then (Throw NoVariablesFound, g)
    else
      match generateCombinations (length variables) with
      | Throw e => (Throw e, g)
      | Ok combinations =>
          let rows := imap (make_row expression variables) combinations in
          let t := {| expression := expression; tvariables := variables;
                      rows := rows |} in
          (Ok t, {| currentTable := Some t; userAnswers := userAnswers g |})
      end.

(** *** collectUserAnswers and checkAnswers *)

(** The page: for a row index, the [value] of the checked radio button
    named [answer_<index>], if one is checked. *)
Definition page := nat -> option string.

Definition collect_row (checked : page) (answers : gmap nat bool) (index : nat)
  : gmap nat bool :=
  match checked index with
  | Some value => <[index := String.eqb value "true"]> answers
  | None => answers
  end.

Definition collectUserAnswers (g : generator) (checked : page)
  : gmap nat bool * generator :=
  match currentTable g with
  | None => (∅, g)
  | Some t =>
      let answers := fold_left (collect_row checked) (seq 0 (length (rows t))) ∅ in
      (answers, {| currentTable := currentTable g; userAnswers := answers |})
  end.

Record entry : Type := {
  e_index : nat;
  e_userAnswer : option bool;       (* [null] is [None] *)
  e_correctAnswer : jsval;
  e_isCorrect : bool
}.

(** The counters that the callback of [rows.map] updates, and the
    array that [map] builds. *)
Record tally : Type := {
  t_correct : nat;
  t_answered : nat;
  t_results : list entry
}.

Definition check_row (answers : gmap nat bool) (t : tally) (index : nat) (r : row)
  : tally :=
  let correctAnswer := result r in
  match answers !! index with
  | Some userAnswer =>
      let isCorrect := bool_decide (JBool userAnswer = correctAnswer) in
      {| t_correct := if isCorrect then S (t_correct t) else t_correct t;
         t_answered := S (t_answered t);
         t_results := t_results t ++
           [{| e_index := index; e_userAnswer := Some userAnswer;
               e_correctAnswer := correctAnswer; e_isCorrect := isCorrect |}] |}
  | None =>
      {| t_correct := t_correct t;
         t_answered := t_answered t;
         t_results := t_results t ++
           [{| e_index := index; e_userAnswer := None;
               e_correctAnswer := correctAnswer; e_isCorrect := false |}] |}
  end.

(** [rows.map(callback)] from array index [index] on. *)
Fixpoint check_rows (answers : gmap nat bool) (t : tally) (index : nat)
    (rs : list row) : tally :=
  match rs with
  | [] => t
  | r :: rest => check_rows answers (check_row answers t index r) (S index) rest
  end.

(** [score]: a string from [toFixed], or the number 0. *)
Inductive jsscore : Type :=
  | ScoreNumber (n : Z)
  | ScoreString (s : string).

Record summary : Type := {
  correct : nat;
  total : nat;
  answered : nat;
  isComplete : bool;
  results : list entry;
  score : jsscore
}.

(** The two object shapes that [checkAnswers] returns. *)
Inductive checked : Type :=
  | NoTable (correct total : nat) (isComplete : bool)
  | Checked (s : summary).

Definition make_score (correct total : nat) : jsscore :=
  if (0 <? total)%nat
  then ScoreString (toFixed1 (number_of_nat correct / number_of_nat total * 100)%float)
  else ScoreNumber 0.

Definition checkAnswers (g : generator) (pg : page) : checked * generator :=
  let '(_, g1) := collectUserAnswers g pg in
  match currentTable g1 with
  | None => (NoTable 0 0 false, g1)
  | Some t =>
      let total := length (rows t) in
      let start := {| t_correct := 0; t_answered := 0; t_results := [] |} in
      let c := check_rows (userAnswers g1) start 0 (rows t) in
      (Checked {| correct := t_correct c;
                  total := total;
                  answered := t_answered c;
                  isComplete := (t_answered c =? total)%nat;
                  results := t_results c;
                  score := make_score (t_correct c) total |}, g1)
  end.

End TruthTableGenerator.

Import LogicEvaluator TruthTableGenerator.

(** ** Formulas as the page builds them

    [LogicCore.applyNegation] builds the text [(~x)] and
    [LogicCore.applyBinaryOperator] the text [(x op y)] from the texts of
    existing elements; an element starts as a variable. *)

Inductive connective : Type := Conj | Disj | Impl | Equiv.

Definition symbol (o : connective) : char :=
  match o with
  | Conj => WEDGE
  | Disj => VEE
  | Impl => ARROW
  | Equiv => IFF
  end.

Inductive formula : Type :=
  | Var (c : char)
  | Neg (f : formula)
  | Bin (o : connective) (f g : formula).

Fixpoint text (f : formula) : jsstring :=
  match f with
  | Var c => [c]
  | Neg f => [LPAREN; TILDE] ++ text f ++ [RPAREN]
  | Bin o f g => [LPAREN] ++ text f ++ [symbol o] ++ text g ++ [RPAREN]
  end.

(** Every variable of the formula is a letter. *)
Fixpoint letters (f : formula) : Prop :=
  match f with
  | Var c => isLetter c = true
  | Neg f => letters f
  | Bin _ f g => letters f /\ letters g
  end.

(** The truth tables of the connectives. *)
Definition table_of (o : connective) (a b : bool) : bool :=
  match o with
  | Conj => a && b
  | Disj => a || b
  | Impl => negb a || b
  | Equiv => Bool.eqb a b
  end.

Fixpoint truth (m : char -> bool) (f : formula) : bool :=
  match f with
  | Var c => m c
  | Neg f => negb (truth m f)
  | Bin o f g => table_of o (truth m f) (truth m g)
  end.

(** The assignment [vv] gives every variable of [f] the boolean [m] gives. *)
Fixpoint covers (vv : gmap char jsval) (m : char -> bool) (f : formula) : Prop :=
  match f with
  | Var c => vv !! c = Some (JBool (m c))
  | Neg f => covers vv m f
  | Bin _ f g => covers vv m f /\ covers vv m g
  end.

Fixpoint postfix_of (f : formula) : list char :=
  match f with
  | Var c => [c]
  | Neg f => postfix_of f ++ [TILDE]
  | Bin o f g => postfix_of f ++ postfix_of g ++ [symbol o]
  end.

(** ** The operator stack of the scanner *)

(** The precedence of a token of the operator stack. *)
Definition prec (c : char) : N :=
  match operators c with
  | Some info => precedence info
  | None => 0
  end.

(** The part of the stack above its topmost '(' (all of it when there is
    none), top first; and the rest, from that '(' down. *)
Fixpoint above_paren (stack : list char) : list char :=
  match stack with
  | [] => []
  | top :: below => if (top =? LPAREN)%N then [] else top :: above_paren below
  end.

Fixpoint from_paren (stack : list char) : list char :=
  match stack with
  | [] => []
  | top :: below => if (top =? LPAREN)%N then stack else from_paren below
  end.

(** What the scanner keeps true of its stack: every entry is '(' or an
    operator, and above each '(' the precedences grow strictly towards
    the top. *)
Fixpoint ordered (stack : list char) : Prop :=
  match stack with
  | [] => True
  | top :: below =>
      (top = LPAREN \/
       (is_Some (operators top) /\
        Forall (fun o => (prec o < prec top)%N) (above_paren below)))
      /\ ordered below
  end.

Definition is_token (c : char) : Prop :=
  isLetter c = true \/ is_Some (operators c) \/ c = LPAREN.

(** The invariant of the scanning loop. *)
Definition scanner_ok (st : scanner) : Prop :=
  Forall (fun c => isLetter c = true \/ is_Some (operators c)) (output st)
  /\ ordered (operatorStack st).

(** ** Formulas in infix notation

    [written l e f]: the string [e] writes the formula [f] with the
    usual conventions, and [l] is the binding strength of [e]: 5 for a
    variable or a parenthesised formula, 4 for a negation, and the
    precedence of its operator for a binary formula.  A negation is
    applied to a variable or to a parenthesised formula; the left
    operand of a binary operator binds at least as tightly as the
    operator and the right operand binds tighter, so that operators of
    the same precedence group to the left.  Parentheses may be put around
    any formula and spaces anywhere. *)
Inductive written : N -> jsstring -> formula -> Prop :=
  | written_var (c : char) :
      isLetter c = true -> written 5 [c] (Var c)
  | written_paren (l : N) (e : jsstring) (f : formula) :
      written l e f -> written 5 ([LPAREN] ++ e ++ [RPAREN]) f
  | written_neg (e : jsstring) (f : formula) :
      written 5 e f -> written 4 (TILDE :: e) (Neg f)
  | written_bin (o : connective) (l1 l2 : N) (e1 e2 : jsstring) (f1 f2 : formula) :
      written l1 e1 f1 -> written l2 e2 f2 ->
      (prec (symbol o) <= l1)%N -> (prec (symbol o) < l2)%N ->
      written (prec (symbol o)) (e1 ++ [symbol o] ++ e2) (Bin o f1 f2)
  | written_space_before (l : N) (e : jsstring) (f : formula) :
      written l e f -> written l (SPACE :: e) f
  | written_space_after (l : N) (e : jsstring) (f : formula) :
      written l e f -> written l (e ++ [SPACE]) f.

(** The operator branch of the scanner pops nothing from [stack] for an
    incoming operator of precedence [p]. *)
Definition settled (p : N) (stack : list char) : Prop :=
  match stack with
  | [] => True
  | top :: _ => pops_before p top = false
  end.

(** ** Collecting letters unit by unit *)

(** What the loop of [getVariables] does to its [Set] when the string is
    read one code unit at a time ([collect_units_spec] shows that reading
    it by code points, as the source does, gives the same). *)
Definition collect_unit (variables : list char) (c : char) : list char :=
  if isLetter c then set_add c variables else variables.

(** ** The entries of a check, row by row *)

(** The entry that the callback of [checkAnswers] returns for the row
    [r] at array index [index]. *)
Definition entry_of (answers : gmap nat bool) (index : nat) (r : row) : entry :=
  {| e_index := index;
     e_userAnswer := answers !! index;
     e_correctAnswer := result r;
     e_isCorrect := match answers !! index with
                    | Some userAnswer => bool_decide (JBool userAnswer = result r)
                    | None => false
                    end |}.

Fixpoint entries_from (answers : gmap nat bool) (index : nat) (rs : list row)
  : list entry :=
  match rs with
  | [] => []
  | r :: rest => entry_of answers index r :: entries_from answers (S index) rest
  end.

Definition is_answered (e : entry) : bool :=
  match e_userAnswer e with
  | Some _ => true
  | None => false
  end.

(** The answers on the page for the rows [0 .. n-1]. *)
Definition submitted (pg : page) (n : nat) (index : nat) : option bool :=
  if bool_decide (index < n)%nat
  then (fun value => String.eqb value "true") <$> pg index
  else None.

(** ** The tuples of [generateCombinations]

    What the two loops build when no [push] fails: the tuple of the
    index [i], and the tuples of all indices in order
    ([generateCombinations_spec] shows when that is the result). *)
Fixpoint combination (i : Z) (count : nat) : list bool :=
  match count with
  | O => []
  | S j => bit i (Z.of_nat j) :: combination i j
  end.

Definition tuples (variableCount : nat) : list (list bool) :=
  (fun i => combination (Z.of_nat i) variableCount)
    <$> seq 0 (2 ^ variableCount).

(** ** Reading a tuple as a big-endian binary number *)

Definition be_value (tuple : list bool) : Z :=
  fold_left (fun acc (b : bool) => 2 * acc + Z.b2z b) tuple 0.

(** ** Sample inputs *)

Definition p_ : char := 112%N.
Definition q_ : char := 113%N.
Definition r_ : char := 114%N.

(** ["(p∧q)"], ["(~p)"], ["1+1"], and the assignment [{p: true, q: false}]. *)
Definition ex_and : jsstring := [LPAREN; p_; WEDGE; q_; RPAREN].
Definition ex_not : jsstring := [LPAREN; TILDE; p_; RPAREN].
Definition ex_assignment : gmap char jsval :=
  <[p_ := JBool true]> (<[q_ := JBool false]> ∅).

Definition ex_one_plus_one : jsstring := [49; 43; 49]%N.

(** A generator as its constructor leaves it. *)
Definition g0 : generator := {| currentTable := None; userAnswers := ∅ |}.

(** A page on which the rows 0 and 3 are answered "true". *)
Definition ex_page : page :=
  fun i => match i with
           | 0%nat => Some "true"%string
           | 3%nat => Some "true"%string
           | _ => None
           end.


(** ** LogicCore: variables, elements, selection and operators

    The state of a [LogicCore] object and the methods that change it.
    Coordinates and sizes are Numbers (binary64).  The fields [operators]
    and [variables] never change and are left out of the state; the
    value of [Date.now() + Math.random()], which [createConnection] uses
    as an id, is an argument of the methods that reach it. *)

(** [parseVariables]: one pass of its loop.  [vars.includes(char)] is
    only reached for an item that [isVariable] accepts, a one-unit
    string. *)
Definition parse_item (vars : list char) (item : jsstring) : list char :=
  match item with
  | [c] =>
      if LogicCore.isVariable item && negb (bool_decide (c ∈ vars))
      then vars ++ [c]
      else vars
  | _ => vars
  end.

Definition parseVariables (input : jsstring) : list char :=
  fold_left parse_item (stringIterator input) [].

(** [Math.max(a, b)] *)
Definition Math_max (a b : float) : float :=
  if PrimFloat.is_nan a || PrimFloat.is_nan b then PrimFloat.nan
  else if (a <? b)%float then b
  else if (b <? a)%float then a
  else if PrimFloat.is_zero a && PrimFloat.get_sign a then b
  else a.

Module LogicCoreState.

Record element : Type := {
  el_id : nat;
  el_text : jsstring;
  el_x : float;
  el_y : float;
  el_width : float;
  el_height : float;
  el_isSelected : bool
}.

Record connection : Type := {
  cn_id : float;
  cn_from : nat;
  cn_to : nat;
  cn_fromX : float;
  cn_fromY : float;
  cn_toX : float;
  cn_toY : float
}.

Record core : Type := {
  elements : list element;
  connections : list connection;
  selectedElements : list nat;
  currentExpression : jsstring;
  nextElementId : nat
}.

(** The state the constructor builds, and [clear] restores. *)
Definition fresh : core :=
  {| elements := [];
     connections := [];
     selectedElements := [];
     currentExpression := [];
     nextElementId := 1 |}.

Definition clear (c : core) : core := fresh.

(** [text.length * 12 + 10] *)
Definition calculateTextWidth (text : jsstring) : float :=
  (number_of_nat (length text) * 12 + 10)%float.

Definition createElement (c : core) (text : jsstring) (x y : float)
  : element * core :=
  let element :=
    {| el_id := nextElementId c;
       el_text := text;
       el_x := x;
       el_y := y;
       el_width := (calculateTextWidth text + 20)%float;
       el_height := 30%float;
       el_isSelected := false |} in
  (element,
   {| elements := elements c ++ [element];
      connections := connections c;
      selectedElements := selectedElements c;
      currentExpression := currentExpression c;
      nextElementId := S (nextElementId c) |}).

(** [this.elements.find(e => e.id === elementId)] *)
Definition find_element (els : list element) (elementId : nat) : option element :=
  List.find (fun e => (el_id e =? elementId)%nat) els.

Definition with_isSelected (e : element) (b : bool) : element :=
  {| el_id := el_id e;
     el_text := el_text e;
     el_x := el_x e;
     el_y := el_y e;
     el_width := el_width e;
     el_height := el_height e;
     el_isSelected := b |}.

(** [element.isSelected = b] on the object that [find] returned: the
    first element of the array with that id. *)
Fixpoint mark (els : list element) (elementId : nat) (b : bool) : list element :=
  match els with
  | [] => []
  | e :: rest =>
      if (el_id e =? elementId)%nat then with_isSelected e b :: rest
      else e :: mark rest elementId b
  end.

Definition toggleSelection (c : core) (elementId : nat) : core :=
  match find_element (elements c) elementId with
  | None => c
  | Some element =>
      if el_isSelected element then
        {| elements := mark (elements c) elementId false;
           connections := connections c;
           selectedElements :=
             List.filter (fun i => negb (i =? elementId)%nat) (selectedElements c);
           currentExpression := currentExpression c;
           nextElementId := nextElementId c |}
      else
        {| elements := mark (elements c) elementId true;
           connections := connections c;
           selectedElements := selectedElements c ++ [elementId];
           currentExpression := currentExpression c;
           nextElementId := nextElementId c |}
  end.

Definition clearSelection (c : core) : core :=
  {| elements := (fun e => with_isSelected e false) <$> elements c;
     connections := connections c;
     selectedElements := [];
     currentExpression := currentExpression c;
     nextElementId := nextElementId c |}.

Definition createConnection (c : core) (stamp : float)
    (fromElement toElement : element) : connection * core :=
  let connection :=
    {| cn_id := stamp;
       cn_from := el_id fromElement;
       cn_to := el_id toElement;
       cn_fromX := (el_x fromElement + el_width fromElement)%float;
       cn_fromY := (el_y fromElement + el_height fromElement / 2)%float;
       cn_toX := el_x toElement;
       cn_toY := (el_y toElement + el_height toElement / 2)%float |} in
  (connection,
   {| elements := elements c;
      connections := connections c ++ [connection];
      selectedElements := selectedElements c;
      currentExpression := currentExpression c;
      nextElementId := nextElementId c |}).

Definition set_currentExpression (c : core) (text : jsstring) : core :=
  {| elements := elements c;
     connections := connections c;
     selectedElements := selectedElements c;
     currentExpression := text;
     nextElementId := nextElementId c |}.

(** [selectedElements[0]] is [undefined] on an empty selection, and no
    element has that id. *)
Definition applyNegation (c : core) (stamp : float) : bool * core :=
  match selectedElements c with
  | [] => (false, c)
  | elementId :: _ =>
      match find_element (elements c) elementId with
      | None => (false, c)
      | Some element =>
          let newText := [LPAREN; TILDE] ++ el_text element ++ [RPAREN] in
          let '(newElement, c1) :=
            createElement c newText
              (el_x element + el_width element + 100)%float (el_y element) in
          let '(_, c2) := createConnection c1 stamp element newElement in
          (true, clearSelection (set_currentExpression c2 newText))
      end
  end.

Definition applyBinaryOperator (c : core) (operator : jsstring)
    (stamp1 stamp2 : float) : bool * core :=
  match selectedElements c with
  | [id1; id2] =>
      match find_element (elements c) id1, find_element (elements c) id2 with
      | Some element1, Some element2 =>
          let newText :=
            [LPAREN] ++ el_text element1 ++ operator ++ el_text element2
            ++ [RPAREN] in
          let newX :=
            (Math_max (el_x element1 + el_width element1)
                      (el_x element2 + el_width element2) + 100)%float in
          let newY := ((el_y element1 + el_y element2) / 2)%float in
          let '(newElement, c1) := createElement c newText newX newY in
          let '(_, c2) := createConnection c1 stamp1 element1 newElement in
          let '(_, c3) := createConnection c2 stamp2 element2 newElement in
          (true, clearSelection (set_currentExpression c3 newText))
      | _, _ => (false, c)
      end
  | _ => (false, c)
  end.

Definition applyOperator (c : core) (operator : jsstring)
    (stamp1 stamp2 : float) : bool * core :=
  if bool_decide (operator = [TILDE])
     && (length (selectedElements c) =? 1)%nat
  then applyNegation c stamp1
  else if negb (bool_decide (operator = [TILDE]))
          && (length (selectedElements c) =? 2)%nat
  then applyBinaryOperator c operator stamp1 stamp2
  else (false, c).

(** The part of [UIController.generateVariableElements] that acts on
    the core: [clear], then one element per variable at
    [(20, 50 + index * 50)].  (Its rendering calls are not modelled.) *)
Fixpoint place (c : core) (variables : list char) (index : nat) : core :=
  match variables with
  | [] => c
  | variable :: rest =>
      place (snd (createElement c [variable] 20%float
                    (50 + number_of_nat index * 50)%float))
            rest (S index)
  end.

Definition generateVariableElements (c : core) (variables : list char) : core :=
  place (clear c) variables 0.

(** *** generateRandomFormula *)

(** What one pass of the loop draws, in the order of its three calls of
    [Math.random]: [Math.floor(Math.random() * operators.length)],
    [Math.floor(Math.random() * vars.length)] and [Math.random() < 0.3]. *)
Record draw : Type := {
  pick_operator : nat;
  pick_variable : nat;
  negate : bool
}.

(** A template-literal slot holding an array element: [undefined] out of
    range prints as "undefined". *)
Definition interpolate (o : option char) : jsstring :=
  match o with
  | Some c => [c]
  | None => [117; 110; 100; 101; 102; 105; 110; 101; 100]%N
  end.

Definition random_step (vars : list char) (result : jsstring) (d : draw)
  : jsstring :=
  let operator := [WEDGE; VEE; ARROW; IFF] !! pick_operator d in
  let variable := vars !! pick_variable d in
  let result :=
    if negate d then [LPAREN; TILDE] ++ result ++ [RPAREN] else result in
  [LPAREN] ++ result ++ interpolate operator ++ interpolate variable ++ [RPAREN].

(** [draws i] is what pass [i] of the loop draws. *)
Definition generateRandomFormula (variableCount : nat) (draws : nat -> draw)
  : jsstring :=
  let vars := take (Nat.max 2 variableCount) [112; 113; 114; 115; 116]%N in
  fold_left (fun result i => random_step vars result (draws i))
            (seq 0 (variableCount - 1)) (interpolate (vars !! 0%nat)).

End LogicCoreState.

(** [TruthTableGenerator.reset] (the removal of the statistics from the
    page is not part of the state). *)
Definition reset (g : generator) : generator :=
  {| currentTable := None; userAnswers := ∅ |}.

(** ** What the methods of LogicCore keep true *)

(** Ids are distinct, positive and below the next id; the selection
    lists, each once, the ids of the elements flagged as selected. *)
Definition core_ok (c : LogicCoreState.core) : Prop :=
  NoDup (LogicCoreState.el_id <$> LogicCoreState.elements c)
  /\ (1 <= LogicCoreState.nextElementId c)%nat
  /\ Forall (fun e => (1 <= LogicCoreState.el_id e
                       < LogicCoreState.nextElementId c)%nat)
            (LogicCoreState.elements c)
  /\ NoDup (LogicCoreState.selectedElements c)
  /\ (forall i : nat,
      i ∈ LogicCoreState.selectedElements c <->
      exists e, e ∈ LogicCoreState.elements c
                /\ LogicCoreState.el_id e = i
                /\ LogicCoreState.el_isSelected e = true).

(** A text is the text of a formula over letters. *)
Definition well_formed (t : jsstring) : Prop :=
  exists f : formula, letters f /\ t = text f.

Definition texts_ok (c : LogicCoreState.core) : Prop :=
  Forall (fun e => well_formed (LogicCoreState.el_text e))
         (LogicCoreState.elements c)
  /\ (LogicCoreState.currentExpression c = []
      \/ well_formed (LogicCoreState.currentExpression c)).

(** The core after the variables p and q were generated and both
    elements clicked. *)
Definition ex_core : LogicCoreState.core :=
  LogicCoreState.toggleSelection
    (LogicCoreState.toggleSelection
       (LogicCoreState.generateVariableElements LogicCoreState.fresh [p_; q_])
       1)
    2.

(** Draws that always pick '→', the second variable and a negation. *)
Definition ex_draws : nat -> LogicCoreState.draw :=
  fun i => {| LogicCoreState.pick_operator := 2;
              LogicCoreState.pick_variable := 1;
              LogicCoreState.negate := true |}.

(** ** MathLogicApp: the handlers that act on the core and the generator

    Each handler ends in one call of [showAlert]; the alert shown is
    returned with the new state.  The calls that only redraw the page
    are not modelled; where such calls stand in a [try] block, the error
    one of them throws, if any, is an argument of the handler. *)

Module MathLogicApp.

Inductive alert : Type :=
  | NegationNeedsOne                     (* '否定运算需要选择一个元素', warning *)
  | BinaryNeedsTwo                       (* '二元运算需要选择两个元素', warning *)
  | OperatorApplied (operator : jsstring) (* `成功应用运算符: ${operator}`, success *)
  | OperatorFailed                       (* '运算失败，请检查选择的元素', error *)
  | NoInput                              (* '请输入变元！', warning *)
  | NoValidVariables                     (* '请输入有效的变元（如: p, q, r）', error *)
  | VariablesGenerated (variables : list char)
                                         (* `成功生成 ${n} 个变元: ...`, success *)
  | NoExpression                         (* '请先构建一个逻辑表达式', warning *)
  | TableGenerated                       (* '真值表已生成', success *)
  | TableFailed (e : error).             (* `生成真值表失败: ${error.message}`, error *)

Definition handleOperatorClick (c : LogicCoreState.core) (operator : jsstring)
    (stamp1 stamp2 : float) : alert * LogicCoreState.core :=
  let selectedCount := length (LogicCoreState.selectedElements c) in
  if bool_decide (operator = [TILDE]) && negb (selectedCount =? 1)%nat
  then (NegationNeedsOne, c)
  else if negb (bool_decide (operator = [TILDE])) && negb (selectedCount =? 2)%nat
  then (BinaryNeedsTwo, c)
  else
    let '(success, c') := LogicCoreState.applyOperator c operator stamp1 stamp2 in
    if success then (OperatorApplied operator, c') else (OperatorFailed, c').

(** [input] is the text of the variables field. *)
Definition handleGenerateVariables (c : LogicCoreState.core) (input : jsstring)
  : alert * LogicCoreState.core :=
  let value := trim input in
  if bool_decide (value = []) then (NoInput, c)
  else
    let variables := parseVariables value in
    if (length variables =? 0)%nat then (NoValidVariables, c)
    else (VariablesGenerated variables,
          LogicCoreState.generateVariableElements c variables).

(** [display g'] is what [renderTable('truth-table-container')] followed
    by [openModal()] does on the page when the generator is [g']:
    [None] when both return, the error thrown otherwise.  Neither
    changes the generator; [showAlert] is taken to return. *)
Definition handleTruthTable (c : LogicCoreState.core) (g : generator)
    (display : generator -> option error) : alert * generator :=
  if bool_decide (LogicCoreState.currentExpression c = []) then (NoExpression, g)
  else
    match generateTable g (LogicCoreState.currentExpression c) with
    | (Ok _, g') =>
        match display g' with
        | None => (TableGenerated, g')
        | Some e => (TableFailed e, g')
        end
    | (Throw e, g') => (TableFailed e, g')
    end.

End MathLogicApp.

(** ** The value of a formula as JavaScript computes it *)

Definition js_binary (o : connective) (a b : jsval) : jsval :=
  match o with
  | Conj => js_and a b
  | Disj => js_or a b
  | Impl => js_or (js_not a) b
  | Equiv => js_strict_eq a b
  end.

Fixpoint js_value (vv : gmap char jsval) (f : formula) : jsval :=
  match f with
  | Var c => read vv c
  | Neg f => js_not (js_value vv f)
  | Bin o f g => js_binary o (js_value vv f) (js_value vv g)
  end.

(** The number of '(' that are still open after the expression: a ')'
    closes one when one is open. *)
Definition depth_step (d : nat) (c : char) : nat :=
  if (c =? LPAREN)%N then S d
  else if (c =? RPAREN)%N then Nat.pred d
  else d.

Definition unclosed (e : jsstring) : nat := fold_left depth_step e 0%nat.

Definition count_parens (l : list char) : nat :=
  length (List.filter (fun c => (c =? LPAREN)%N) l).

(** ** Characters the scanner acts on *)

(** [this.operators[c]] is truthy. *)
Definition is_operator (c : char) : bool :=
  match operators c with
  | Some _ => true
  | None => false
  end.

(** The characters that reach a branch of the scanner other than the
    final, empty one. *)
Definition significant (c : char) : bool :=
  negb (c =? SPACE)%N
  && (isLetter c || (c =? LPAREN)%N || (c =? RPAREN)%N || is_operator c).

(** What the scanner has done with the characters read so far: the
    letters are in the output in their order, none is on the stack; the
    operators are spread over output and stack, each once; whatever is
    held was read. *)
Definition scanned (pre : jsstring) (st : scanner) : Prop :=
  List.filter isLetter (output st) = List.filter isLetter pre
  /\ List.filter isLetter (operatorStack st) = []
  /\ List.filter is_operator (output st ++ operatorStack st)
     ≡ₚ List.filter is_operator pre
  /\ (forall c, c ∈ output st ++ operatorStack st -> c ∈ pre)
  /\ (length (output st) + length (operatorStack st) <= length pre)%nat.

(** ** The evaluator *)

Section Evaluator.

Variable vv : gmap char jsval.

Lemma run_app (pre post : list char) (stack : list jsval) :
  run vv stack (pre ++ post) =
  perform stack' <- run vv stack pre; run vv stack' post.
Proof.
  revert stack. induction pre as [|tok pre IH]; intros stack; simpl; [done|].
  destruct (step vv stack tok) as [s'|e]; simpl; [apply IH | done].
Qed.

Lemma run_snoc (pre : list char) (tok : char) (stack : list jsval) :
  run vv stack (pre ++ [tok]) =
  perform stack' <- run vv stack pre; step vv stack' tok.
Proof.
  rewrite run_app. destruct (run vv stack pre) as [s'|e]; simpl; [|done].
  by destruct (step vv s' tok).
Qed.

Lemma symbol_not_letter (o : connective) : isVariable (symbol o) = false.
Proof. by destruct o. Qed.

Lemma step_symbol (o : connective) (a b : bool) (stack : list jsval) :
  step vv (JBool b :: JBool a :: stack) (symbol o) =
  Ok (JBool (table_of o a b) :: stack).
Proof. by destruct o, a, b. Qed.

(** No token makes [step] throw: the apply functions are reached only
    with an operator they know. *)
Lemma step_never_throws (stack : list jsval) (tok : char) :
  exists stack', step vv stack tok = Ok stack'.
Proof.
  unfold step. destruct (isVariable tok); [eauto|].
  unfold operators, applyUnaryOperator, applyBinaryOperator.
  repeat (case_match; simplify_eq/=; eauto).
Qed.

Lemma run_never_throws (postfix : list char) (stack : list jsval) :
  exists stack', run vv stack postfix = Ok stack'.
Proof.
  revert stack. induction postfix as [|tok rest IH]; intros stack; simpl; [eauto|].
  destruct (step_never_throws stack tok) as [s' ->]. simpl. apply IH.
Qed.

End Evaluator.

(** ** The scanner of [infixToPostfix] *)

Lemma flush_app (out stack : list char) : flush out stack = out ++ stack.
Proof.
  revert out. induction stack as [|top below IH]; intros out; simpl.
  - by rewrite app_nil_r.
  - rewrite IH, <- app_assoc. done.
Qed.

Lemma scan_all_snoc (pre : jsstring) (c : char) :
  scan_all (pre ++ [c]) = scan (scan_all pre) c.
Proof. unfold scan_all. by rewrite fold_left_app. Qed.

Lemma letter_range (c : char) :
  isLetter c = true <-> (65 <= c <= 90 \/ 97 <= c <= 122)%N.
Proof.
  unfold isLetter.
  rewrite orb_true_iff, !andb_true_iff, !N.leb_le. done.
Qed.

(** Case analysis on every comparison of code units in the goal. *)
Ltac char_cases :=
  repeat match goal with
         | |- context [N.eqb ?a ?b] => destruct (N.eqb_spec a b)
         end;
  try done; try lia.

Lemma letter_not_special (c : char) :
  isLetter c = true ->
  (c =? SPACE)%N = false /\ (c =? LPAREN)%N = false /\ (c =? RPAREN)%N = false
  /\ operators c = None.
Proof.
  intros H. apply letter_range in H.
  unfold operators, SPACE, LPAREN, RPAREN, TILDE, WEDGE, VEE, ARROW, IFF.
  repeat split; char_cases.
Qed.

Lemma scan_variable (st : scanner) (c : char) :
  isLetter c = true ->
  scan st c = {| output := output st ++ [c]; operatorStack := operatorStack st |}.
Proof.
  intros H. destruct (letter_not_special c H) as (Hs & _).
  unfold scan, isVariable. by rewrite Hs, H.
Qed.

Lemma scan_symbol_on_paren (o : connective) (out stack : list char) :
  scan {| output := out; operatorStack := LPAREN :: stack |} (symbol o) =
  {| output := out; operatorStack := symbol o :: LPAREN :: stack |}.
Proof. destruct o; unfold scan; simpl; by rewrite app_nil_r. Qed.

Lemma scan_lparen (st : scanner) :
  scan st LPAREN =
  {| output := output st; operatorStack := LPAREN :: operatorStack st |}.
Proof. done. Qed.

Lemma scan_tilde_on_paren (out stack : list char) :
  scan {| output := out; operatorStack := LPAREN :: stack |} TILDE =
  {| output := out; operatorStack := TILDE :: LPAREN :: stack |}.
Proof. unfold scan; simpl; by rewrite app_nil_r. Qed.

Lemma scan_rparen_tilde (out stack : list char) :
  scan {| output := out; operatorStack := TILDE :: LPAREN :: stack |} RPAREN =
  {| output := out ++ [TILDE]; operatorStack := stack |}.
Proof. done. Qed.

Lemma scan_rparen_symbol (o : connective) (out stack : list char) :
  scan {| output := out; operatorStack := symbol o :: LPAREN :: stack |} RPAREN =
  {| output := out ++ [symbol o]; operatorStack := stack |}.
Proof. by destruct o. Qed.

(** Scanning the text of a formula appends its postfix form to the
    output and leaves the operator stack as it was. *)
Lemma scan_text (f : formula) :
  letters f ->
  forall st : scanner,
    fold_left scan (text f) st =
    {| output := output st ++ postfix_of f; operatorStack := operatorStack st |}.
Proof.
  induction f as [c | f IH | o f IHf g IHg]; simpl; intros Hl st.
  - by apply scan_variable.
  - rewrite scan_lparen, scan_tilde_on_paren.
    rewrite fold_left_app, IH by done. simpl.
    rewrite scan_rparen_tilde, <- app_assoc. done.
  - destruct Hl as [Hf Hg].
    rewrite scan_lparen, fold_left_app, IHf by done. simpl.
    rewrite scan_symbol_on_paren, fold_left_app, IHg by done. simpl.
    rewrite scan_rparen_symbol, <- !app_assoc. done.
Qed.

Lemma infixToPostfix_text (f : formula) :
  letters f -> infixToPostfix (text f) = postfix_of f.
Proof.
  intros Hl. unfold infixToPostfix, scan_all.
  rewrite scan_text by done. done.
Qed.

(** Running the postfix form of a formula pushes its truth value. *)
Lemma run_postfix_of (vv : gmap char jsval) (m : char -> bool) (f : formula) :
  letters f -> covers vv m f ->
  forall stack, run vv stack (postfix_of f) = Ok (JBool (truth m f) :: stack).
Proof.
  induction f as [c | f IH | o f IHf g IHg]; simpl.
  - intros Hl Hc stack. unfold step, isVariable, read. by rewrite Hl, Hc.
  - intros Hl Hc stack. rewrite run_snoc, IH by done. done.
  - intros [Hf Hg] [Hcf Hcg] stack.
    rewrite run_app, IHf by done. simpl.
    rewrite run_snoc, IHg by done. simpl.
    apply step_symbol.
Qed.

Lemma evaluate_text (vv : gmap char jsval) (m : char -> bool) (f : formula) :
  letters f -> covers vv m f ->
  evaluate (text f) vv = JBool (truth m f).
Proof.
  intros Hl Hc. unfold evaluate, evaluatePostfix.
  rewrite infixToPostfix_text, (run_postfix_of vv m) by done. done.
Qed.

(** ** Scanning a formula in infix notation *)

Lemma settled_mono (p q : N) (stack : list char) :
  (p <= q)%N -> settled p stack -> settled q stack.
Proof.
  destruct stack as [|top below]; [done|]. unfold settled, pops_before.
  intros Hle. destruct (top =? LPAREN)%N; [done|]. simpl.
  destruct (operators top) as [info|]; [|done].
  intros H. apply N.leb_gt in H. apply N.leb_gt. lia.
Qed.

Lemma settled_top (stack : list char) : settled 5 stack.
Proof.
  destruct stack as [|top below]; [done|]. unfold settled, pops_before, operators.
  destruct (top =? LPAREN)%N; [done|]. simpl.
  repeat (case_match; simplify_eq/=; try done).
Qed.

Lemma pops_before_mono (p q : N) (o : char) :
  (p <= q)%N -> pops_before q o = true -> pops_before p o = true.
Proof.
  unfold pops_before. intros Hle. destruct (o =? LPAREN)%N; [done|]. simpl.
  destruct (operators o) as [info|]; [|done].
  intros H. apply N.leb_le in H. apply N.leb_le. lia.
Qed.

Lemma pop_higher_app (p : N) (pending stack : list char) :
  Forall (fun o => pops_before p o = true) pending -> settled p stack ->
  pop_higher p (pending ++ stack) = (pending, stack).
Proof.
  intros Hp Hs. induction Hp as [|o pending Ho _ IH]; cbn [app pop_higher].
  - destruct stack as [|top below]; [done|]. cbn [settled pop_higher] in *.
    by rewrite Hs.
  - by rewrite Ho, IH.
Qed.

Lemma pop_to_paren_app (p : N) (pending stack : list char) :
  Forall (fun o => pops_before p o = true) pending ->
  pop_to_paren (pending ++ LPAREN :: stack) = (pending, LPAREN :: stack).
Proof.
  induction 1 as [|o pending Ho _ IH]; simpl; [done|].
  unfold pops_before in Ho. destruct (o =? LPAREN)%N; [done|]. by rewrite IH.
Qed.

Lemma scan_symbol (st : scanner) (o : connective) :
  scan st (symbol o) =
  let '(popped, rest) := pop_higher (prec (symbol o)) (operatorStack st) in
  {| output := output st ++ popped; operatorStack := symbol o :: rest |}.
Proof. by destruct o. Qed.

Lemma scan_tilde (st : scanner) :
  scan st TILDE =
  let '(popped, rest) := pop_higher 4 (operatorStack st) in
  {| output := output st ++ popped; operatorStack := TILDE :: rest |}.
Proof. done. Qed.

(** Scanning a formula in infix notation, on a stack from which its
    operators pop nothing: the tokens of its postfix form are appended
    to the output, except for a last few that wait on top of the stack,
    in the order in which they will be popped; these are operators that
    bind at least as tightly as the formula. *)
Lemma scan_written (l : N) (e : jsstring) (f : formula) :
  written l e f ->
  forall (out stack : list char),
    settled l stack ->
    exists done_ pending : list char,
      fold_left scan e {| output := out; operatorStack := stack |} =
      {| output := out ++ done_; operatorStack := pending ++ stack |}
      /\ done_ ++ pending = postfix_of f
      /\ Forall (fun o => pops_before l o = true) pending.
Proof.
  induction 1 as [c Hc | l e f _ IH | e f _ IH
                 | o l1 l2 e1 e2 f1 f2 _ IH1 _ IH2 Hl1 Hl2
                 | l e f _ IH | l e f _ IH]; intros out stack Hs.
  - exists [c], []. simpl. rewrite (scan_variable _ c Hc). done.
  - destruct (IH out (LPAREN :: stack)) as (d & pending & Hscan & Hpost & Hp); [done|].
    exists (d ++ pending), []. rewrite fold_left_app. simpl.
    rewrite scan_lparen. simpl. rewrite fold_left_app, Hscan. simpl.
    unfold scan. simpl. rewrite (pop_to_paren_app l) by done. simpl.
    rewrite app_assoc, app_nil_r. done.
  - simpl. rewrite scan_tilde. simpl.
    pose proof (pop_higher_app 4 [] stack ltac:(constructor) Hs) as Hpop.
    simpl in Hpop. rewrite Hpop, app_nil_r.
    destruct (IH out (TILDE :: stack)) as (d & pending & Hscan & Hpost & Hp);
      [apply settled_top|].
    exists d, (pending ++ [TILDE]). rewrite Hscan, <- app_assoc. simpl.
    split; [done|]. split; [by rewrite app_assoc, Hpost|].
    apply Forall_app. split; [|by repeat constructor].
    eapply Forall_impl; [exact Hp|]. intros o0. apply pops_before_mono. lia.
  - destruct (IH1 out stack) as (d1 & pending1 & Hscan1 & Hpost1 & Hp1);
      [by eapply settled_mono|].
    rewrite fold_left_app, Hscan1. simpl. rewrite scan_symbol. simpl.
    rewrite (pop_higher_app _ pending1 stack); [|
      eapply Forall_impl; [exact Hp1|]; intros o0; by apply pops_before_mono | done].
    destruct (IH2 (out ++ d1 ++ pending1) (symbol o :: stack))
      as (d2 & pending2 & Hscan2 & Hpost2 & Hp2).
    { unfold settled, pops_before. destruct o; simpl in *; apply N.leb_gt;
        by vm_compute in Hl2 |- *. }
    rewrite <- app_assoc, Hscan2.
    exists ((d1 ++ pending1) ++ d2), (pending2 ++ [symbol o]).
    rewrite <- !app_assoc. simpl. split; [done|]. split.
    + rewrite <- Hpost1, <- Hpost2, <- !app_assoc. done.
    + apply Forall_app. split.
      * eapply Forall_impl; [exact Hp2|]. intros o0. apply pops_before_mono. lia.
      * constructor; [by destruct o | constructor].
  - simpl. apply IH, Hs.
  - rewrite fold_left_app. simpl.
    destruct (IH out stack Hs) as (d & pending & Hscan & Hpost & Hp).
    rewrite Hscan. by exists d, pending.
Qed.

Lemma infixToPostfix_written (l : N) (e : jsstring) (f : formula) :
  written l e f -> infixToPostfix e = postfix_of f.
Proof.
  intros Hw. unfold infixToPostfix, scan_all.
  destruct (scan_written l e f Hw [] []) as (d & pending & -> & Hpost & _); [done|].
  simpl. by rewrite flush_app, app_nil_r.
Qed.

Lemma written_letters (l : N) (e : jsstring) (f : formula) :
  written l e f -> letters f.
Proof. induction 1; simpl; auto. Qed.

Lemma evaluate_written (vv : gmap char jsval) (m : char -> bool)
    (l : N) (e : jsstring) (f : formula) :
  written l e f -> covers vv m f -> evaluate e vv = JBool (truth m f).
Proof.
  intros Hw Hc. unfold evaluate, evaluatePostfix.
  rewrite (infixToPostfix_written l e f Hw).
  rewrite (run_postfix_of vv m) by (by eapply written_letters || done). done.
Qed.

(** The texts that the page builds are in infix notation. *)
Lemma text_written (f : formula) : letters f -> written 5 (text f) f.
Proof.
  induction f as [c | f IH | o f IHf g IHg]; cbn [text letters].
  - apply written_var.
  - intros Hl. apply (written_paren 4 (TILDE :: text f)).
    apply written_neg, IH, Hl.
  - intros [Hf Hg].
    replace (text f ++ [symbol o] ++ text g ++ [RPAREN])
      with ((text f ++ [symbol o] ++ text g) ++ [RPAREN])
      by (by rewrite <- !app_assoc).
    apply (written_paren (prec (symbol o)) (text f ++ [symbol o] ++ text g)).
    apply (written_bin o 5 5); [by apply IHf | by apply IHg | |];
      by destruct o.
Qed.

(** ** Claims about the evaluator *)

(** C1, as stated, fails for a formula with a negation put directly
    before a negation: the second '~' pops the first to the output
    before any operand, and that '~' then negates the [undefined] of an
    empty stack.  The postfix of [~~p] is [~ p ~], and with [p] false
    the evaluation ends with [true] at the bottom of the stack, while
    the formula is false. *)
Lemma double_negation_evaluates_to_true :
  infixToPostfix [TILDE; TILDE; p_] = [TILDE; p_; TILDE]
  /\ run (<[p_ := JBool false]> ∅) [] [TILDE; p_; TILDE]
     = Ok [JBool true; JBool true]
  /\ evaluate [TILDE; TILDE; p_] (<[p_ := JBool false]> ∅) = JBool true
  /\ covers (<[p_ := JBool false]> ∅) (fun _ => false) (Neg (Neg (Var p_)))
  /\ truth (fun _ => false) (Neg (Neg (Var p_))) = false.
Proof. repeat split; by vm_compute. Qed.

(** C1, amended.  [evaluatePostfix] pops the right operand first and the
    left operand second, and pushes [a && b] for '∧', [a || b] for '∨',
    [!a || b] for '→' and [a === b] for '↔'; '~' pops one operand and
    pushes its negation.  On booleans these are the truth tables of the
    connectives.  Processing a token after a prefix of the postfix
    sequence is one such step on the stack the prefix left.  Hence every
    formula written in infix notation, with the precedences
    ~ > ∧ > ∨ > → = ↔, binary operators of the same precedence grouping
    to the left, parentheses and spaces at will, and every negation
    applied to a variable or a parenthesised formula, is converted to
    its postfix form and evaluates, under an assignment covering its
    variables, to its truth value.  The texts [(~x)] and [(x op y)] that
    the page builds are such; in particular
    [evaluate("(p∧q)", {p: true, q: false})] and
    [evaluate("(~p)", {p: true})] are [false]. *)
Theorem evaluatePostfix_semantics :
  (forall (vv : gmap char jsval) (stack : list jsval) (a b : jsval),
      step vv (b :: a :: stack) WEDGE = Ok (js_and a b :: stack)
      /\ step vv (b :: a :: stack) VEE = Ok (js_or a b :: stack)
      /\ step vv (b :: a :: stack) ARROW = Ok (js_or (js_not a) b :: stack)
      /\ step vv (b :: a :: stack) IFF = Ok (js_strict_eq a b :: stack)
      /\ step vv (a :: stack) TILDE = Ok (js_not a :: stack))
  /\ (forall a b : bool,
      js_and (JBool a) (JBool b) = JBool (a && b)
      /\ js_or (JBool a) (JBool b) = JBool (a || b)
      /\ js_or (js_not (JBool a)) (JBool b) = JBool (negb a || b)
      /\ js_strict_eq (JBool a) (JBool b) = JBool (Bool.eqb a b)
      /\ js_not (JBool a) = JBool (negb a))
  /\ (forall (vv : gmap char jsval) (pre : list char) (tok : char) (stack : list jsval),
      run vv stack (pre ++ [tok]) =
      perform stack' <- run vv stack pre; step vv stack' tok)
  /\ (forall (vv : gmap char jsval) (m : char -> bool)
             (l : N) (e : jsstring) (f : formula),
      written l e f -> covers vv m f ->
      infixToPostfix e = postfix_of f
      /\ evaluatePostfix (infixToPostfix e) vv = Ok (JBool (truth m f))
      /\ evaluate e vv = JBool (truth m f))
  /\ (forall f : formula, letters f -> written 5 (text f) f)
  /\ (forall (vv : gmap char jsval) (m : char -> bool) (f : formula),
      letters f -> covers vv m f ->
      evaluatePostfix (infixToPostfix (text f)) vv = Ok (JBool (truth m f))
      /\ evaluate (text f) vv = JBool (truth m f))
  /\ evaluate ex_and ex_assignment = JBool false
  /\ evaluate ex_not (<[p_ := JBool true]> ∅) = JBool false.
Proof.
  split; [|split; [|split; [|split; [|split; [|split; [|split]]]]]].
  - intros vv stack a b. by repeat split.
  - intros a b. by destruct a, b.
  - intros vv pre tok stack. apply run_snoc.
  - intros vv m l e f Hw Hc.
    split; [by eapply infixToPostfix_written|].
    split; [|by eapply evaluate_written].
    unfold evaluatePostfix.
    rewrite (infixToPostfix_written l e f Hw).
    rewrite (run_postfix_of vv m) by (by eapply written_letters || done). done.
  - apply text_written.
  - intros vv m f Hl Hc. split; [|by apply evaluate_text].
    unfold evaluatePostfix.
    rewrite infixToPostfix_text, (run_postfix_of vv m) by done. done.
  - by vm_compute.
  - by vm_compute.
Qed.

Lemma evaluatePostfix_semantics_witness :
  evaluate [p_; ARROW; TILDE; q_; VEE; q_] ex_assignment = JBool true.
Proof.
  refine (proj2 (proj2 (proj1 (proj2 (proj2 (proj2 evaluatePostfix_semantics)))
     ex_assignment (fun c => (c =? p_)%N) 1%N [p_; ARROW; TILDE; q_; VEE; q_]
     (Bin Impl (Var p_) (Bin Disj (Neg (Var q_)) (Var q_))) _ _))).
  - apply (written_bin Impl 5 2 [p_] [TILDE; q_; VEE; q_]).
    + apply written_var. reflexivity.
    + apply (written_bin Disj 4 5 [TILDE; q_] [q_]).
      * apply written_neg, written_var. reflexivity.
      * apply written_var. reflexivity.
      * vm_compute. discriminate.
      * reflexivity.
    + vm_compute. discriminate.
    + reflexivity.
  - simpl. repeat split; reflexivity.
Defined.

(** C2, as stated, fails: a stack underflow is not a fault.  [pop] on
    an empty array yields [undefined], so ["p∧"] evaluates to
    [undefined], the empty expression to [undefined], and ["~"] to
    [true]: the result is neither always [false] on malformed input nor
    always a boolean. *)
Lemma evaluate_underflow_not_boolean :
  evaluate [p_; WEDGE] (<[p_ := JBool true]> ∅) = JUndefined
  /\ evaluate [] ∅ = JUndefined
  /\ evaluate [TILDE] ∅ = JBool true
  /\ ~ (forall (e : jsstring) (vv : gmap char jsval),
         exists b : bool, evaluate e vv = JBool b).
Proof.
  repeat split; try by vm_compute.
  intros H. destruct (H [] ∅) as [b Hb]. by vm_compute in Hb.
Qed.

(** C2, amended.  For every expression string and every assignment,
    neither the conversion nor the postfix evaluation throws (an
    underflowing [pop] yields [undefined], unknown tokens are skipped,
    and only the five operators reach the apply functions), so
    [evaluate] always returns, with the value at the bottom of the final
    stack; nothing propagates to the caller, a thrown error being turned
    into [false] by the [catch] clause.  The value is a boolean for
    every formula built from letters with [(~x)] and [(x op y)] under an
    assignment that covers its variables. *)
Theorem evaluate_never_throws :
  (forall (postfix : list char) (vv : gmap char jsval),
      exists stack, run vv [] postfix = Ok stack
                    /\ evaluatePostfix postfix vv = Ok (bottom stack))
  /\ (forall (e : jsstring) (vv : gmap char jsval),
      exists v, evaluatePostfix (infixToPostfix e) vv = Ok v /\ evaluate e vv = v)
  /\ (forall (e : jsstring) (vv : gmap char jsval),
      evaluate e vv = match evaluatePostfix (infixToPostfix e) vv with
                      | Ok v => v
                      | Throw _ => JBool false
                      end)
  /\ (forall (vv : gmap char jsval) (m : char -> bool) (f : formula),
      letters f -> covers vv m f ->
      exists b : bool, evaluate (text f) vv = JBool b).
Proof.
  assert (Hrun : forall postfix vv,
             exists stack, run vv [] postfix = Ok stack
                           /\ evaluatePostfix postfix vv = Ok (bottom stack)).
  { intros postfix vv. destruct (run_never_throws vv postfix []) as [s Hs].
    exists s. split; [done|]. unfold evaluatePostfix. by rewrite Hs. }
  split; [done|]. split; [|split; [done|]].
  - intros e vv. destruct (Hrun (infixToPostfix e) vv) as (s & _ & Hs).
    exists (bottom s). split; [done|]. unfold evaluate. by rewrite Hs.
  - intros vv m f Hl Hc. exists (truth m f). by apply evaluate_text.
Qed.

Lemma evaluate_never_throws_witness :
  exists b : bool, evaluate (text (Neg (Var p_))) ex_assignment = JBool b.
Proof.
  refine (proj2 (proj2 (proj2 evaluate_never_throws))
            ex_assignment (fun c => (c =? p_)%N) (Neg (Var p_)) _ _).
  - reflexivity.
  - reflexivity.
Defined.

(** ** The operator stack *)

Lemma pop_to_paren_spec (stack : list char) :
  pop_to_paren stack = (above_paren stack, from_paren stack).
Proof.
  induction stack as [|top below IH]; simpl; [done|].
  destruct (top =? LPAREN)%N; [done|]. by rewrite IH.
Qed.

Lemma above_from_paren (stack : list char) :
  above_paren stack ++ from_paren stack = stack.
Proof.
  induction stack as [|top below IH]; simpl; [done|].
  destruct (top =? LPAREN)%N; simpl; [done|]. by rewrite IH.
Qed.

Lemma above_paren_no_paren (stack : list char) :
  Forall (fun o => o <> LPAREN) (above_paren stack).
Proof.
  induction stack as [|top below IH]; simpl; [constructor|].
  destruct (N.eqb_spec top LPAREN); [constructor|]. by constructor.
Qed.

Lemma from_paren_head (stack : list char) :
  from_paren stack = [] \/ exists below, from_paren stack = LPAREN :: below.
Proof.
  induction stack as [|top below IH]; simpl; [by left|].
  destruct (N.eqb_spec top LPAREN) as [->|]; [right; eauto | done].
Qed.

Lemma from_paren_nil (stack : list char) :
  LPAREN ∉ stack -> from_paren stack = [] /\ above_paren stack = stack.
Proof.
  induction stack as [|top below IH]; simpl; [done|].
  intros Hn. apply not_elem_of_cons in Hn as [Hne Hn].
  destruct (N.eqb_spec top LPAREN); [done|].
  destruct (IH Hn) as [-> ->]. done.
Qed.

Lemma ordered_from_paren (stack : list char) :
  ordered stack -> ordered (from_paren stack).
Proof.
  induction stack as [|top below IH]; simpl; [done|].
  intros [Htop Hbelow]. destruct (top =? LPAREN)%N; simpl; auto.
Qed.

Lemma ordered_tail (top : char) (below : list char) :
  ordered (top :: below) -> ordered below.
Proof. simpl. tauto. Qed.

(** The loop of the operator branch pops a prefix of the stack, and on a
    stack the scanner built this prefix holds exactly the operators
    above the topmost '(' whose precedence is at least [p]. *)
Lemma pop_higher_spec (p : N) (stack : list char) :
  ordered stack ->
  pop_higher p stack =
  (List.filter (fun o => (p <=? prec o)%N) (above_paren stack),
   List.filter (fun o => (prec o <? p)%N) (above_paren stack) ++ from_paren stack).
Proof.
  induction stack as [|top below IH]; simpl; [done|].
  intros [Htop Hbelow]. unfold pops_before.
  destruct (N.eqb_spec top LPAREN) as [->|Hne]; simpl; [done|].
  destruct Htop as [?|[[info Hinfo] Hlt]]; [done|].
  assert (Hprec : prec top = precedence info) by (unfold prec; by rewrite Hinfo).
  rewrite Hinfo, Hprec.
  destruct (N.leb_spec p (precedence info)) as [Hle|Hgt].
  - rewrite IH by done.
    destruct (N.ltb_spec (precedence info) p); [lia|]. done.
  - destruct (N.ltb_spec (precedence info) p); [|lia].
    assert (Hnone : List.filter (fun o => (p <=? prec o)%N) (above_paren below) = []).
    { clear -Hlt Hgt Hprec. induction Hlt as [|o l Ho _ IHl]; simpl; [done|].
      destruct (N.leb_spec p (prec o)); [lia|]. done. }
    assert (Hall : List.filter (fun o => (prec o <? p)%N) (above_paren below)
                   = above_paren below).
    { clear -Hlt Hgt Hprec. induction Hlt as [|o l Ho _ IHl]; simpl; [done|].
      destruct (N.ltb_spec (prec o) p); [|lia]. by rewrite IHl. }
    rewrite Hnone, Hall. simpl. by rewrite above_from_paren.
Qed.

Lemma filter_lt_Forall (p : N) (l : list char) :
  Forall (fun o => (prec o < p)%N) (List.filter (fun o => (prec o <? p)%N) l).
Proof.
  induction l as [|o l IH]; simpl; [constructor|].
  destruct (N.ltb_spec (prec o) p); [by constructor | done].
Qed.

Lemma above_paren_app (l stack : list char) :
  Forall (fun o => o <> LPAREN) l ->
  above_paren (l ++ from_paren stack) = l.
Proof.
  induction 1 as [|o l Ho _ IH]; simpl.
  - destruct (from_paren_head stack) as [->|[below ->]]; done.
  - destruct (N.eqb_spec o LPAREN); [done|]. by rewrite IH.
Qed.

(** Dropping operators from above the topmost '(' keeps a stack ordered. *)
Lemma ordered_filter (keep : char -> bool) (stack : list char) :
  ordered stack ->
  ordered (List.filter keep (above_paren stack) ++ from_paren stack)
  /\ Forall (fun o => o ∈ above_paren stack) (List.filter keep (above_paren stack)).
Proof.
  induction stack as [|top below IH]; simpl; [by split|].
  intros [Htop Hbelow].
  destruct (N.eqb_spec top LPAREN) as [->|Hne]; simpl.
  { split; [|constructor]. split; [by left | done]. }
  destruct (IH Hbelow) as [IHo IHin].
  assert (Hin' : Forall (fun o => o ∈ top :: above_paren below)
                   (List.filter keep (above_paren below))).
  { eapply Forall_impl; [exact IHin|]. intros o Ho. by right. }
  destruct (keep top); simpl; [|done].
  split; [|constructor; [by left | done]].
  split; [|done]. destruct Htop as [?|[Hop Hlt]]; [done|]. right. split; [done|].
  rewrite above_paren_app.
  - rewrite Forall_forall in Hlt, IHin. apply Forall_forall. intros o Ho.
    apply Hlt, IHin, Ho.
  - eapply Forall_impl; [exact IHin|]. intros o Ho.
    pose proof (above_paren_no_paren below) as Hnp.
    rewrite Forall_forall in Hnp. by apply Hnp.
Qed.

Lemma ordered_tokens (stack : list char) :
  ordered stack -> Forall (fun c => c = LPAREN \/ is_Some (operators c)) stack.
Proof.
  induction stack as [|top below IH]; simpl; [constructor|].
  intros [Htop Hbelow]. constructor; [|by apply IH].
  destruct Htop as [?|[? _]]; auto.
Qed.

Lemma above_paren_operators (stack : list char) :
  ordered stack -> Forall (fun c => is_Some (operators c)) (above_paren stack).
Proof.
  induction stack as [|top below IH]; simpl; [constructor|].
  intros [Htop Hbelow]. destruct (N.eqb_spec top LPAREN); [constructor|].
  constructor; [|by apply IH]. by destruct Htop as [?|[? _]].
Qed.

Lemma Forall_list_filter {A : Type} (P : A -> Prop) (keep : A -> bool) (l : list A) :
  Forall P l -> Forall P (List.filter keep l).
Proof.
  induction 1 as [|x l Hx _ IH]; simpl; [constructor|].
  destruct (keep x); [by constructor | done].
Qed.

Lemma scan_ok (st : scanner) (c : char) : scanner_ok st -> scanner_ok (scan st c).
Proof.
  intros [Hout Hstack]. unfold scan.
  destruct (N.eqb_spec c SPACE); [by split|].
  unfold isVariable. destruct (isLetter c) eqn:Hletter.
  { split; simpl; [|done]. apply Forall_app. split; [done|].
    constructor; [by left | constructor]. }
  destruct (N.eqb_spec c LPAREN) as [->|].
  { split; simpl; [done|]. split; [by left | done]. }
  destruct (N.eqb_spec c RPAREN).
  { rewrite pop_to_paren_spec. split; simpl.
    - apply Forall_app. split; [done|].
      eapply Forall_impl; [by apply above_paren_operators|]. intros; by right.
    - pose proof (ordered_from_paren _ Hstack) as Hfrom.
      destruct (from_paren (operatorStack st)) as [|top below]; [done|].
      destruct (top =? LPAREN)%N; [|done]. by eapply ordered_tail. }
  destruct (operators c) as [info|] eqn:Hinfo; [|by split].
  rewrite pop_higher_spec by done. split; simpl.
  - apply Forall_app. split; [done|]. apply Forall_list_filter.
    eapply Forall_impl; [by apply above_paren_operators|]. intros; by right.
  - destruct (ordered_filter (fun o => (prec o <? precedence info)%N) _ Hstack)
      as [Hord _].
    split; [|done]. right. split; [by rewrite Hinfo|].
    rewrite above_paren_app.
    + replace (prec c) with (precedence info) by (unfold prec; by rewrite Hinfo).
      apply filter_lt_Forall.
    + apply Forall_list_filter, above_paren_no_paren.
Qed.

Lemma fold_scan_ok (e : jsstring) (st : scanner) :
  scanner_ok st -> scanner_ok (fold_left scan e st).
Proof.
  revert st. induction e as [|c e IH]; intros st Hst; simpl; [done|].
  by apply IH, scan_ok.
Qed.

Lemma scan_all_ok (e : jsstring) : scanner_ok (scan_all e).
Proof. apply fold_scan_ok. split; simpl; [constructor | done]. Qed.

Lemma operator_not_special (c : char) (info : opinfo) :
  operators c = Some info ->
  (c =? SPACE)%N = false /\ isLetter c = false /\ (c =? LPAREN)%N = false
  /\ (c =? RPAREN)%N = false.
Proof.
  unfold operators, TILDE, WEDGE, VEE, ARROW, IFF.
  intros H. repeat case_match; try done;
    match goal with Hc : (c =? _)%N = true |- _ => apply N.eqb_eq in Hc; subst c end;
    done.
Qed.

(** The operator branch of the scanner, on a stack the scanner built. *)
Lemma scan_operator (st : scanner) (c : char) (info : opinfo) :
  ordered (operatorStack st) ->
  operators c = Some info ->
  scan st c =
  {| output := output st ++
       List.filter (fun o => (precedence info <=? prec o)%N)
                   (above_paren (operatorStack st));
     operatorStack := c ::
       List.filter (fun o => (prec o <? precedence info)%N)
                   (above_paren (operatorStack st))
       ++ from_paren (operatorStack st) |}.
Proof.
  intros Hord Hinfo.
  destruct (operator_not_special c info Hinfo) as (Hs & Hl & Hlp & Hrp).
  unfold scan, isVariable. rewrite Hs, Hl, Hlp, Hrp, Hinfo.
  by rewrite pop_higher_spec.
Qed.

Lemma scan_symbol_on_empty (o : connective) (out : list char) :
  scan {| output := out; operatorStack := [] |} (symbol o) =
  {| output := out; operatorStack := [symbol o] |}.
Proof. destruct o; unfold scan; simpl; by rewrite app_nil_r. Qed.

Lemma scan_symbol_on_symbol (o1 o2 : connective) (out : list char) :
  (prec (symbol o2) <= prec (symbol o1))%N ->
  scan {| output := out; operatorStack := [symbol o1] |} (symbol o2) =
  {| output := out ++ [symbol o1]; operatorStack := [symbol o2] |}.
Proof. destruct o1, o2; intros Hle; try done; by vm_compute in Hle. Qed.

(** ** Claims about [infixToPostfix] *)

(** C5.  When an operator token is scanned, every operator above the
    topmost '(' of the stack whose precedence is at least the incoming
    one's is popped to the output, in pop order, and the incoming
    operator is then pushed on what is left.  The precedences are
    ~ 4, ∧ 3, ∨ 2, → 1, ↔ 1.  Hence two binary operators of which the
    second does not bind tighter associate to the left, → and ↔ among
    them: the postfix of [p→q↔r] is [p q → r ↔]. *)
Theorem operators_pop_left_associative :
  (forall (pre : jsstring) (c : char) (info : opinfo),
      operators c = Some info ->
      scan_all (pre ++ [c]) =
      {| output := output (scan_all pre) ++
           List.filter (fun o => (precedence info <=? prec o)%N)
                       (above_paren (operatorStack (scan_all pre)));
         operatorStack := c ::
           List.filter (fun o => (prec o <? precedence info)%N)
                       (above_paren (operatorStack (scan_all pre)))
           ++ from_paren (operatorStack (scan_all pre)) |})
  /\ (prec TILDE = 4 /\ prec WEDGE = 3 /\ prec VEE = 2
      /\ prec ARROW = 1 /\ prec IFF = 1)%N
  /\ (forall (x y z : char) (o1 o2 : connective),
      isLetter x = true -> isLetter y = true -> isLetter z = true ->
      (prec (symbol o2) <= prec (symbol o1))%N ->
      infixToPostfix [x; symbol o1; y; symbol o2; z] =
      [x; y; symbol o1; z; symbol o2])
  /\ infixToPostfix [p_; ARROW; q_; IFF; r_] = [p_; q_; ARROW; r_; IFF].
Proof.
  split; [|split; [|split]].
  - intros pre c info Hinfo. rewrite scan_all_snoc.
    apply scan_operator; [|done]. apply scan_all_ok.
  - done.
  - intros x y z o1 o2 Hx Hy Hz Hle.
    unfold infixToPostfix, scan_all. simpl.
    rewrite (scan_variable _ x Hx). simpl.
    rewrite scan_symbol_on_empty, (scan_variable _ y Hy). simpl.
    rewrite scan_symbol_on_symbol by done.
    rewrite (scan_variable _ z Hz). simpl. done.
  - by vm_compute.
Qed.

Lemma operators_pop_left_associative_witness :
  scan_all ([p_; WEDGE; q_] ++ [VEE]) =
  {| output := [p_; q_; WEDGE]; operatorStack := [VEE] |}
  /\ infixToPostfix [p_; symbol Equiv; q_; symbol Impl; r_] =
     [p_; q_; symbol Equiv; r_; symbol Impl].
Proof.
  split.
  - exact (proj1 operators_pop_left_associative [p_; WEDGE; q_] VEE
             {| precedence := 2; unary := false; binary := true |} eq_refl).
  - apply (proj1 (proj2 (proj2 operators_pop_left_associative))
             p_ q_ r_ Equiv Impl); reflexivity || (vm_compute; discriminate).
Defined.

Lemma output_no_paren (e : jsstring) (c : char) :
  c = LPAREN \/ c = RPAREN \/ c = SPACE -> c ∉ output (scan_all e).
Proof.
  intros Hc Hin. destruct (scan_all_ok e) as [Hout _].
  rewrite Forall_forall in Hout. apply Hout in Hin.
  destruct Hc as [-> | [-> | ->]]; destruct Hin as [?|[? ?]]; done.
Qed.

Lemma stack_no_rparen (e : jsstring) (c : char) :
  c = RPAREN \/ c = SPACE -> c ∉ operatorStack (scan_all e).
Proof.
  intros Hc Hin. destruct (scan_all_ok e) as [_ Hstack].
  apply ordered_tokens in Hstack.
  rewrite Forall_forall in Hstack. apply Hstack in Hin.
  destruct Hc as [-> | ->]; destruct Hin as [?|[? ?]]; done.
Qed.

(** C8, as stated, fails: the final loop pushes whatever it pops, so a
    '(' that was never closed ends up in the postfix sequence. *)
Lemma stray_paren_in_postfix :
  infixToPostfix [LPAREN; p_] = [p_; LPAREN]
  /\ ~ (forall e : jsstring, LPAREN ∉ infixToPostfix e).
Proof.
  split; [by vm_compute|].
  intros H. apply (H [LPAREN; p_]). vm_compute.
  apply list_elem_of_In. simpl. auto.
Qed.

(** C8, amended.  At end of input every token left on the operator
    stack is popped to the output, from the top down, stray '(' tokens
    included: the returned sequence is the output so far followed by the
    stack.  It therefore contains a '(' exactly when one was left on the
    stack; it never contains a ')' or a space.  ([evaluatePostfix] then
    passes over a '(' token without touching its stack.) *)
Theorem flush_pops_whole_stack :
  (forall e : jsstring,
      infixToPostfix e = output (scan_all e) ++ operatorStack (scan_all e))
  /\ (forall e : jsstring,
      (LPAREN ∈ infixToPostfix e) <-> (LPAREN ∈ operatorStack (scan_all e)))
  /\ (forall e : jsstring,
      (RPAREN ∉ infixToPostfix e) /\ (SPACE ∉ infixToPostfix e))
  /\ (forall (vv : gmap char jsval) (stack : list jsval),
      step vv stack LPAREN = Ok stack).
Proof.
  assert (Hflush : forall e, infixToPostfix e =
                             output (scan_all e) ++ operatorStack (scan_all e)).
  { intros e. unfold infixToPostfix. apply flush_app. }
  split; [done|]. split; [|split].
  - intros e. rewrite Hflush, elem_of_app. split; [|by right].
    intros [Hin|Hin]; [|done]. exfalso. revert Hin. apply output_no_paren. auto.
  - intros e. rewrite Hflush, !elem_of_app.
    split; intros [Hin|Hin]; revert Hin;
      (apply output_no_paren || apply stack_no_rparen); auto.
  - done.
Qed.

(** C9, as stated, fails: a ')' met while no '(' is on the stack is not
    ignored.  It empties the operator stack into the output, so
    ["p∧)q"] does not convert like ["p∧q"]. *)
Lemma unmatched_rparen_not_ignored :
  (LPAREN ∉ operatorStack (scan_all [p_; WEDGE]))
  /\ scan (scan_all [p_; WEDGE]) RPAREN <> scan_all [p_; WEDGE]
  /\ infixToPostfix [p_; WEDGE; RPAREN; q_] = [p_; WEDGE; q_]
  /\ infixToPostfix [p_; WEDGE; q_] = [p_; q_; WEDGE].
Proof.
  repeat split; try by vm_compute.
  vm_compute. intros Hin. apply list_elem_of_In in Hin. simpl in Hin.
  destruct Hin as [?|[]]. done.
Qed.

(** C9, amended.  [infixToPostfix] returns a token sequence for every
    input string and raises nothing; every token is a letter, an
    operator or '('.  A ')' met while no '(' is on the operator stack
    raises no error and contributes no token of its own, but it pops
    the whole operator stack to the output (it changes nothing only
    when the stack is empty).  A space, and any character that is not a
    letter, an operator or a parenthesis, leaves output and stack as
    they were. *)
Theorem infixToPostfix_total_and_permissive :
  (forall e : jsstring, Forall is_token (infixToPostfix e))
  /\ (forall st : scanner,
      LPAREN ∉ operatorStack st ->
      scan st RPAREN =
      {| output := output st ++ operatorStack st; operatorStack := [] |})
  /\ (forall out : list char,
      scan {| output := out; operatorStack := [] |} RPAREN =
      {| output := out; operatorStack := [] |})
  /\ (forall (st : scanner) (c : char),
      isLetter c = false -> operators c = None ->
      c <> LPAREN -> c <> RPAREN ->
      scan st c = st)
  /\ (forall st : scanner, scan st SPACE = st).
Proof.
  split; [|split; [|split; [|split]]].
  - intros e. unfold infixToPostfix. rewrite flush_app.
    destruct (scan_all_ok e) as [Hout Hstack]. apply ordered_tokens in Hstack.
    apply Forall_app. split.
    + eapply Forall_impl; [exact Hout|]. unfold is_token. tauto.
    + eapply Forall_impl; [exact Hstack|]. unfold is_token. tauto.
  - intros st Hno. unfold scan. simpl.
    rewrite pop_to_paren_spec. destruct (from_paren_nil _ Hno) as [-> ->]. done.
  - intros out. unfold scan. simpl. by rewrite app_nil_r.
  - intros st c Hl Hop Hlp Hrp. unfold scan, isVariable.
    rewrite Hl, Hop.
    destruct (N.eqb_spec c SPACE); [done|].
    destruct (N.eqb_spec c LPAREN); [done|].
    destruct (N.eqb_spec c RPAREN); done.
  - done.
Qed.

Lemma infixToPostfix_total_and_permissive_witness :
  scan (scan_all [p_; WEDGE]) RPAREN =
  {| output := [p_; WEDGE]; operatorStack := [] |}
  /\ scan (scan_all [p_; WEDGE]) 49%N = scan_all [p_; WEDGE].
Proof.
  split.
  - refine (proj1 (proj2 infixToPostfix_total_and_permissive)
              (scan_all [p_; WEDGE]) _).
    vm_compute. intros Hin. apply list_elem_of_In in Hin. simpl in Hin.
    destruct Hin as [H|[]]. discriminate H.
  - refine (proj1 (proj2 (proj2 (proj2 infixToPostfix_total_and_permissive)))
              (scan_all [p_; WEDGE]) 49%N _ _ _ _);
      first [reflexivity | discriminate].
Defined.

(** ** Variables of an expression *)

Lemma surrogate_not_letter (c : char) :
  isHighSurrogate c || isLowSurrogate c = true -> isLetter c = false.
Proof.
  unfold isHighSurrogate, isLowSurrogate. intros H.
  destruct (isLetter c) eqn:Hl; [|done]. apply letter_range in Hl.
  rewrite orb_true_iff, !andb_true_iff, !N.leb_le in H. lia.
Qed.

(** Reading by code points or by code units collects the same letters. *)
Lemma collect_units_spec (s : jsstring) :
  (forall acc, fold_left TruthTableGenerator.collect (stringIterator s) acc
               = fold_left collect_unit s acc)
  /\ (forall c acc,
         fold_left TruthTableGenerator.collect (stringIterator (c :: s)) acc
         = fold_left collect_unit (c :: s) acc).
Proof.
  assert (Hone : forall c acc, TruthTableGenerator.collect acc [c] = collect_unit acc c).
  { intros c acc. unfold TruthTableGenerator.collect, collect_unit. simpl.
    by destruct (isLetter c). }
  induction s as [|d tl [IH1 IH2]].
  - split; [done|]. intros c acc. simpl. by rewrite Hone.
  - split; [apply IH2|]. intros c acc.
    change (stringIterator (c :: d :: tl)) with
      (if isHighSurrogate c && isLowSurrogate d
       then [c; d] :: stringIterator tl
       else [c] :: stringIterator (d :: tl)).
    destruct (isHighSurrogate c && isLowSurrogate d) eqn:Hpair.
    + apply andb_true_iff in Hpair as [Hc Hd].
      cbn [fold_left]. rewrite IH1. unfold collect_unit at 3 4.
      rewrite (surrogate_not_letter c), (surrogate_not_letter d);
        [done | by rewrite Hd, orb_true_r | by rewrite Hc].
    + cbn [fold_left]. rewrite Hone. apply IH2.
Qed.

Lemma core_collect_eq (acc : list char) (item : jsstring) :
  LogicCore.collect acc item = TruthTableGenerator.collect acc item.
Proof.
  unfold LogicCore.collect, LogicCore.isVariable, TruthTableGenerator.collect.
  destruct item as [|c [|d tl]]; simpl; try done.
  destruct (isLetter c) eqn:Hl; [|done].
  destruct (letter_not_special c Hl) as (_ & _ & _ & Hop).
  rewrite bool_decide_eq_false_2; [done|].
  intros Hin. unfold LogicCore.operators in Hin.
  revert Hop. unfold operators.
  repeat (apply elem_of_cons in Hin as [->|Hin]; [done|]).
  by apply elem_of_nil in Hin.
Qed.

Lemma set_add_elem (c x : char) (set : list char) :
  x ∈ set_add c set <-> x ∈ set \/ x = c.
Proof.
  unfold set_add. case_bool_decide as Hin.
  - split; [by left|]. intros [?| ->]; done.
  - rewrite elem_of_app, list_elem_of_singleton. done.
Qed.

Lemma set_add_NoDup (c : char) (set : list char) :
  NoDup set -> NoDup (set_add c set).
Proof.
  intros Hnd. unfold set_add. case_bool_decide as Hin; [done|].
  apply NoDup_app. split; [done|]. split; [|apply NoDup_singleton].
  intros x Hx Hx'. apply list_elem_of_singleton in Hx' as ->. done.
Qed.

Lemma collect_units_elem (s : jsstring) (acc : list char) (x : char) :
  x ∈ fold_left collect_unit s acc <-> x ∈ acc \/ (isLetter x = true /\ x ∈ s).
Proof.
  revert acc. induction s as [|c s IH]; intros acc; simpl.
  - split; [by left|]. intros [?|[_ H]]; [done|]. by apply elem_of_nil in H.
  - rewrite IH. unfold collect_unit at 1. rewrite elem_of_cons.
    destruct (isLetter c) eqn:Hl.
    + rewrite set_add_elem. split.
      * intros [[?| ->]|[? ?]]; auto.
      * intros [?|[? [->|?]]]; auto.
    + split.
      * intros [?|[? ?]]; auto.
      * intros [?|[Hx [->|?]]]; auto. congruence.
Qed.

Lemma collect_units_NoDup (s : jsstring) (acc : list char) :
  NoDup acc -> NoDup (fold_left collect_unit s acc).
Proof.
  revert acc. induction s as [|c s IH]; intros acc Hnd; simpl; [done|].
  apply IH. unfold collect_unit. destruct (isLetter c); [|done].
  by apply set_add_NoDup.
Qed.

Lemma sort_insert_perm (c : char) (l : list char) : sort_insert c l ≡ₚ c :: l.
Proof.
  induction l as [|d l IH]; simpl; [done|].
  destruct (c <=? d)%N; [done|]. rewrite IH. apply Permutation_swap.
Qed.

Lemma sort_perm (l : list char) : sort l ≡ₚ l.
Proof.
  induction l as [|c l IH]; simpl; [done|].
  rewrite sort_insert_perm. by rewrite IH.
Qed.

Lemma sort_insert_sorted (c : char) (l : list char) :
  StronglySorted N.le l -> StronglySorted N.le (sort_insert c l).
Proof.
  induction 1 as [|d l Hs IH Hd]; simpl.
  - constructor; constructor.
  - destruct (N.leb_spec c d) as [Hle|Hgt].
    + constructor; [by constructor|]. constructor; [done|].
      eapply Forall_impl; [exact Hd|]. simpl. intros; lia.
    + constructor; [done|].
      rewrite sort_insert_perm. constructor; [lia | done].
Qed.

Lemma sort_sorted (l : list char) : StronglySorted N.le (sort l).
Proof.
  induction l as [|c l IH]; simpl; [constructor|]. by apply sort_insert_sorted.
Qed.

Lemma sorted_NoDup_strict (l : list char) :
  StronglySorted N.le l -> NoDup l -> StronglySorted N.lt l.
Proof.
  induction 1 as [|d l Hs IH Hd]; intros Hnd; [constructor|].
  apply NoDup_cons in Hnd as [Hnin Hnd]. constructor; [by apply IH|].
  rewrite Forall_forall in Hd. apply Forall_forall. intros x Hx.
  specialize (Hd x Hx). assert (x <> d) by (intros ->; done). lia.
Qed.

(** A strictly ascending list is determined by its elements. *)
Lemma sort_unique (l1 l2 : list char) :
  StronglySorted N.lt l1 -> StronglySorted N.lt l2 ->
  (forall x, x ∈ l1 <-> x ∈ l2) -> l1 = l2.
Proof.
  intros H1. revert l2. induction H1 as [|a l1 Hs1 IH Ha]; intros l2 H2 Heq.
  - destruct l2 as [|b l2]; [done|].
    exfalso. eapply elem_of_nil, Heq. by left.
  - destruct H2 as [|b l2 Hs2 Hb].
    { exfalso. eapply elem_of_nil, Heq. by left. }
    rewrite Forall_forall in Ha, Hb.
    assert (a = b) as ->.
    { assert (Hain : a ∈ b :: l2) by (apply Heq; by left).
      assert (Hbin : b ∈ a :: l1) by (apply Heq; by left).
      apply elem_of_cons in Hain as [?|Hain]; [done|].
      apply elem_of_cons in Hbin as [?|Hbin]; [done|].
      specialize (Ha _ Hbin). specialize (Hb _ Hain). lia. }
    f_equal. apply IH; [done|]. intros x. split; intros Hx.
    + assert (Hx' : x ∈ b :: l2) by (apply Heq; by right).
      apply elem_of_cons in Hx' as [->|?]; [|done]. specialize (Ha _ Hx). lia.
    + assert (Hx' : x ∈ b :: l1) by (apply Heq; by right).
      apply elem_of_cons in Hx' as [->|?]; [|done]. specialize (Hb _ Hx). lia.
Qed.

Lemma getVariables_units (e : jsstring) :
  getVariables e = sort (fold_left collect_unit e []).
Proof. unfold getVariables. by rewrite (proj1 (collect_units_spec e)). Qed.

Lemma getVariables_elem (e : jsstring) (c : char) :
  c ∈ getVariables e <-> isLetter c = true /\ c ∈ e.
Proof.
  rewrite getVariables_units, sort_perm, collect_units_elem.
  split; [|by right]. intros [H|H]; [|done]. by apply elem_of_nil in H.
Qed.

Lemma getVariables_sorted (e : jsstring) : StronglySorted N.lt (getVariables e).
Proof.
  rewrite getVariables_units. apply sorted_NoDup_strict; [apply sort_sorted|].
  rewrite sort_perm. apply collect_units_NoDup, NoDup_nil_2.
Qed.

(** C4.  [getVariables] returns exactly the letters that occur in the
    expression, without duplicates and in strictly ascending order of
    character code; [LogicCore.getVariablesFromExpression] returns the
    same array.  The result is a function of the expression alone, and
    extracting again from the result gives the result back; for
    ["(p→q)"] it is [["p", "q"]]. *)
Theorem getVariables_sorted_distinct :
  forall e : jsstring,
    (forall c, c ∈ getVariables e <-> isLetter c = true /\ c ∈ e)
    /\ NoDup (getVariables e)
    /\ StronglySorted N.lt (getVariables e)
    /\ LogicCore.getVariablesFromExpression e = getVariables e
    /\ getVariables (getVariables e) = getVariables e
    /\ getVariables [LPAREN; p_; ARROW; q_; RPAREN] = [p_; q_].
Proof.
  intros e. split; [apply getVariables_elem|]. split; [|split; [|split; [|split]]].
  - rewrite getVariables_units, sort_perm. apply collect_units_NoDup, NoDup_nil_2.
  - apply getVariables_sorted.
  - unfold LogicCore.getVariablesFromExpression, getVariables. f_equal.
    generalize (@nil char). induction (stringIterator e) as [|item l IH];
      intros acc; simpl; [done|]. by rewrite core_collect_eq, IH.
  - apply sort_unique; try apply getVariables_sorted.
    intros x. rewrite !getVariables_elem. tauto.
  - by vm_compute.
Qed.

(** ** Combinations *)

Lemma ToInt32_testbit (x j : Z) :
  0 <= j < 32 -> Z.testbit (ToInt32 x) j = Z.testbit x j.
Proof.
  intros Hj. unfold ToInt32.
  rewrite <- (Z.mod_pow2_bits_low _ 32 j) by lia.
  rewrite <- (Z.mod_pow2_bits_low x 32 j) by lia.
  f_equal. rewrite Zminus_mod_idemp_l. f_equal. lia.
Qed.

Lemma land_one (y : Z) : Z.land y 1 = Z.b2z (Z.testbit y 0).
Proof.
  change 1 with (Z.ones 1) at 1. rewrite Z.land_ones by lia.
  rewrite Z.bit0_mod. done.
Qed.

(** Below bit 32 the shift and mask read the bit of [i] itself. *)
Lemma bit_testbit (i j : Z) : 0 <= j < 32 -> bit i j = Z.testbit i j.
Proof.
  intros Hj. unfold bit, js_band, js_sar.
  rewrite Z.mod_small by lia.
  change (ToInt32 1) with 1. rewrite land_one, ToInt32_testbit by lia.
  rewrite Z.shiftr_spec, Z.add_0_l, ToInt32_testbit by lia.
  by destruct (Z.testbit i j).
Qed.

Lemma combination_length (i : Z) (n : nat) : length (combination i n) = n.
Proof. induction n as [|n IH]; simpl; [done|]. by rewrite IH. Qed.

Lemma combination_lookup (i : Z) (n k : nat) :
  (k < n)%nat ->
  combination i n !! k = Some (bit i (Z.of_nat (n - 1 - k))).
Proof.
  revert k. induction n as [|n IH]; intros k Hk; [lia|].
  destruct k as [|k]; simpl.
  - do 3 f_equal. lia.
  - rewrite IH by lia. do 3 f_equal. lia.
Qed.

Lemma be_value_acc (tuple : list bool) (acc : Z) :
  fold_left (fun acc (b : bool) => 2 * acc + Z.b2z b) tuple acc =
  acc * 2 ^ Z.of_nat (length tuple) + be_value tuple.
Proof.
  unfold be_value. revert acc.
  induction tuple as [|b tuple IH]; intros acc; simpl fold_left.
  - simpl. lia.
  - rewrite IH, (IH (2 * 0 + Z.b2z b)).
    rewrite length_cons, Nat2Z.inj_succ, Z.pow_succ_r by lia. lia.
Qed.

Lemma be_value_cons (b : bool) (tuple : list bool) :
  be_value (b :: tuple) = Z.b2z b * 2 ^ Z.of_nat (length tuple) + be_value tuple.
Proof. unfold be_value at 1. simpl fold_left. rewrite be_value_acc. lia. Qed.

Lemma be_value_combination (i : Z) (n : nat) :
  (n <= 32)%nat -> be_value (combination i n) = i mod 2 ^ Z.of_nat n.
Proof.
  induction n as [|n IH]; intros Hn.
  - simpl. by rewrite Z.mod_1_r.
  - cbn [combination]. rewrite be_value_cons, combination_length, IH by lia.
    rewrite bit_testbit by lia. rewrite Z.testbit_spec' by lia.
    rewrite Nat2Z.inj_succ, Z.pow_succ_r by lia.
    rewrite (Z.mul_comm 2), Z.rem_mul_r by lia. lia.
Qed.

Lemma tuples_length (n : nat) : length (tuples n) = (2 ^ n)%nat.
Proof. unfold tuples. by rewrite length_fmap, length_seq. Qed.

Lemma tuples_lookup (n i : nat) :
  (i < 2 ^ n)%nat ->
  tuples n !! i = Some (combination (Z.of_nat i) n).
Proof.
  intros Hi. unfold tuples.
  rewrite list_lookup_fmap, lookup_seq_lt by done. done.
Qed.

Lemma tuples_value (n i : nat) (t : list bool) :
  (n <= 32)%nat -> tuples n !! i = Some t ->
  be_value t = Z.of_nat i /\ (i < 2 ^ n)%nat.
Proof.
  intros Hn Ht.
  assert (Hi : (i < 2 ^ n)%nat).
  { apply lookup_lt_Some in Ht. by rewrite tuples_length in Ht. }
  rewrite tuples_lookup in Ht by done. simplify_eq.
  split; [|done]. rewrite be_value_combination by done.
  apply Z.mod_small. pose proof (Nat2Z.inj_pow 2 n) as Hpow.
  change (Z.of_nat 2) with 2 in Hpow. lia.
Qed.

(** *** The loops and the largest array length *)

(** The inner loop appends the tuple of [i] as long as the array can
    hold it. *)
Lemma fill_combination_ok (i : Z) (count : nat) (acc : list bool) :
  (N.of_nat (length acc + count) <= MAX_ARRAY_LENGTH)%N ->
  fill_combination i count acc = Ok (acc ++ combination i count).
Proof.
  unfold MAX_ARRAY_LENGTH. revert acc.
  induction count as [|j IH]; intros acc Hlen; simpl.
  - by rewrite app_nil_r.
  - unfold push, MAX_ARRAY_LENGTH.
    destruct (N.ltb_spec (N.of_nat (length acc)) 4294967295); [|lia]. simpl.
    rewrite IH by (rewrite length_app; simpl; lia).
    by rewrite <- app_assoc.
Qed.

(** The only error of the loops is the RangeError of [push]. *)
Lemma fill_combination_error (i : Z) (count : nat) (acc : list bool) (e : error) :
  fill_combination i count acc = Throw e -> e = InvalidArrayLength.
Proof.
  revert acc. induction count as [|j IH]; intros acc; simpl; [done|].
  unfold push. case_match; simpl; [apply IH | congruence].
Qed.

Lemma fill_combinations_ok (n : nat) (indices : list nat) (acc : list (list bool)) :
  (N.of_nat n <= MAX_ARRAY_LENGTH)%N ->
  (N.of_nat (length acc + length indices) <= MAX_ARRAY_LENGTH)%N ->
  fill_combinations n indices acc =
  Ok (acc ++ ((fun i => combination (Z.of_nat i) n) <$> indices)).
Proof.
  intros Hn. revert acc.
  induction indices as [|i rest IH]; intros acc Hlen; simpl.
  - by rewrite app_nil_r.
  - cbn [length] in Hlen. rewrite fill_combination_ok by done. simpl.
    unfold push. unfold MAX_ARRAY_LENGTH in *.
    destruct (N.ltb_spec (N.of_nat (length acc)) 4294967295); [|lia]. simpl.
    rewrite IH by (rewrite length_app; simpl; lia).
    by rewrite <- app_assoc.
Qed.

(** When the indices still to come do not fit into the array, the loop
    ends in the RangeError, whatever [variableCount] is. *)
Lemma fill_combinations_overflow (n : nat) (indices : list nat)
    (acc : list (list bool)) :
  (N.of_nat (length acc) <= MAX_ARRAY_LENGTH)%N ->
  (MAX_ARRAY_LENGTH < N.of_nat (length acc + length indices))%N ->
  fill_combinations n indices acc = Throw InvalidArrayLength.
Proof.
  revert acc. induction indices as [|i rest IH]; intros acc Hacc Hlen; simpl;
    cbn [length] in Hlen.
  - lia.
  - destruct (fill_combination (Z.of_nat i) n []) as [c|e] eqn:Hc; simpl.
    + unfold push. unfold MAX_ARRAY_LENGTH in *.
      destruct (N.ltb_spec (N.of_nat (length acc)) 4294967295); [|done]. simpl.
      apply IH; rewrite length_app; cbn [length]; lia.
    + by rewrite (fill_combination_error _ _ _ _ Hc).
Qed.

Lemma pow2_of_nat (n : nat) : N.of_nat (2 ^ n) = (2 ^ N.of_nat n)%N.
Proof.
  induction n as [|n IH].
  - done.
  - rewrite Nat.pow_succ_r', Nat2N.inj_mul, IH, (Nat2N.inj_succ n), N.pow_succ_r'.
    done.
Qed.

(** [generateCombinations] returns the tuples of the indices
    [0 .. 2^n - 1] when they fit into an array, that is for [n] up to
    31; from 32 on it ends in the RangeError of [push]. *)
Lemma generateCombinations_spec (n : nat) :
  generateCombinations n =
  if (n <? 32)%nat then Ok (tuples n) else Throw InvalidArrayLength.
Proof.
  unfold generateCombinations.
  destruct (Nat.ltb_spec n 32) as [Hlt|Hge].
  - assert (Hpow : (N.of_nat (2 ^ n) <= 2147483648)%N).
    { rewrite pow2_of_nat. change 2147483648%N with (2 ^ 31)%N.
      apply N.pow_le_mono_r; lia. }
    rewrite fill_combinations_ok; [done | unfold MAX_ARRAY_LENGTH; lia |].
    rewrite length_seq. unfold MAX_ARRAY_LENGTH. simpl length. lia.
  - assert (Hpow : (4294967296 <= N.of_nat (2 ^ n))%N).
    { rewrite pow2_of_nat. change 4294967296%N with (2 ^ 32)%N.
      apply N.pow_le_mono_r; lia. }
    apply fill_combinations_overflow; [done|].
    rewrite length_seq. unfold MAX_ARRAY_LENGTH. simpl length. lia.
Qed.

Lemma generateCombinations_Ok (n : nat) (combinations : list (list bool)) :
  generateCombinations n = Ok combinations <->
  (n <= 31)%nat /\ combinations = tuples n.
Proof.
  rewrite generateCombinations_spec.
  destruct (Nat.ltb_spec n 32) as [Hlt|Hge]; split.
  - intros H. simplify_eq. split; [lia | done].
  - by intros [_ ->].
  - done.
  - intros [? _]. lia.
Qed.

(** C3, as stated, fails from 32 variables on: an array holds at most
    2^32 - 1 elements, so the [push] of the last of the 2^32 tuples
    throws a RangeError, and the call returns no tuples at all. *)
Lemma generateCombinations_32_throws :
  generateCombinations 32 = Throw InvalidArrayLength
  /\ ~ (exists combinations : list (list bool),
          generateCombinations 32 = Ok combinations)
  /\ (MAX_ARRAY_LENGTH < 2 ^ 32)%N.
Proof.
  assert (H : generateCombinations 32 = Throw InvalidArrayLength)
    by apply (generateCombinations_spec 32).
  split; [done|]. split; [|done].
  intros [combinations Hc]. rewrite H in Hc. discriminate Hc.
Qed.

(** ** Tables *)

Lemma trimStart_nil (s : jsstring) :
  trimStart s = [] <-> Forall (fun c => isWhiteSpace c = true) s.
Proof.
  induction s as [|c s IH]; simpl; [by split; [constructor|]|].
  destruct (isWhiteSpace c) eqn:Hc.
  - rewrite IH. split; [by constructor|]. by inversion 1.
  - split; [done|]. inversion 1; congruence.
Qed.

Lemma trimStart_head (s : jsstring) :
  trimStart s = [] \/ exists c rest, trimStart s = c :: rest /\ isWhiteSpace c = false.
Proof.
  induction s as [|c s IH]; simpl; [by left|].
  destruct (isWhiteSpace c) eqn:Hc; [done|]. right. eauto.
Qed.

Lemma trim_nil (s : jsstring) :
  trim s = [] <-> Forall (fun c => isWhiteSpace c = true) s.
Proof.
  rewrite <- trimStart_nil. unfold trim, trimEnd. split.
  - intros H. apply (f_equal (@rev char)) in H. rewrite rev_involutive in H.
    simpl in H. apply trimStart_nil in H.
    destruct (trimStart_head s) as [?|(c & rest & Hs & Hc)]; [done|].
    rewrite Hs in H. apply Forall_rev in H. rewrite rev_involutive in H.
    inversion H; congruence.
  - by intros ->.
Qed.

Lemma getVariables_nil (e : jsstring) :
  getVariables e = [] <-> (forall c, c ∈ e -> isLetter c = false).
Proof.
  split.
  - intros H c Hin. destruct (isLetter c) eqn:Hl; [|done].
    assert (Hc : c ∈ getVariables e) by by apply getVariables_elem.
    rewrite H in Hc. by apply elem_of_nil in Hc.
  - intros H. destruct (getVariables e) as [|c l] eqn:Hv; [done|].
    assert (Hc : c ∈ getVariables e) by (rewrite Hv; by left).
    apply getVariables_elem in Hc as [Hl Hin]. rewrite (H c Hin) in Hl. done.
Qed.

(** The four outcomes of [generateTable]. *)
Lemma generateTable_cases (g : generator) (e : jsstring) :
  (trim e = [] /\ generateTable g e = (Throw EmptyExpression, g))
  \/ (trim e <> [] /\ getVariables e = []
      /\ generateTable g e = (Throw NoVariablesFound, g))
  \/ (trim e <> [] /\ getVariables e <> []
      /\ (32 <= length (getVariables e))%nat
      /\ generateTable g e = (Throw InvalidArrayLength, g))
  \/ (trim e <> [] /\ getVariables e <> []
      /\ (length (getVariables e) <= 31)%nat
      /\ generateCombinations (length (getVariables e))
         = Ok (tuples (length (getVariables e)))
      /\ exists t,
          t = {| expression := e;
                 tvariables := getVariables e;
                 rows := imap (make_row e (getVariables e))
                              (tuples (length (getVariables e))) |}
          /\ generateTable g e =
             (Ok t, {| currentTable := Some t; userAnswers := userAnswers g |})).
Proof.
  unfold generateTable.
  destruct (decide (trim e = [])) as [Ht|Ht].
  { left. split; [done|]. rewrite (bool_decide_eq_true_2 (trim e = [])) by done.
    by rewrite orb_true_r. }
  right. rewrite (bool_decide_eq_false_2 (trim e = [])) by done.
  rewrite bool_decide_eq_false_2 by (intros ->; done). simpl.
  destruct (getVariables e) as [|c l] eqn:Hv; [left; done|].
  right. rewrite <- Hv. rewrite generateCombinations_spec.
  assert (Hne : getVariables e <> []) by (by rewrite Hv).
  replace (length (getVariables e) =? 0)%nat with false
    by (rewrite Hv; done).
  destruct (Nat.ltb_spec (length (getVariables e)) 32) as [Hlt|Hge].
  - right. repeat split; try done; [lia|]. eauto.
  - left. done.
Qed.

(** C3, amended.  For every [n] from 0 to 31, [generateCombinations(n)]
    returns exactly [2^n] tuples; tuple [i] has length [n], its position
    [k] is bit [n-1-k] of [i] (position 0 is the most significant bit),
    and read as a big-endian binary number it is [i]; so the tuples are
    all distinct and strictly increasing.  From 32 on the call ends in
    a RangeError and returns nothing.  For every expression that
    [generateTable] accepts, with [n] distinct variables, [n] is at most
    31, the table has exactly [2^n] rows, row [k] has index [k], and the
    tuples of the rows are those of [generateCombinations(n)] in the
    same order. *)
Theorem generateCombinations_binary_order :
  (forall n : nat,
      (n <= 31)%nat ->
      exists combinations : list (list bool),
        generateCombinations n = Ok combinations
        /\ length combinations = (2 ^ n)%nat
        /\ (forall i : nat,
            (i < 2 ^ n)%nat ->
            exists t,
              combinations !! i = Some t
              /\ length t = n
              /\ (forall k : nat,
                  (k < n)%nat ->
                  t !! k = Some (Z.testbit (Z.of_nat i) (Z.of_nat (n - 1 - k))))
              /\ be_value t = Z.of_nat i)
        /\ NoDup combinations
        /\ (forall (i j : nat) (ti tj : list bool),
            (i < j)%nat ->
            combinations !! i = Some ti ->
            combinations !! j = Some tj ->
            be_value ti < be_value tj))
  /\ (forall n : nat,
      (32 <= n)%nat -> generateCombinations n = Throw InvalidArrayLength)
  /\ (forall (g g' : generator) (e : jsstring) (t : table),
      generateTable g e = (Ok t, g') ->
      tvariables t = getVariables e
      /\ (length (tvariables t) <= 31)%nat
      /\ length (rows t) = (2 ^ length (tvariables t))%nat
      /\ generateCombinations (length (tvariables t)) = Ok (variables <$> rows t)
      /\ (forall (k : nat) (r : row), rows t !! k = Some r -> index r = k)).
Proof.
  split; [|split].
  - intros n Hn. exists (tuples n).
    assert (Hn' : (n <= 32)%nat) by lia.
    split; [by apply generateCombinations_Ok|].
    split; [apply tuples_length|].
    split; [|split].
    + intros i Hi. exists (combination (Z.of_nat i) n).
      split; [by apply tuples_lookup|].
      split; [apply combination_length|]. split.
      * intros k Hk. rewrite combination_lookup by done.
        rewrite bit_testbit by lia. done.
      * eapply tuples_value; [done|].
        by apply tuples_lookup.
    + apply NoDup_alt. intros i j t Hi Hj.
      apply (tuples_value n i t Hn') in Hi as [Hi _].
      apply (tuples_value n j t Hn') in Hj as [Hj _]. lia.
    + intros i j ti tj Hij Hi Hj.
      apply (tuples_value n i ti Hn') in Hi as [Hi _].
      apply (tuples_value n j tj Hn') in Hj as [Hj _]. lia.
  - intros n Hn. rewrite generateCombinations_spec.
    destruct (Nat.ltb_spec n 32); [lia | done].
  - intros g g' e t Hg.
    destruct (generateTable_cases g e)
      as [[_ H]|[(_ & _ & H)|[(_ & _ & _ & H)
                             |(_ & _ & Hle & Hc & t' & Ht' & H)]]];
      rewrite H in Hg; simplify_eq.
    simpl. split; [done|]. split; [done|]. split; [|split].
    + by rewrite length_imap, tuples_length.
    + rewrite Hc. f_equal.
      apply list_eq. intros k. rewrite list_lookup_fmap, list_lookup_imap.
      by destruct (tuples (length (getVariables e)) !! k).
    + intros k r Hr. rewrite list_lookup_imap in Hr.
      destruct (tuples (length (getVariables e)) !! k);
        simplify_eq/=. done.
Qed.

Lemma generateCombinations_binary_order_witness :
  (exists combinations : list (list bool),
      generateCombinations 2 = Ok combinations /\ length combinations = 4%nat)
  /\ generateCombinations 40 = Throw InvalidArrayLength
  /\ length (rows (match fst (generateTable g0 ex_and) with
                   | Ok t => t
                   | Throw _ => {| expression := []; tvariables := []; rows := [] |}
                   end)) = 4%nat.
Proof.
  split; [|split].
  - destruct (proj1 generateCombinations_binary_order 2%nat
                ltac:(repeat constructor)) as (combinations & Hc & Hlen & _).
    exists combinations. split; [exact Hc | exact Hlen].
  - apply (proj1 (proj2 generateCombinations_binary_order) 40%nat). lia.
  - refine (proj1 (proj2 (proj2 (proj2 (proj2 generateCombinations_binary_order)
       g0 (snd (generateTable g0 ex_and)) ex_and _ _)))).
    vm_compute. reflexivity.
Defined.

(** C6.  [generateTable] fails with EmptyExpression exactly when the
    trimmed expression is empty (the expression is made of white space
    only), and otherwise fails with NoVariablesFound exactly when no
    letter occurs in the expression.  A failing call returns no table and
    leaves the generator, its current table included, as it was; the
    only other failure is the RangeError of [generateCombinations], for
    32 or more distinct letters.  [generateTable("")] fails with
    EmptyExpression and [generateTable("1+1")] with NoVariablesFound. *)
Theorem generateTable_errors :
  forall (g : generator) (e : jsstring),
    (fst (generateTable g e) = Throw EmptyExpression <-> trim e = [])
    /\ (trim e = [] <-> Forall (fun c => isWhiteSpace c = true) e)
    /\ (trim e <> [] ->
        (fst (generateTable g e) = Throw NoVariablesFound
         <-> (forall c, c ∈ e -> isLetter c = false)))
    /\ (forall err : error,
        fst (generateTable g e) = Throw err ->
        snd (generateTable g e) = g
        /\ (err = EmptyExpression \/ err = NoVariablesFound
            \/ (err = InvalidArrayLength
                /\ (32 <= length (getVariables e))%nat)))
    /\ generateTable g [] = (Throw EmptyExpression, g)
    /\ generateTable g ex_one_plus_one = (Throw NoVariablesFound, g).
Proof.
  intros g e. rewrite <- getVariables_nil.
  split; [|split; [apply trim_nil|]]; [|split; [|split; [|split]]].
  - destruct (generateTable_cases g e)
      as [[Ht H]|[(Ht & _ & H)|[(Ht & _ & _ & H)|(Ht & _ & _ & _ & t & _ & H)]]];
      rewrite H; simpl; split; done.
  - intros Ht. destruct (generateTable_cases g e)
      as [[Ht' H]|[(_ & Hv & H)|[(_ & Hv & _ & H)|(_ & Hv & _ & _ & t & _ & H)]]];
      rewrite H; simpl; split; done.
  - intros err. destruct (generateTable_cases g e)
      as [[_ H]|[(_ & _ & H)|[(_ & _ & Hge & H)|(_ & _ & _ & _ & t & _ & H)]]];
      rewrite H; simpl; intros Herr; simplify_eq; auto.
  - done.
  - done.
Qed.

Lemma generateTable_errors_witness :
  fst (generateTable g0 ex_one_plus_one) = Throw NoVariablesFound
  /\ snd (generateTable g0 ex_and) <> g0.
Proof.
  split.
  - apply (proj1 (proj2 (proj2 (generateTable_errors g0 ex_one_plus_one)))).
    + vm_compute. discriminate.
    + intros c Hc. apply list_elem_of_In in Hc. simpl in Hc.
      destruct Hc as [<-|[<-|[<-|[]]]]; reflexivity.
  - vm_compute. discriminate.
Defined.

(** ** Checking answers *)

Lemma collect_rows_lookup (pg : page) (l : list nat) (acc : gmap nat bool) (i : nat) :
  fold_left (collect_row pg) l acc !! i =
  match (if bool_decide (i ∈ l) then pg i else None) with
  | Some value => Some (String.eqb value "true")
  | None => acc !! i
  end.
Proof.
  revert acc. induction l as [|x l IH]; intros acc; simpl; [done|].
  rewrite IH. destruct (decide (i ∈ l)) as [Hin|Hin].
  - rewrite (bool_decide_eq_true_2 (i ∈ l)) by done.
    rewrite (bool_decide_eq_true_2 (i ∈ x :: l)) by by right.
    destruct (pg i) eqn:Hpg; [done|].
    unfold collect_row. destruct (pg x) eqn:Hx; [|done].
    rewrite lookup_insert_ne; [done|]. congruence.
  - rewrite (bool_decide_eq_false_2 (i ∈ l)) by done.
    unfold collect_row. destruct (decide (x = i)) as [->|Hne].
    + rewrite (bool_decide_eq_true_2 (i ∈ i :: l)) by by left.
      destruct (pg i); [by rewrite lookup_insert_eq | done].
    + rewrite bool_decide_eq_false_2.
      * destruct (pg x); [by rewrite lookup_insert_ne | done].
      * intros Hin'. apply elem_of_cons in Hin' as [?|?]; done.
Qed.

Lemma collectUserAnswers_table (g : generator) (t : table) (pg : page) :
  currentTable g = Some t ->
  exists answers,
    collectUserAnswers g pg =
      (answers, {| currentTable := Some t; userAnswers := answers |})
    /\ forall i, answers !! i = submitted pg (length (rows t)) i.
Proof.
  intros Ht. unfold collectUserAnswers. rewrite Ht.
  eexists. split; [done|]. intros i.
  rewrite collect_rows_lookup, lookup_empty. unfold submitted.
  destruct (decide (i < length (rows t))%nat) as [Hi|Hi].
  - rewrite !bool_decide_eq_true_2; [|done|].
    + by destruct (pg i).
    + apply elem_of_seq. lia.
  - rewrite !bool_decide_eq_false_2; [done|done|].
    rewrite elem_of_seq. lia.
Qed.

Lemma check_row_entry (answers : gmap nat bool) (t : tally) (index : nat) (r : row) :
  check_row answers t index r =
  {| t_correct := if e_isCorrect (entry_of answers index r)
                  then S (t_correct t) else t_correct t;
     t_answered := if is_answered (entry_of answers index r)
                   then S (t_answered t) else t_answered t;
     t_results := t_results t ++ [entry_of answers index r] |}.
Proof.
  unfold check_row, entry_of, is_answered. simpl.
  by destruct (answers !! index).
Qed.

Lemma check_rows_spec (answers : gmap nat bool) (rs : list row) :
  forall (t : tally) (index : nat),
    check_rows answers t index rs =
    {| t_correct := t_correct t +
         length (List.filter e_isCorrect (entries_from answers index rs));
       t_answered := t_answered t +
         length (List.filter is_answered (entries_from answers index rs));
       t_results := t_results t ++ entries_from answers index rs |}.
Proof.
  induction rs as [|r rest IH]; intros t index.
  - destruct t. simpl. rewrite !Nat.add_0_r, app_nil_r. done.
  - cbn [check_rows entries_from]. rewrite IH, check_row_entry.
    cbn [t_correct t_answered t_results List.filter].
    rewrite <- app_assoc.
    destruct (e_isCorrect _), (is_answered _); simpl; f_equal; lia.
Qed.

Lemma entries_from_length (answers : gmap nat bool) (rs : list row) (index : nat) :
  length (entries_from answers index rs) = length rs.
Proof.
  revert index. induction rs as [|r rest IH]; intros index; simpl; [done|].
  by rewrite IH.
Qed.

Lemma entries_from_lookup (answers : gmap nat bool) (rs : list row)
    (index i : nat) (r : row) :
  rs !! i = Some r ->
  entries_from answers index rs !! i = Some (entry_of answers (index + i) r).
Proof.
  revert index i. induction rs as [|r' rest IH]; intros index i Hr; [done|].
  destruct i as [|i]; simpl in *.
  - simplify_eq. by rewrite Nat.add_0_r.
  - rewrite (IH (S index) i Hr). do 2 f_equal. lia.
Qed.

Lemma filter_length_le {A : Type} (keep : A -> bool) (l : list A) :
  (length (List.filter keep l) <= length l)%nat.
Proof.
  induction l as [|x l IH]; simpl; [done|]. destruct (keep x); simpl; lia.
Qed.

Lemma correct_le_answered (answers : gmap nat bool) (rs : list row) (index : nat) :
  (length (List.filter e_isCorrect (entries_from answers index rs))
   <= length (List.filter is_answered (entries_from answers index rs)))%nat.
Proof.
  revert index. induction rs as [|r rest IH]; intros index;
    cbn [entries_from List.filter]; [done|].
  specialize (IH (S index)).
  assert (H : e_isCorrect (entry_of answers index r) = true ->
              is_answered (entry_of answers index r) = true).
  { unfold entry_of, is_answered. simpl. by destruct (answers !! index). }
  destruct (e_isCorrect _), (is_answered _); simpl; try lia.
Qed.

(** The answered entries are the rows with an answer on the page. *)
Lemma answered_count (answers : gmap nat bool) (rs : list row) (index : nat) :
  length (List.filter is_answered (entries_from answers index rs)) =
  length (List.filter (fun k => bool_decide (is_Some (answers !! k)))
                      (seq index (length rs))).
Proof.
  revert index. induction rs as [|r rest IH]; intros index;
    cbn [entries_from List.filter length seq]; [done|].
  specialize (IH (S index)).
  assert (H : is_answered (entry_of answers index r)
              = bool_decide (is_Some (answers !! index))).
  { unfold entry_of, is_answered. simpl. destruct (answers !! index) eqn:Ha.
    - by rewrite bool_decide_eq_true_2.
    - rewrite bool_decide_eq_false_2; [done|]. by intros [? ?]. }
  rewrite H. destruct (bool_decide _); simpl; by rewrite IH.
Qed.

(** The summary that [checkAnswers] returns when a table is current. *)
Lemma checkAnswers_table (g : generator) (t : table) (pg : page) :
  currentTable g = Some t ->
  exists answers,
    (forall i, answers !! i = submitted pg (length (rows t)) i)
    /\ checkAnswers g pg =
       (Checked
          {| correct := length (List.filter e_isCorrect (entries_from answers 0 (rows t)));
             total := length (rows t);
             answered := length (List.filter is_answered (entries_from answers 0 (rows t)));
             isComplete :=
               (length (List.filter is_answered (entries_from answers 0 (rows t)))
                =? length (rows t))%nat;
             results := entries_from answers 0 (rows t);
             score := make_score
                        (length (List.filter e_isCorrect (entries_from answers 0 (rows t))))
                        (length (rows t)) |},
        {| currentTable := Some t; userAnswers := answers |}).
Proof.
  intros Ht. destruct (collectUserAnswers_table g t pg Ht) as (answers & Hc & Ha).
  exists answers. split; [done|].
  unfold checkAnswers. rewrite Hc. cbn [currentTable userAnswers].
  rewrite check_rows_spec. done.
Qed.

(** Without a current table the early return gives the short object,
    which has no [answered], [results] or [score] field. *)
Lemma checkAnswers_no_table (g : generator) (pg : page) :
  currentTable g = None -> checkAnswers g pg = (NoTable 0 0 false, g).
Proof.
  intros Hn. unfold checkAnswers, collectUserAnswers. by rewrite Hn, Hn.
Qed.

Lemma list_filter_ext_in {A : Type} (f h : A -> bool) (l : list A) :
  (forall x, x ∈ l -> f x = h x) -> List.filter f l = List.filter h l.
Proof.
  induction l as [|x l IH]; intros Hext; simpl; [done|].
  rewrite (Hext x) by by left. rewrite IH; [done|].
  intros y Hy. apply Hext. by right.
Qed.

Lemma submitted_count (pg : page) (answers : gmap nat bool) (n : nat) :
  (forall i, answers !! i = submitted pg n i) ->
  List.filter (fun k => bool_decide (is_Some (answers !! k))) (seq 0 n) =
  List.filter (fun k => bool_decide (is_Some (pg k))) (seq 0 n).
Proof.
  intros Ha. apply list_filter_ext_in. intros k Hk.
  apply elem_of_seq in Hk. rewrite Ha. unfold submitted.
  rewrite (bool_decide_eq_true_2 (k < n)%nat) by lia.
  apply bool_decide_ext. by rewrite fmap_is_Some.
Qed.

(** [toFixed(1)] picks the nearest tenth of the exact value of its
    argument, the upper one when two are equally near. *)
Lemma tenths_nearest (x : float) (s : bool) (m : positive) (e : Z) :
  Prim2SF x = S754_finite s m e ->
  (0 <= e -> tenths x = 10 * (Z.pos m * 2 ^ e))
  /\ (e < 0 ->
      2 ^ (- e) * (2 * tenths x - 1) <= 20 * Z.pos m
      < 2 ^ (- e) * (2 * tenths x + 1)).
Proof.
  intros Hx. unfold tenths. rewrite Hx. split; intros He.
  - destruct (Z.leb_spec 0 e); [done | lia].
  - destruct (Z.leb_spec 0 e); [lia|].
    assert (Hd : 0 < 2 ^ (- e)) by (apply Z.pow_pos_nonneg; lia).
    replace (2 ^ (- e + 1)) with (2 * 2 ^ (- e))
      by (rewrite Z.pow_add_r by lia; lia).
    pose proof (Z.div_mod (20 * Z.pos m + 2 ^ (- e)) (2 * 2 ^ (- e))) as Hdm.
    pose proof (Z.mod_pos_bound (20 * Z.pos m + 2 ^ (- e)) (2 * 2 ^ (- e))) as Hb.
    nia.
Qed.

(** A table that [generateTable] made has at least two rows. *)
Lemma generateTable_rows (g g' : generator) (e : jsstring) (t : table) :
  generateTable g e = (Ok t, g') -> (2 <= length (rows t))%nat.
Proof.
  intros Hg.
  destruct (generateTable_cases g e)
    as [[_ H]|[(_ & _ & H)|[(_ & _ & _ & H)|(_ & Hv & _ & _ & t' & Ht' & H)]]];
    rewrite H in Hg; simplify_eq.
  simpl. rewrite length_imap, tuples_length.
  destruct (getVariables e) as [|c l]; [done|]. cbn [length].
  rewrite Nat.pow_succ_r'.
  assert (0 < 2 ^ length l)%nat by (apply Nat.neq_0_lt_0, Nat.pow_nonzero; lia).
  lia.
Qed.

(** C7, as stated, fails for a call without a current table: the early
    return gives [{correct: 0, total: 0, isComplete: false}], a result
    with [total == 0] that has neither an [answered] nor a [score]
    field, so its score is not 0 but [undefined]. *)
Lemma checkAnswers_without_table_has_no_score :
  checkAnswers g0 ex_page = (NoTable 0 0 false, g0)
  /\ ~ (exists s : summary,
          fst (checkAnswers g0 ex_page) = Checked s
          /\ total s = 0%nat /\ score s = ScoreNumber 0).
Proof.
  split; [done|]. intros (s & Hs & _). discriminate Hs.
Qed.

(** C7, amended.  Without a current table [checkAnswers] returns
    [{correct: 0, total: 0, isComplete: false}] and nothing else.  With
    a current table it returns a summary in which [total] is the number
    of rows, [answered] the number of rows with an answer on the page,
    [correct] the number of entries marked correct, and
    [correct <= answered <= total]; [isComplete] holds exactly when
    [answered = total]; [score] is [(correct / total * 100).toFixed(1)]
    when [total > 0] and the number 0 when [total = 0].  A table that
    [generateTable] made has at least two rows, so after it [total > 0]
    and the score is the string of [toFixed].  [toFixed(1)] prints the
    tenth nearest to its argument (the upper one on a tie): 1 of 4 gives
    ["25.0"], 1 of 16 gives ["6.3"]. *)
Theorem checkAnswers_summary :
  (forall (g : generator) (pg : page),
      match currentTable g with
      | None => checkAnswers g pg = (NoTable 0 0 false, g)
      | Some t =>
          exists s : summary,
            fst (checkAnswers g pg) = Checked s
            /\ total s = length (rows t)
            /\ answered s =
               length (List.filter (fun k => bool_decide (is_Some (pg k)))
                                   (seq 0 (length (rows t))))
            /\ correct s = length (List.filter e_isCorrect (results s))
            /\ (correct s <= answered s <= total s)%nat
            /\ (isComplete s = true <-> answered s = total s)
            /\ ((0 < total s)%nat ->
                score s = ScoreString
                            (toFixed1 (number_of_nat (correct s)
                                       / number_of_nat (total s) * 100)%float))
            /\ (total s = 0%nat -> score s = ScoreNumber 0)
      end)
  /\ (forall (g g' : generator) (e : jsstring) (t : table) (pg : page),
      generateTable g e = (Ok t, g') ->
      exists s : summary,
        fst (checkAnswers g' pg) = Checked s
        /\ (2 <= total s)%nat
        /\ score s = ScoreString
                       (toFixed1 (number_of_nat (correct s)
                                  / number_of_nat (total s) * 100)%float))
  /\ (forall (x : float) (s : bool) (m : positive) (e : Z),
      Prim2SF x = S754_finite s m e ->
      (0 <= e -> tenths x = 10 * (Z.pos m * 2 ^ e))
      /\ (e < 0 ->
          2 ^ (- e) * (2 * tenths x - 1) <= 20 * Z.pos m
          < 2 ^ (- e) * (2 * tenths x + 1)))
  /\ make_score 1 4 = ScoreString "25.0"
  /\ make_score 1 16 = ScoreString "6.3"
  /\ make_score 0 0 = ScoreNumber 0
  /\ (exists s : summary,
      fst (checkAnswers (snd (generateTable g0 ex_and)) ex_page) = Checked s
      /\ correct s = 1%nat /\ answered s = 2%nat /\ total s = 4%nat
      /\ isComplete s = false /\ score s = ScoreString "25.0").
Proof.
  split; [|split; [|split; [apply tenths_nearest|]]].
  - intros g pg. destruct (currentTable g) as [t|] eqn:Ht;
      [|by apply checkAnswers_no_table].
    destruct (checkAnswers_table g t pg Ht) as (answers & Ha & Hc).
    eexists. rewrite Hc. split; [done|]. cbn [total answered correct isComplete
                                               results score].
    split; [done|]. split; [|split; [done|]]; [|split; [|split; [|split]]].
    + by rewrite answered_count, (submitted_count pg answers).
    + split; [apply correct_le_answered|].
      etransitivity; [apply filter_length_le|].
      by rewrite entries_from_length.
    + apply Nat.eqb_eq.
    + intros Hpos. unfold make_score.
      destruct (Nat.ltb_spec 0 (length (rows t))); [done | lia].
    + intros Hz. unfold make_score. by rewrite Hz.
  - intros g g' e t pg Hg.
    pose proof (generateTable_rows g g' e t Hg) as Hrows.
    assert (Ht : currentTable g' = Some t).
    { destruct (generateTable_cases g e)
        as [[_ H]|[(_ & _ & H)|[(_ & _ & _ & H)|(_ & _ & _ & _ & t' & _ & H)]]];
        rewrite H in Hg; by simplify_eq. }
    destruct (checkAnswers_table g' t pg Ht) as (answers & Ha & Hc).
    eexists. rewrite Hc. split; [done|]. cbn [total correct score].
    split; [done|]. unfold make_score.
    destruct (Nat.ltb_spec 0 (length (rows t))); [done | lia].
  - repeat split; try by vm_compute.
    eexists. split; [by vm_compute|]. by vm_compute.
Qed.

Lemma checkAnswers_summary_witness :
  (exists s : summary,
      fst (checkAnswers (snd (generateTable g0 ex_and)) ex_page) = Checked s
      /\ (2 <= total s)%nat)
  /\ tenths 6.25%float = 63.
Proof.
  split.
  - destruct (proj1 (proj2 checkAnswers_summary)
                g0 (snd (generateTable g0 ex_and)) ex_and
                {| expression := ex_and;
                   tvariables := getVariables ex_and;
                   rows := imap (make_row ex_and (getVariables ex_and))
                                (tuples (length (getVariables ex_and))) |}
                ex_page eq_refl) as (s & Hs & Ht & _).
    exists s. split; [exact Hs | exact Ht].
  - pose proof (proj2 (proj1 (proj2 (proj2 checkAnswers_summary)) 6.25%float false
                         7036874417766400%positive (-50) eq_refl) ltac:(lia)) as H.
    change (2 ^ (- -50)) with 1125899906842624 in H. lia.
Defined.

(** C10.  When a table is current, the results list of [checkAnswers]
    has one entry per row, in row order.  The entry of a row without a
    submitted answer is [{index, userAnswer: null, correctAnswer: the
    row's stored result, isCorrect: false}]; the entry of a row with a
    submitted answer carries that answer and the stored result, and its
    [isCorrect] is true exactly when the two are the same value.  The
    submitted answers are those the call stored in [userAnswers]: the
    checked radio button of each row of the table. *)
Theorem checkAnswers_results :
  forall (g : generator) (t : table) (pg : page),
    currentTable g = Some t ->
    exists s : summary,
      fst (checkAnswers g pg) = Checked s
      /\ length (results s) = length (rows t)
      /\ (forall i : nat,
          userAnswers (snd (checkAnswers g pg)) !! i =
          submitted pg (length (rows t)) i)
      /\ (forall (i : nat) (r : row),
          rows t !! i = Some r ->
          exists en : entry,
            results s !! i = Some en
            /\ e_index en = i
            /\ e_correctAnswer en = result r
            /\ e_userAnswer en = userAnswers (snd (checkAnswers g pg)) !! i
            /\ (e_userAnswer en = None -> e_isCorrect en = false)
            /\ (forall a : bool,
                e_userAnswer en = Some a ->
                (e_isCorrect en = true <-> JBool a = result r))).
Proof.
  intros g t pg Ht.
  destruct (checkAnswers_table g t pg Ht) as (answers & Ha & Hc).
  eexists. rewrite Hc. split; [done|]. cbn [fst snd results userAnswers].
  split; [apply entries_from_length|]. split; [done|].
  intros i r Hr. exists (entry_of answers i r).
  split; [by rewrite (entries_from_lookup answers (rows t) 0 i r Hr)|].
  unfold entry_of. cbn [e_index e_correctAnswer e_userAnswer e_isCorrect].
  do 3 (split; [done|]). split.
  - by intros ->.
  - intros a ->. apply bool_decide_eq_true.
Qed.

Lemma checkAnswers_results_witness :
  exists s : summary,
    fst (checkAnswers (snd (generateTable g0 ex_and)) ex_page) = Checked s
    /\ length (results s) = 4%nat.
Proof.
  destruct (checkAnswers_results (snd (generateTable g0 ex_and))
              {| expression := ex_and;
                 tvariables := getVariables ex_and;
                 rows := imap (make_row ex_and (getVariables ex_and))
                              (tuples (length (getVariables ex_and))) |}
              ex_page eq_refl) as (s & Hs & Hl & _).
  exists s. split; [exact Hs | exact Hl].
Defined.

(** ** Further properties of the conversion to postfix *)

Lemma scan_insignificant (st : scanner) (c : char) :
  significant c = false -> scan st c = st.
Proof.
  unfold significant, is_operator, scan, isVariable. intros H.
  destruct (N.eqb_spec c SPACE); [done|]. simpl in H.
  destruct (isLetter c); [done|].
  destruct (c =? LPAREN)%N; [done|].
  destruct (c =? RPAREN)%N; [done|].
  by destruct (operators c).
Qed.

Lemma fold_scan_filter (e : jsstring) (st : scanner) :
  fold_left scan (List.filter significant e) st = fold_left scan e st.
Proof.
  revert st. induction e as [|c e IH]; intros st; simpl; [done|].
  destruct (significant c) eqn:Hc; simpl.
  - apply IH.
  - rewrite IH. by rewrite scan_insignificant.
Qed.

(** X1.  Spaces and characters that are neither letters, operators nor
    parentheses have no influence: an expression converts and evaluates
    like the expression with those characters removed, wherever they
    stand. *)
Theorem insignificant_characters_ignored :
  forall e : jsstring,
    infixToPostfix (List.filter significant e) = infixToPostfix e
    /\ (forall vv : gmap char jsval,
        evaluate (List.filter significant e) vv = evaluate e vv)
    /\ (forall (e' : jsstring) (c : char),
        significant c = false ->
        infixToPostfix (e ++ c :: e') = infixToPostfix (e ++ e')).
Proof.
  intros e.
  assert (H : infixToPostfix (List.filter significant e) = infixToPostfix e).
  { unfold infixToPostfix, scan_all. by rewrite fold_scan_filter. }
  split; [done|]. split.
  - intros vv. unfold evaluate. by rewrite H.
  - intros e' c Hc. unfold infixToPostfix, scan_all.
    rewrite !fold_left_app. simpl. by rewrite scan_insignificant.
Qed.

Lemma insignificant_characters_ignored_witness :
  infixToPostfix ([p_; SPACE] ++ 49%N :: [WEDGE; q_]) =
  infixToPostfix ([p_; SPACE] ++ [WEDGE; q_]).
Proof.
  exact (proj2 (proj2 (insignificant_characters_ignored [p_; SPACE]))
           [WEDGE; q_] 49%N eq_refl).
Defined.

Lemma pop_higher_split (p : N) (stack : list char) :
  fst (pop_higher p stack) ++ snd (pop_higher p stack) = stack.
Proof.
  induction stack as [|top below IH]; simpl; [done|].
  destruct (pops_before p top); [|done].
  destruct (pop_higher p below) as [popped rest]. simpl in *. by rewrite IH.
Qed.

Lemma paren_not_letter_or_operator :
  isLetter LPAREN = false /\ is_operator LPAREN = false.
Proof. done. Qed.

Lemma filter_nil_app {A : Type} (f : A -> bool) (l1 l2 : list A) :
  List.filter f (l1 ++ l2) = [] -> List.filter f l1 = [] /\ List.filter f l2 = [].
Proof. rewrite List.filter_app. apply app_eq_nil. Qed.

Lemma scanned_start : scanned [] {| output := []; operatorStack := [] |}.
Proof. repeat split; simpl; try done. Qed.

Lemma scanned_skip (pre : jsstring) (st : scanner) (c : char) :
  isLetter c = false -> is_operator c = false ->
  scanned pre st -> scanned (pre ++ [c]) st.
Proof.
  intros Hl Ho (H1 & H2 & H3 & H4 & H5).
  unfold scanned. rewrite !List.filter_app. simpl. rewrite Hl, Ho, !app_nil_r.
  rewrite length_app. simpl.
  repeat split; try done.
  - by rewrite <- List.filter_app.
  - intros x Hx. apply elem_of_app. left. by apply H4.
  - lia.
Qed.

Lemma scanned_step (pre : jsstring) (st : scanner) (c : char) :
  scanned pre st -> scanned (pre ++ [c]) (scan st c).
Proof.
  intros Hs. unfold scan, isVariable.
  destruct (N.eqb_spec c SPACE) as [->|Hsp]; [by apply scanned_skip|].
  destruct (isLetter c) eqn:Hl.
  { destruct Hs as (H1 & H2 & H3 & H4 & H5).
    assert (Ho : is_operator c = false).
    { unfold is_operator.
      by destruct (letter_not_special c Hl) as (_ & _ & _ & ->). }
    unfold scanned. simpl. rewrite !List.filter_app, !length_app in *.
    simpl. rewrite Hl, Ho, !app_nil_r. repeat split; try done.
    - by rewrite H1.
    - intros x. rewrite !elem_of_app, list_elem_of_singleton.
      intros [[?|?]|?]; auto; left; apply H4; apply elem_of_app; auto.
    - lia. }
  destruct (N.eqb_spec c LPAREN) as [->|Hlp].
  { destruct Hs as (H1 & H2 & H3 & H4 & H5).
    unfold scanned. simpl. rewrite !List.filter_app, !length_app in *.
    simpl. rewrite !app_nil_r. repeat split; try done.
    - intros x. rewrite !elem_of_app, elem_of_cons, list_elem_of_singleton.
      intros [?|[?|?]]; auto; left; apply H4; apply elem_of_app; auto.
    - lia. }
  destruct (N.eqb_spec c RPAREN) as [->|Hrp].
  { destruct Hs as (H1 & H2 & H3 & H4 & H5).
    rewrite pop_to_paren_spec.
    pose proof (above_from_paren (operatorStack st)) as Hsplit.
    rewrite <- Hsplit in H2, H3, H4, H5.
    apply filter_nil_app in H2 as [H2a H2b].
    set (above := above_paren (operatorStack st)) in *.
    assert (Hrest : exists rest,
      match from_paren (operatorStack st) with
      | top :: below => if (top =? LPAREN)%N then below else from_paren (operatorStack st)
      | [] => from_paren (operatorStack st)
      end = rest
      /\ List.filter isLetter rest = []
      /\ List.filter is_operator (from_paren (operatorStack st))
         = List.filter is_operator rest
      /\ (forall x, x ∈ rest -> x ∈ from_paren (operatorStack st))
      /\ (length rest <= length (from_paren (operatorStack st)))%nat).
    { destruct (from_paren_head (operatorStack st)) as [Hf|[below Hf]];
        rewrite Hf in *.
      - exists []. by repeat split.
      - exists below. simpl. simpl in H2b.
        split; [done|]. split; [done|]. split; [done|]. split.
        + intros x Hx. by right.
        + lia. }
    destruct Hrest as (rest & -> & R1 & R2 & R3 & R4).
    unfold scanned. simpl.
    rewrite !List.filter_app, !length_app in *. simpl.
    rewrite H2a, R1, !app_nil_r, <- R2. repeat split; try done.
    - by rewrite <- app_assoc.
    - intros x. rewrite !elem_of_app. intros Hx. left. apply H4.
      rewrite !elem_of_app. destruct Hx as [[?|?]|?]; auto.
    - lia. }
  destruct (operators c) as [info|] eqn:Hinfo.
  2:{ apply scanned_skip; [done| |done]. unfold is_operator. by rewrite Hinfo. }
  destruct Hs as (H1 & H2 & H3 & H4 & H5).
  pose proof (pop_higher_split (precedence info) (operatorStack st)) as Hsplit.
  destruct (pop_higher (precedence info) (operatorStack st)) as [popped rest].
  simpl in Hsplit. rewrite <- Hsplit in H2, H3, H4, H5.
  apply filter_nil_app in H2 as [H2a H2b].
  assert (Ho : is_operator c = true) by (unfold is_operator; by rewrite Hinfo).
  unfold scanned. simpl.
  rewrite !List.filter_app, !length_app in *. simpl.
  rewrite Hl, Ho, H2a, H2b, !app_nil_r. repeat split; try done.
  - rewrite <- H3. rewrite <- !app_assoc. simpl.
    by rewrite <- Permutation_middle, Permutation_cons_append, <- !app_assoc.
  - intros x. rewrite !elem_of_app, elem_of_cons, list_elem_of_singleton.
    intros Hx.
    destruct Hx as [[?|?]|[?|?]]; auto; left; apply H4;
      rewrite !elem_of_app; auto.
  - simpl. lia.
Qed.

Lemma scan_all_scanned (e : jsstring) : scanned e (scan_all e).
Proof.
  induction e as [|c e IH] using rev_ind; [apply scanned_start|].
  rewrite scan_all_snoc. by apply scanned_step.
Qed.

(** X2.  The conversion loses and invents nothing: the letters of the
    postfix sequence are the letters of the expression in their
    original order, its operators are the operators of the expression,
    each as often as it occurs there, every token comes from the
    expression, and the sequence is no longer than the expression. *)
Theorem postfix_keeps_letters_and_operators :
  forall e : jsstring,
    List.filter isLetter (infixToPostfix e) = List.filter isLetter e
    /\ List.filter is_operator (infixToPostfix e)
       ≡ₚ List.filter is_operator e
    /\ (forall c, c ∈ infixToPostfix e -> c ∈ e)
    /\ (length (infixToPostfix e) <= length e)%nat.
Proof.
  intros e. destruct (scan_all_scanned e) as (H1 & H2 & H3 & H4 & H5).
  unfold infixToPostfix. rewrite flush_app.
  rewrite List.filter_app, H1, H2, app_nil_r, length_app. done.
Qed.

(** ** Further properties of evaluation *)

Lemma step_letter (vv : gmap char jsval) (stack : list jsval) (c : char) :
  isLetter c = true -> step vv stack c = Ok (read vv c :: stack).
Proof. intros H. unfold step, isVariable. by rewrite H. Qed.

Lemma step_agree (vv1 vv2 : gmap char jsval) (stack : list jsval) (tok : char) :
  (isLetter tok = true -> read vv1 tok = read vv2 tok) ->
  step vv1 stack tok = step vv2 stack tok.
Proof.
  intros H. unfold step, isVariable.
  destruct (isLetter tok); [by rewrite H | done].
Qed.

Lemma run_agree (vv1 vv2 : gmap char jsval) (postfix : list char) :
  (forall c, isLetter c = true -> c ∈ postfix -> read vv1 c = read vv2 c) ->
  forall stack, run vv1 stack postfix = run vv2 stack postfix.
Proof.
  induction postfix as [|tok rest IH]; intros H stack; simpl; [done|].
  rewrite (step_agree vv1 vv2).
  - destruct (step vv2 stack tok); simpl; [|done].
    apply IH. intros c Hl Hc. apply H; [done | by right].
  - intros Hl. apply H; [done | by left].
Qed.

Lemma postfix_elem (e : jsstring) (c : char) :
  c ∈ infixToPostfix e -> c ∈ e.
Proof.
  destruct (scan_all_scanned e) as (_ & _ & _ & H & _).
  unfold infixToPostfix. rewrite flush_app. apply H.
Qed.

(** X3.  [evaluate] reads the assignment only at the letters that occur
    in the expression: two assignments that read alike there (a missing
    key reading as [undefined]) give the same result, so a binding for
    any other key is irrelevant. *)
Theorem evaluate_reads_only_its_letters :
  (forall (e : jsstring) (vv1 vv2 : gmap char jsval),
      (forall c, isLetter c = true -> c ∈ e -> read vv1 c = read vv2 c) ->
      evaluate e vv1 = evaluate e vv2)
  /\ (forall (e : jsstring) (vv : gmap char jsval) (k : char) (v : jsval),
      k ∉ e -> evaluate e (<[k := v]> vv) = evaluate e vv).
Proof.
  assert (Hmain : forall e vv1 vv2,
    (forall c, isLetter c = true -> c ∈ e -> read vv1 c = read vv2 c) ->
    evaluate e vv1 = evaluate e vv2).
  { intros e vv1 vv2 H. unfold evaluate, evaluatePostfix.
    rewrite (run_agree vv1 vv2); [done|].
    intros c Hl Hc. apply H; [done|]. by apply postfix_elem. }
  split; [done|].
  intros e vv k v Hk. apply Hmain. intros c Hl Hc. unfold read.
  rewrite lookup_insert_ne; [done|]. by intros ->.
Qed.

Lemma evaluate_reads_only_its_letters_witness :
  evaluate ex_and (<[r_ := JBool true]> ex_assignment)
  = evaluate ex_and ex_assignment.
Proof.
  refine (proj2 evaluate_reads_only_its_letters ex_and ex_assignment
            r_ (JBool true) _).
  intros Hc. apply list_elem_of_In in Hc. simpl in Hc.
  repeat (destruct Hc as [Hc|Hc]; [discriminate Hc|]). exact Hc.
Defined.

Lemma scan_symbol_on_lower (o1 o2 : connective) (out : list char) :
  (prec (symbol o1) < prec (symbol o2))%N ->
  scan {| output := out; operatorStack := [symbol o1] |} (symbol o2) =
  {| output := out; operatorStack := [symbol o2; symbol o1] |}.
Proof.
  destruct o1, o2; intros Hlt; try (by vm_compute in Hlt);
    unfold scan; simpl; by rewrite app_nil_r.
Qed.

Lemma three_operand_postfix (x y z : char) (o1 o2 : connective) :
  isLetter x = true -> isLetter y = true -> isLetter z = true ->
  infixToPostfix [x; symbol o1; y; symbol o2; z] =
  if (prec (symbol o2) <=? prec (symbol o1))%N
  then [x; y; symbol o1; z; symbol o2]
  else [x; y; z; symbol o2; symbol o1].
Proof.
  intros Hx Hy Hz. unfold infixToPostfix, scan_all. simpl.
  rewrite (scan_variable _ x Hx). simpl.
  rewrite scan_symbol_on_empty, (scan_variable _ y Hy). simpl.
  destruct (N.leb_spec (prec (symbol o2)) (prec (symbol o1))) as [Hle|Hlt].
  - rewrite scan_symbol_on_symbol by done.
    rewrite (scan_variable _ z Hz). simpl. done.
  - rewrite scan_symbol_on_lower by done.
    rewrite (scan_variable _ z Hz). simpl. done.
Qed.

(** X4.  Without parentheses, [x o1 y o2 z] groups to the left unless
    the second operator binds tighter: it evaluates to
    [(x o1 y) o2 z] when the precedence of [o2] is at most that of
    [o1], and to [x o1 (y o2 z)] otherwise. *)
Theorem three_operand_precedence :
  forall (x y z : char) (o1 o2 : connective) (vv : gmap char jsval)
         (a b c : bool),
    isLetter x = true -> isLetter y = true -> isLetter z = true ->
    vv !! x = Some (JBool a) -> vv !! y = Some (JBool b) ->
    vv !! z = Some (JBool c) ->
    evaluate [x; symbol o1; y; symbol o2; z] vv =
    JBool (if (prec (symbol o2) <=? prec (symbol o1))%N
           then table_of o2 (table_of o1 a b) c
           else table_of o1 a (table_of o2 b c)).
Proof.
  intros x y z o1 o2 vv a b c Hx Hy Hz Ha Hb Hc.
  assert (Rx : read vv x = JBool a) by (unfold read; by rewrite Ha).
  assert (Ry : read vv y = JBool b) by (unfold read; by rewrite Hb).
  assert (Rz : read vv z = JBool c) by (unfold read; by rewrite Hc).
  unfold evaluate, evaluatePostfix. rewrite three_operand_postfix by done.
  destruct (prec (symbol o2) <=? prec (symbol o1))%N; cbn [run].
  - rewrite (step_letter vv _ x Hx), Rx. cbn [bind].
    rewrite (step_letter vv _ y Hy), Ry. cbn [bind].
    rewrite step_symbol. cbn [bind].
    rewrite (step_letter vv _ z Hz), Rz. cbn [bind].
    rewrite step_symbol. done.
  - rewrite (step_letter vv _ x Hx), Rx. cbn [bind].
    rewrite (step_letter vv _ y Hy), Ry. cbn [bind].
    rewrite (step_letter vv _ z Hz), Rz. cbn [bind].
    rewrite step_symbol. cbn [bind].
    rewrite step_symbol. done.
Qed.

Lemma three_operand_precedence_witness :
  evaluate [p_; symbol Disj; q_; symbol Conj; r_]
           (<[r_ := JBool false]> ex_assignment) = JBool true.
Proof.
  exact (three_operand_precedence p_ q_ r_ Disj Conj
           (<[r_ := JBool false]> ex_assignment) true false false
           eq_refl eq_refl eq_refl eq_refl eq_refl eq_refl).
Defined.

(** X5.  A single prefix '~' negates its operand, and so does each '~'
    of the parenthesised [(~(~x))]; but in [~~x] the first '~' is popped
    to the output before any operand, negates [undefined], and leaves
    [true] at the bottom of the stack: [~~x] evaluates to [true] under
    every assignment. *)
Theorem stacked_negation :
  forall (x : char) (vv : gmap char jsval),
    isLetter x = true ->
    evaluate [TILDE; x] vv = js_not (read vv x)
    /\ evaluate [LPAREN; TILDE; LPAREN; TILDE; x; RPAREN; RPAREN] vv
       = js_not (js_not (read vv x))
    /\ infixToPostfix [TILDE; TILDE; x] = [TILDE; x; TILDE]
    /\ evaluate [TILDE; TILDE; x] vv = JBool true.
Proof.
  intros x vv Hx.
  assert (P1 : infixToPostfix [TILDE; x] = [x; TILDE]).
  { unfold infixToPostfix, scan_all. cbn [fold_left].
    change (scan {| output := []; operatorStack := [] |} TILDE)
      with {| output := []; operatorStack := [TILDE] |}.
    by rewrite (scan_variable _ x Hx). }
  assert (P2 : infixToPostfix [LPAREN; TILDE; LPAREN; TILDE; x; RPAREN; RPAREN]
               = [x; TILDE; TILDE]).
  { apply (infixToPostfix_text (Neg (Neg (Var x)))). exact Hx. }
  assert (P3 : infixToPostfix [TILDE; TILDE; x] = [TILDE; x; TILDE]).
  { unfold infixToPostfix, scan_all. cbn [fold_left].
    change (scan (scan {| output := []; operatorStack := [] |} TILDE) TILDE)
      with {| output := [TILDE]; operatorStack := [TILDE] |}.
    by rewrite (scan_variable _ x Hx). }
  unfold evaluate, evaluatePostfix. rewrite P1, P2, P3. cbn [run].
  rewrite !(step_letter vv _ x Hx). cbn [bind].
  change (step vv [] TILDE) with (Ok [JBool true]). cbn [bind].
  rewrite (step_letter vv _ x Hx). done.
Qed.

Lemma stacked_negation_witness :
  evaluate [TILDE; TILDE; p_] (<[p_ := JBool true]> ∅) = JBool true.
Proof.
  exact (proj2 (proj2 (proj2
           (stacked_negation p_ (<[p_ := JBool true]> ∅) eq_refl)))).
Defined.

(** ** Further properties of the truth table *)

Lemma assign_other (vars : list char) (i : nat) (comb : list bool)
    (acc : gmap char jsval) (v : char) :
  v ∉ vars -> assign vars i comb acc !! v = acc !! v.
Proof.
  revert i acc. induction vars as [|v0 rest IH]; intros i acc Hv; simpl; [done|].
  apply not_elem_of_cons in Hv as [Hne Hv].
  rewrite IH by done. by rewrite lookup_insert_ne.
Qed.

Lemma assign_lookup (vars : list char) (i j : nat) (comb : list bool)
    (acc : gmap char jsval) (v : char) :
  NoDup vars -> vars !! j = Some v ->
  assign vars i comb acc !! v = Some (at_index comb (i + j)).
Proof.
  revert i j acc. induction vars as [|v0 rest IH]; intros i j acc Hnd Hj; [done|].
  apply NoDup_cons in Hnd as [Hnin Hnd]. destruct j as [|j]; simpl in *.
  - simplify_eq. rewrite assign_other by done.
    by rewrite lookup_insert_eq, Nat.add_0_r.
  - rewrite (IH (S i) j) by done. do 2 f_equal. lia.
Qed.

Lemma assign_zip (vars : list char) (comb : list bool) :
  NoDup vars -> length comb = length vars ->
  (forall (j : nat) (v : char),
      vars !! j = Some v ->
      exists b : bool,
        comb !! j = Some b /\ read (assign vars 0 comb ∅) v = JBool b)
  /\ (forall v : char, v ∉ vars -> read (assign vars 0 comb ∅) v = JUndefined).
Proof.
  intros Hnd Hlen. split.
  - intros j v Hj.
    destruct (lookup_lt_is_Some_2 comb j) as [b Hb].
    { rewrite Hlen. by eapply lookup_lt_Some. }
    exists b. split; [done|]. unfold read.
    rewrite (assign_lookup vars 0 j) by done. unfold at_index. simpl.
    by rewrite Hb.
  - intros v Hv. unfold read. by rewrite assign_other, lookup_empty.
Qed.

Lemma getVariables_NoDup (e : jsstring) : NoDup (getVariables e).
Proof.
  rewrite getVariables_units, sort_perm. apply collect_units_NoDup, NoDup_nil_2.
Qed.

(** X6.  The assignment that [generateTable] builds for a row is the
    zip of the variables with the tuple: with distinct variables and a
    tuple of the same length, the variable at position [j] reads as the
    boolean at position [j] of the tuple, and any other key reads as
    [undefined].  The variables and tuples of [generateTable] are such. *)
Theorem assignment_zips_variables_with_tuple :
  (forall (vars : list char) (comb : list bool),
      NoDup vars -> length comb = length vars ->
      (forall (j : nat) (v : char),
          vars !! j = Some v ->
          exists b : bool,
            comb !! j = Some b /\ read (assign vars 0 comb ∅) v = JBool b)
      /\ (forall v : char,
          v ∉ vars -> read (assign vars 0 comb ∅) v = JUndefined))
  /\ (forall (e : jsstring) (combinations : list (list bool)) (comb : list bool),
      generateCombinations (length (getVariables e)) = Ok combinations ->
      comb ∈ combinations ->
      NoDup (getVariables e) /\ length comb = length (getVariables e)).
Proof.
  split; [apply assign_zip|].
  intros e combinations comb Hc Hin. split; [apply getVariables_NoDup|].
  apply generateCombinations_Ok in Hc as [_ ->].
  apply list_elem_of_lookup in Hin as [k Hk].
  assert (Hlt : (k < 2 ^ length (getVariables e))%nat).
  { apply lookup_lt_Some in Hk. by rewrite tuples_length in Hk. }
  rewrite tuples_lookup in Hk by done. simplify_eq.
  apply combination_length.
Qed.

Lemma assignment_zips_variables_with_tuple_witness :
  exists b : bool,
    [true; false] !! 1%nat = Some b
    /\ read (assign [p_; q_] 0 [true; false] ∅) q_ = JBool b.
Proof.
  refine (proj1 (proj1 assignment_zips_variables_with_tuple
                   [p_; q_] [true; false] _ _)
            1%nat q_ eq_refl).
  - apply NoDup_cons. split.
    + intros H. apply list_elem_of_In in H. simpl in H.
      destruct H as [H|[]]. discriminate H.
    + apply NoDup_singleton.
  - reflexivity.
Defined.

Lemma letter_not_whitespace (c : char) :
  isLetter c = true -> isWhiteSpace c = false.
Proof.
  intros Hl. apply letter_range in Hl.
  destruct (isWhiteSpace c) eqn:Hw; [|done]. unfold isWhiteSpace in Hw.
  rewrite !orb_true_iff, !andb_true_iff, !N.leb_le, !N.eqb_eq in Hw. lia.
Qed.

Lemma text_has_letter (f : formula) :
  letters f -> exists c, isLetter c = true /\ c ∈ text f.
Proof.
  induction f as [c | f IH | o f IHf g IHg]; simpl.
  - intros Hl. exists c. split; [done | by left].
  - intros Hl. destruct (IH Hl) as (c & Hc & Hin). exists c. split; [done|].
    do 2 right. apply elem_of_app. by left.
  - intros [Hf _]. destruct (IHf Hf) as (c & Hc & Hin). exists c.
    split; [done|]. right. apply elem_of_app. by left.
Qed.

Lemma covers_of_text (vv : gmap char jsval) (m : char -> bool) (f : formula) :
  letters f ->
  (forall c, isLetter c = true -> c ∈ text f -> vv !! c = Some (JBool (m c))) ->
  covers vv m f.
Proof.
  induction f as [c | f IH | o f IHf g IHg]; simpl.
  - intros Hl H. apply H; [done | by left].
  - intros Hl H. apply IH; [done|]. intros c Hc Hin. apply H; [done|].
    do 2 right. apply elem_of_app. by left.
  - intros [Hf Hg] H. split.
    + apply IHf; [done|]. intros c Hc Hin. apply H; [done|].
      right. apply elem_of_app. by left.
    + apply IHg; [done|]. intros c Hc Hin. apply H; [done|].
      right. rewrite elem_of_app, elem_of_cons, elem_of_app. auto.
Qed.

Lemma text_accepted (f : formula) :
  letters f -> trim (text f) <> [] /\ getVariables (text f) <> [].
Proof.
  intros Hl. destruct (text_has_letter f Hl) as (c & Hc & Hin). split.
  - intros Ht. apply trim_nil in Ht. rewrite Forall_forall in Ht.
    specialize (Ht c Hin). by rewrite letter_not_whitespace in Ht.
  - intros Hv. pose proof (proj1 (getVariables_nil (text f)) Hv c Hin) as Hn.
    congruence.
Qed.

(** X7.  For every formula built from letters with [(~x)] and
    [(x op y)] that has at most 31 distinct letters, [generateTable]
    succeeds and makes the table current; the table has [2^n] rows for
    the [n] distinct letters of the formula, and every row stores the
    truth value of the formula under the assignment that gives the
    variable at position [j] the boolean at position [j] of the row's
    tuple.  With 32 or more distinct letters the call fails with the
    RangeError of [generateCombinations] and leaves the generator as it
    was. *)
Theorem truth_table_of_formula :
  forall (f : formula) (g : generator),
    letters f ->
    ((length (getVariables (text f)) <= 31)%nat ->
     exists t : table,
       generateTable g (text f) =
         (Ok t, {| currentTable := Some t; userAnswers := userAnswers g |})
       /\ expression t = text f
       /\ tvariables t = getVariables (text f)
       /\ length (rows t) = (2 ^ length (tvariables t))%nat
       /\ (forall (k : nat) (r : row),
           rows t !! k = Some r ->
           exists m : char -> bool,
             (forall (j : nat) (v : char),
                 tvariables t !! j = Some v -> variables r !! j = Some (m v))
             /\ result r = JBool (truth m f)))
    /\ ((32 <= length (getVariables (text f)))%nat ->
        generateTable g (text f) = (Throw InvalidArrayLength, g)).
Proof.
  intros f g Hl. destruct (text_accepted f Hl) as [Ht Hv].
  destruct (generateTable_cases g (text f))
    as [[Ht' _]|[(_ & Hv' & _)|[(_ & _ & Hge & Hg)
                               |(_ & _ & Hle & _ & t & Hdef & Hg)]]];
    try done.
  { split; [lia | done]. }
  split; [intros _ | lia].
  exists t. split; [done|]. subst t. cbn [expression tvariables rows].
  split; [done|]. split; [done|].
  split; [by rewrite length_imap, tuples_length|].
  intros k r Hr. rewrite list_lookup_imap in Hr.
  destruct (tuples (length (getVariables (text f))) !! k)
    as [comb|] eqn:Hk; [|done].
  simpl in Hr. simplify_eq.
  assert (Hlen : length comb = length (getVariables (text f))).
  { assert (Hlt : (k < 2 ^ length (getVariables (text f)))%nat).
    { apply lookup_lt_Some in Hk. by rewrite tuples_length in Hk. }
    rewrite tuples_lookup in Hk by done. simplify_eq.
    apply combination_length. }
  pose proof (getVariables_NoDup (text f)) as Hnd.
  destruct (assign_zip _ comb Hnd Hlen) as [Hzip _].
  set (vv := assign (getVariables (text f)) 0 comb ∅) in *.
  exists (fun c => truthy (read vv c)). unfold make_row. cbn [variables result].
  fold vv. split.
  - intros j v Hj. destruct (Hzip j v Hj) as (b & Hb & Hread).
    by rewrite Hread.
  - apply evaluate_text; [done|]. apply covers_of_text; [done|].
    intros c Hc Hin.
    assert (Hcv : c ∈ getVariables (text f)) by by apply getVariables_elem.
    apply list_elem_of_lookup in Hcv as [j Hj].
    destruct (Hzip j c Hj) as (b & Hb & Hread). rewrite Hread. simpl.
    unfold read in Hread. subst vv.
    rewrite (assign_lookup _ 0 j) in * by done. unfold at_index in *.
    simpl in *. rewrite Hb in *. done.
Qed.

Lemma truth_table_of_formula_witness :
  exists t : table,
    generateTable g0 (text (Bin Conj (Var p_) (Var q_))) =
      (Ok t, {| currentTable := Some t; userAnswers := userAnswers g0 |})
    /\ length (rows t) = 4%nat.
Proof.
  destruct (proj1 (truth_table_of_formula (Bin Conj (Var p_) (Var q_)) g0
                     (conj eq_refl eq_refl)))
    as (t & Hg & _ & Hv & Hlen & _).
  - vm_compute. repeat constructor.
  - exists t. split; [exact Hg|]. rewrite Hlen, Hv. reflexivity.
Defined.

Lemma bit_zero (j : Z) : bit 0 j = false.
Proof.
  unfold bit, js_band, js_sar. change (ToInt32 0) with 0.
  rewrite Z.shiftr_0_l. done.
Qed.

Lemma combination_constant (i : Z) (n : nat) (b : bool) :
  (forall j : nat, (j < n)%nat -> bit i (Z.of_nat j) = b) ->
  combination i n = replicate n b.
Proof.
  induction n as [|n IH]; intros H; simpl; [done|].
  rewrite H by lia. rewrite IH; [done|]. intros j Hj. apply H. lia.
Qed.

(** X8.  For up to 31 variables [generateCombinations] returns an
    enumeration that starts with the tuple that is [false] everywhere
    and ends with the tuple that is [true] everywhere: the rows of a
    table run from all-false to all-true.  From 32 variables on it
    returns nothing. *)
Theorem combinations_from_all_false_to_all_true :
  forall n : nat,
    ((n <= 31)%nat ->
     exists combinations : list (list bool),
       generateCombinations n = Ok combinations
       /\ combinations !! 0%nat = Some (replicate n false)
       /\ combinations !! (2 ^ n - 1)%nat = Some (replicate n true)
       /\ last combinations = Some (replicate n true))
    /\ ((32 <= n)%nat -> generateCombinations n = Throw InvalidArrayLength).
Proof.
  intros n. split.
  - intros Hn. exists (tuples n). split; [by apply generateCombinations_Ok|].
    assert (Hpos : (0 < 2 ^ n)%nat) by (clear; induction n; simpl; lia).
    assert (Hlast : tuples n !! (2 ^ n - 1)%nat = Some (replicate n true)).
    { rewrite tuples_lookup by lia.
      f_equal. apply combination_constant. intros j Hj.
      rewrite bit_testbit by lia.
      replace (Z.of_nat (2 ^ n - 1)) with (Z.ones (Z.of_nat n)).
      + apply Z.ones_spec_low. lia.
      + rewrite Z.ones_equiv. pose proof (Nat2Z.inj_pow 2 n) as Hpow.
        change (Z.of_nat 2) with 2 in Hpow. lia. }
    split; [|split; [done|]].
    + rewrite tuples_lookup by done.
      f_equal. apply combination_constant. intros j _. apply bit_zero.
    + rewrite last_lookup, tuples_length.
      replace (Nat.pred (2 ^ n)) with (2 ^ n - 1)%nat by lia. done.
  - intros Hn. rewrite generateCombinations_spec.
    destruct (Nat.ltb_spec n 32); [lia | done].
Qed.

Lemma combinations_from_all_false_to_all_true_witness :
  exists combinations : list (list bool),
    generateCombinations 3 = Ok combinations
    /\ last combinations = Some [true; true; true].
Proof.
  destruct (proj1 (combinations_from_all_false_to_all_true 3%nat)
              ltac:(repeat constructor)) as (combinations & Hc & _ & _ & Hlast).
  exists combinations. split; [exact Hc | exact Hlast].
Defined.

(** ** Further properties of the check *)

Lemma submitted_unique (pg : page) (n : nat) (a1 a2 : gmap nat bool) :
  (forall i, a1 !! i = submitted pg n i) ->
  (forall i, a2 !! i = submitted pg n i) -> a1 = a2.
Proof. intros H1 H2. apply map_eq. intros i. by rewrite H1, H2. Qed.

(** X9.  [checkAnswers] reads the answers afresh from the page: its
    result depends on the current table and the page only, not on
    answers stored before; it leaves the current table as it is; and
    checking again with the same page gives the same result and the
    same generator.  After [reset] it gives the short object. *)
Theorem checkAnswers_repeatable :
  (forall (g g' : generator) (pg : page),
      currentTable g = currentTable g' ->
      fst (checkAnswers g pg) = fst (checkAnswers g' pg))
  /\ (forall (g : generator) (pg : page),
      currentTable (snd (checkAnswers g pg)) = currentTable g)
  /\ (forall (g : generator) (pg : page),
      checkAnswers (snd (checkAnswers g pg)) pg = checkAnswers g pg)
  /\ (forall (g : generator) (pg : page),
      checkAnswers (reset g) pg = (NoTable 0 0 false, reset g)).
Proof.
  assert (Hsame : forall g g' t pg,
    currentTable g = Some t -> currentTable g' = Some t ->
    checkAnswers g pg = checkAnswers g' pg).
  { intros g g' t pg Hg Hg'.
    destruct (checkAnswers_table g t pg Hg) as (a1 & H1 & ->).
    destruct (checkAnswers_table g' t pg Hg') as (a2 & H2 & ->).
    by rewrite (submitted_unique pg _ a1 a2 H1 H2). }
  assert (Hkeep : forall g pg,
    currentTable (snd (checkAnswers g pg)) = currentTable g).
  { intros g pg. destruct (currentTable g) as [t|] eqn:Hg.
    - by destruct (checkAnswers_table g t pg Hg) as (a & _ & ->).
    - by rewrite checkAnswers_no_table. }
  split; [|split; [done|split]].
  - intros g g' pg Heq. destruct (currentTable g) as [t|] eqn:Hg.
    + by rewrite (Hsame g g' t).
    + by rewrite !checkAnswers_no_table.
  - intros g pg. destruct (currentTable g) as [t|] eqn:Hg.
    + apply (Hsame _ g t); [|done]. by rewrite Hkeep.
    + rewrite (checkAnswers_no_table g pg Hg). simpl.
      by apply checkAnswers_no_table.
  - intros g pg. by apply checkAnswers_no_table.
Qed.

Lemma checkAnswers_repeatable_witness :
  fst (checkAnswers (snd (generateTable g0 ex_and)) ex_page)
  = fst (checkAnswers
           {| currentTable := currentTable (snd (generateTable g0 ex_and));
              userAnswers := <[7%nat := true]> ∅ |} ex_page).
Proof.
  apply (proj1 checkAnswers_repeatable). reflexivity.
Defined.

Lemma filter_length_all {A : Type} (f : A -> bool) (l : list A) :
  length (List.filter f l) = length l <-> Forall (fun x => f x = true) l.
Proof.
  induction l as [|x l IH]; simpl; [by split; [constructor|]|].
  pose proof (filter_length_le f l) as Hle.
  destruct (f x) eqn:Hx; simpl.
  - split.
    + intros H. constructor; [done|]. apply IH. lia.
    + intros H. inversion H; subst. f_equal. by apply IH.
  - split; [lia|]. intros H. inversion H; congruence.
Qed.

Lemma entries_from_Forall (P : entry -> Prop) (answers : gmap nat bool)
    (rs : list row) (index : nat) :
  Forall P (entries_from answers index rs) <->
  (forall i r, rs !! i = Some r -> P (entry_of answers (index + i) r)).
Proof.
  revert index. induction rs as [|r rest IH]; intros index; simpl.
  - split; [done | constructor].
  - rewrite Forall_cons, IH. split.
    + intros [H0 Hs] [|i] r' Hr; simpl in Hr.
      * simplify_eq. by rewrite Nat.add_0_r.
      * replace (index + S i)%nat with (S index + i)%nat by lia. by apply Hs.
    + intros H. split.
      * specialize (H 0%nat r eq_refl). by rewrite Nat.add_0_r in H.
      * intros i r' Hr. specialize (H (S i) r' Hr).
        by replace (index + S i)%nat with (S index + i)%nat in H by lia.
Qed.

(** X10.  With a current table, every row counts as correct
    ([correct = total]) exactly when every row has an answer on the
    page and that answer is the row's stored result; the check is then
    complete.  A table with a row whose stored result is no boolean can
    therefore never be answered fully correctly. *)
Theorem all_correct_iff_every_answer_matches :
  forall (g : generator) (t : table) (pg : page),
    currentTable g = Some t ->
    exists s : summary,
      fst (checkAnswers g pg) = Checked s
      /\ (correct s = total s <->
          (forall (i : nat) (r : row),
              rows t !! i = Some r ->
              exists value : string,
                pg i = Some value
                /\ JBool (String.eqb value "true") = result r))
      /\ (correct s = total s -> isComplete s = true)
      /\ ((exists (i : nat) (r : row),
              rows t !! i = Some r /\ result r = JUndefined) ->
          correct s <> total s).
Proof.
  intros g t pg Ht.
  destruct (checkAnswers_table g t pg Ht) as (answers & Ha & Hc).
  eexists. rewrite Hc. split; [done|]. cbn [correct total isComplete].
  set (es := entries_from answers 0 (rows t)).
  assert (Hiff : length (List.filter e_isCorrect es) = length (rows t) <->
    (forall i r, rows t !! i = Some r ->
       exists value, pg i = Some value
                     /\ JBool (String.eqb value "true") = result r)).
  { rewrite <- (entries_from_length answers (rows t) 0). fold es.
    rewrite filter_length_all. unfold es. rewrite entries_from_Forall.
    split; intros H i r Hr; specialize (H i r Hr); simpl in *.
    - unfold entry_of in H. simpl in H. rewrite Ha in H. unfold submitted in H.
      rewrite bool_decide_eq_true_2 in H by by eapply lookup_lt_Some.
      destruct (pg i) as [value|]; simpl in H; [|done].
      exists value. split; [done|]. by apply bool_decide_eq_true in H.
    - destruct H as (value & Hv & Heq).
      unfold entry_of. simpl. rewrite Ha. unfold submitted.
      rewrite bool_decide_eq_true_2 by by eapply lookup_lt_Some.
      rewrite Hv. simpl. by apply bool_decide_eq_true. }
  split; [done|]. split.
  - intros Hall. apply Nat.eqb_eq.
    pose proof (correct_le_answered answers (rows t) 0) as H1.
    pose proof (filter_length_le is_answered es) as H2.
    unfold es in *. rewrite entries_from_length in H2. lia.
  - intros (i & r & Hr & Hu) Hall.
    destruct (proj1 Hiff Hall i r Hr) as (value & _ & Heq). congruence.
Qed.

Lemma all_correct_iff_every_answer_matches_witness :
  exists s : summary,
    fst (checkAnswers (snd (generateTable g0 ex_and)) ex_page) = Checked s
    /\ (correct s = total s -> isComplete s = true).
Proof.
  destruct (all_correct_iff_every_answer_matches
              (snd (generateTable g0 ex_and))
              {| expression := ex_and;
                 tvariables := getVariables ex_and;
                 rows := imap (make_row ex_and (getVariables ex_and))
                              (tuples (length (getVariables ex_and))) |}
              ex_page eq_refl) as (s & Hs & _ & Hc & _).
  exists s. split; [exact Hs | exact Hc].
Defined.

(** ** LogicCore: parsing the variables *)

Lemma parse_item_collect (vars : list char) (item : jsstring) :
  parse_item vars item = TruthTableGenerator.collect vars item.
Proof.
  rewrite <- core_collect_eq.
  unfold parse_item, LogicCore.collect, set_add.
  destruct item as [|c [|d tl]]; try done.
  destruct (LogicCore.isVariable [c]); simpl; [|done].
  by case_bool_decide.
Qed.

Lemma parseVariables_units (input : jsstring) :
  parseVariables input = fold_left collect_unit input [].
Proof.
  unfold parseVariables. rewrite <- (proj1 (collect_units_spec input)).
  generalize (@nil char). induction (stringIterator input) as [|item l IH];
    intros acc; simpl; [done|]. by rewrite parse_item_collect, IH.
Qed.

Lemma collect_units_fresh (l acc : list char) :
  Forall (fun c => isLetter c = true) l -> NoDup (acc ++ l) ->
  fold_left collect_unit l acc = acc ++ l.
Proof.
  revert acc. induction l as [|c l IH]; intros acc Hl Hnd; simpl.
  - by rewrite app_nil_r.
  - inversion Hl as [|? ? Hc Hl']; subst.
    assert (Hnin : c ∉ acc).
    { apply NoDup_app in Hnd as (_ & Hdisj & _). intros Hin.
      apply (Hdisj c Hin). by left. }
    unfold collect_unit at 2. rewrite Hc. unfold set_add.
    rewrite bool_decide_eq_false_2 by done.
    rewrite IH; [by rewrite <- app_assoc | done | by rewrite <- app_assoc].
Qed.

Lemma parseVariables_letters (input : jsstring) :
  Forall (fun c => isLetter c = true) (parseVariables input).
Proof.
  apply Forall_forall. intros c Hc. rewrite parseVariables_units in Hc.
  apply collect_units_elem in Hc as [Hc|[Hl _]]; [|done].
  by apply elem_of_nil in Hc.
Qed.

(** X11.  [parseVariables] returns exactly the letters of its input,
    each once, in the order of their first occurrence: reading one more
    character appends it when it is a letter not seen before and
    changes nothing otherwise.  Sorting the result gives
    [getVariablesFromExpression], and parsing the result again returns
    it unchanged. *)
Theorem parseVariables_first_occurrences :
  forall input : jsstring,
    NoDup (parseVariables input)
    /\ (forall c, c ∈ parseVariables input <-> isLetter c = true /\ c ∈ input)
    /\ (forall c,
        parseVariables (input ++ [c]) =
        if isLetter c && negb (bool_decide (c ∈ parseVariables input))
        then parseVariables input ++ [c]
        else parseVariables input)
    /\ sort (parseVariables input) = LogicCore.getVariablesFromExpression input
    /\ parseVariables (parseVariables input) = parseVariables input.
Proof.
  intros input.
  split; [rewrite parseVariables_units; apply collect_units_NoDup, NoDup_nil_2|].
  split; [|split; [|split]].
  - intros c. rewrite parseVariables_units, collect_units_elem.
    split; [|by right].
    intros [H|H]; [|done]. by apply elem_of_nil in H.
  - intros c. rewrite !parseVariables_units, fold_left_app. simpl.
    unfold collect_unit at 1, set_add.
    destruct (isLetter c); simpl; [|done]. by case_bool_decide.
  - rewrite parseVariables_units.
    unfold LogicCore.getVariablesFromExpression. f_equal.
    rewrite <- (proj1 (collect_units_spec input)).
    generalize (@nil char). induction (stringIterator input) as [|item l IH];
      intros acc; simpl; [done|]. by rewrite core_collect_eq, IH.
  - rewrite (parseVariables_units (parseVariables input)).
    rewrite (collect_units_fresh (parseVariables input) []).
    + done.
    + apply parseVariables_letters.
    + simpl. rewrite parseVariables_units.
      apply collect_units_NoDup, NoDup_nil_2.
Qed.

(** ** LogicCore: elements and selection *)

Section CoreState.

Import LogicCoreState.

Lemma find_element_Some (els : list element) (i : nat) (e : element) :
  find_element els i = Some e -> e ∈ els /\ el_id e = i.
Proof.
  unfold find_element. intros H. apply List.find_some in H as [Hin Heq].
  split; [by apply list_elem_of_In | by apply Nat.eqb_eq].
Qed.

Lemma find_element_None (els : list element) (i : nat) (e : element) :
  find_element els i = None -> e ∈ els -> el_id e <> i.
Proof.
  unfold find_element. intros H Hin Heq. apply list_elem_of_In in Hin.
  pose proof (List.find_none _ _ H e Hin) as Hn. simpl in Hn.
  apply Nat.eqb_neq in Hn. done.
Qed.

Lemma mark_ids (els : list element) (i : nat) (b : bool) :
  el_id <$> mark els i b = el_id <$> els.
Proof.
  induction els as [|e rest IH]; [done|]. cbn [mark].
  destruct (el_id e =? i)%nat; rewrite !fmap_cons; [done|]. by rewrite IH.
Qed.

Lemma mark_texts (els : list element) (i : nat) (b : bool) :
  el_text <$> mark els i b = el_text <$> els.
Proof.
  induction els as [|e rest IH]; [done|]. cbn [mark].
  destruct (el_id e =? i)%nat; rewrite !fmap_cons; [done|]. by rewrite IH.
Qed.

(** With distinct ids, [mark] changes the flag of the one element that
    has the id and nothing else. *)
Lemma mark_elem (els : list element) (i : nat) (b : bool) (e' : element) :
  NoDup (el_id <$> els) ->
  e' ∈ mark els i b <->
  exists e, e ∈ els
            /\ e' = if (el_id e =? i)%nat then with_isSelected e b else e.
Proof.
  induction els as [|e0 rest IH]; intros Hnd; simpl.
  - split; [by intros H%elem_of_nil | by intros (e & H%elem_of_nil & _)].
  - rewrite fmap_cons in Hnd. apply NoDup_cons in Hnd as [Hnin Hnd].
    destruct (Nat.eqb_spec (el_id e0) i) as [Heq|Hne].
    + rewrite elem_of_cons. split.
      * intros [->|Hin].
        -- exists e0. split; [by left|]. by rewrite <- Heq, Nat.eqb_refl.
        -- exists e'. split; [by right|].
           destruct (Nat.eqb_spec (el_id e') i) as [Heq'|]; [|done].
           exfalso. apply Hnin. rewrite Heq, <- Heq'.
           by apply list_elem_of_fmap_2.
      * intros (e & Hin & ->). apply elem_of_cons in Hin as [->|Hin].
        -- left. by rewrite Heq, Nat.eqb_refl.
        -- right. destruct (Nat.eqb_spec (el_id e) i) as [Heq'|]; [|done].
           exfalso. apply Hnin. rewrite Heq, <- Heq'.
           by apply list_elem_of_fmap_2.
    + rewrite elem_of_cons, (IH Hnd). split.
      * intros [->|(e & Hin & ->)].
        -- exists e0. split; [by left|].
           by destruct (Nat.eqb_spec (el_id e0) i).
        -- exists e. split; [by right | done].
      * intros (e & Hin & ->). apply elem_of_cons in Hin as [->|Hin].
        -- left. by destruct (Nat.eqb_spec (el_id e0) i).
        -- right. by exists e.
Qed.

Lemma core_ok_same (c1 c2 : core) :
  elements c1 = elements c2 ->
  selectedElements c1 = selectedElements c2 ->
  nextElementId c1 = nextElementId c2 ->
  core_ok c1 -> core_ok c2.
Proof. unfold core_ok. by intros -> -> ->. Qed.

Lemma core_ok_fresh : core_ok fresh.
Proof.
  unfold core_ok, fresh. simpl. repeat split; try constructor.
  - by intros H%elem_of_nil.
  - by intros (e & H%elem_of_nil & _).
Qed.

Lemma core_ok_createElement (c : core) (text : jsstring) (x y : float) :
  core_ok c -> core_ok (snd (createElement c text x y)).
Proof.
  intros (Hids & Hone & Hlt & Hsel & Hiff). unfold core_ok. simpl.
  rewrite Forall_forall in Hlt.
  split; [|split; [lia|split; [|split; [done|]]]].
  - rewrite fmap_app. apply NoDup_app. split; [done|]. split.
    + intros i Hi Hi'. simpl in Hi'. apply list_elem_of_singleton in Hi'.
      apply list_elem_of_fmap in Hi as (e & -> & He).
      specialize (Hlt e He). lia.
    + apply NoDup_singleton.
  - apply Forall_app. split.
    + apply Forall_forall. intros e He. specialize (Hlt e He). lia.
    + constructor; [simpl; lia | constructor].
  - intros i. rewrite Hiff. split.
    + intros (e & He & Hi & Hs). exists e. split; [|done].
      apply elem_of_app. by left.
    + intros (e & He & Hi & Hs). apply elem_of_app in He as [He|He].
      * by exists e.
      * apply list_elem_of_singleton in He. subst e. done.
Qed.

Lemma core_ok_clearSelection (c : core) :
  core_ok c -> core_ok (clearSelection c).
Proof.
  intros (Hids & Hone & Hlt & Hsel & Hiff). unfold core_ok. simpl.
  split; [|split; [done|split; [|split; [constructor|]]]].
  - by rewrite <- list_fmap_compose.
  - apply Forall_fmap. eapply Forall_impl; [exact Hlt|]. done.
  - intros i. split; [by intros H%elem_of_nil|].
    intros (e & He & _ & Hs). apply list_elem_of_fmap in He as (e0 & -> & _).
    done.
Qed.

Lemma core_ok_toggleSelection (c : core) (i : nat) :
  core_ok c -> core_ok (toggleSelection c i).
Proof.
  intros Hok. pose proof Hok as (Hids & Hone & Hlt & Hsel & Hiff).
  unfold toggleSelection.
  destruct (find_element (elements c) i) as [element|] eqn:Hfind; [|done].
  apply find_element_Some in Hfind as [Hin Hid].
  assert (Huniq : forall e, e ∈ elements c -> el_id e = i -> e = element).
  { intros e He Hei.
    apply list_elem_of_lookup in He as [k1 Hk1].
    apply list_elem_of_lookup in Hin as [k2 Hk2].
    assert (k1 = k2).
    { eapply NoDup_lookup; [exact Hids| |];
        rewrite list_lookup_fmap; [rewrite Hk1|rewrite Hk2]; simpl;
        [by rewrite Hei | by rewrite Hid]. }
    subst k2. congruence. }
  destruct (el_isSelected element) eqn:Hflag; unfold core_ok; simpl;
    rewrite mark_ids;
    (split; [done|]); (split; [done|]).
  - split; [|split].
    + apply Forall_forall. intros e' He'.
      apply (mark_elem _ _ _ _ Hids) in He' as (e & He & ->).
      rewrite Forall_forall in Hlt. specialize (Hlt e He).
      by destruct (el_id e =? i)%nat.
    + clear -Hsel. induction Hsel as [|a l Ha _ IH]; simpl; [constructor|].
      destruct (a =? i)%nat; simpl; [done|]. constructor; [|done].
      intros Hin. apply Ha. apply list_elem_of_In in Hin.
      apply List.filter_In in Hin as [Hin _]. by apply list_elem_of_In.
    + intros j. rewrite list_elem_of_In, List.filter_In, <- list_elem_of_In.
      rewrite Hiff, negb_true_iff, Nat.eqb_neq. split.
      * intros [(e & He & Hj & Hs) Hne]. exists e. split; [|done].
        apply (mark_elem _ _ _ _ Hids). exists e. split; [done|].
        destruct (Nat.eqb_spec (el_id e) i); [congruence | done].
      * intros (e' & He' & Hj & Hs).
        apply (mark_elem _ _ _ _ Hids) in He' as (e & He & ->).
        destruct (Nat.eqb_spec (el_id e) i) as [Hei|Hne]; [done|].
        split; [by exists e | congruence].
  - split; [|split].
    + apply Forall_forall. intros e' He'.
      apply (mark_elem _ _ _ _ Hids) in He' as (e & He & ->).
      rewrite Forall_forall in Hlt. specialize (Hlt e He).
      by destruct (el_id e =? i)%nat.
    + apply NoDup_app. split; [done|]. split; [|apply NoDup_singleton].
      intros j Hj Hj'. apply list_elem_of_singleton in Hj'. subst j.
      apply Hiff in Hj as (e & He & Hei & Hs).
      rewrite (Huniq e He Hei) in Hs. congruence.
    + intros j. rewrite elem_of_app, list_elem_of_singleton, Hiff. split.
      * intros [(e & He & Hj & Hs)| ->].
        -- exists e. split; [|done].
           apply (mark_elem _ _ _ _ Hids). exists e. split; [done|].
           destruct (Nat.eqb_spec (el_id e) i) as [Hei|]; [|done].
           rewrite (Huniq e He Hei) in Hs. congruence.
        -- exists (with_isSelected element true). split; [|done].
           apply (mark_elem _ _ _ _ Hids). exists element. split; [done|].
           by rewrite Hid, Nat.eqb_refl.
      * intros (e' & He' & Hj & Hs).
        apply (mark_elem _ _ _ _ Hids) in He' as (e & He & ->).
        destruct (Nat.eqb_spec (el_id e) i) as [Hei|Hne].
        -- right. simpl in Hj. congruence.
        -- left. by exists e.
Qed.

End CoreState.

Section CoreOperators.

Import LogicCoreState.

Lemma find_element_found (els : list element) (i : nat) (e : element) :
  e ∈ els -> el_id e = i -> is_Some (find_element els i).
Proof.
  intros Hin Hid. destruct (find_element els i) eqn:Hf; [eauto|].
  by destruct (find_element_None els i e Hf Hin).
Qed.

Lemma selected_found (c : core) (i : nat) :
  core_ok c -> i ∈ selectedElements c -> is_Some (find_element (elements c) i).
Proof.
  intros (_ & _ & _ & _ & Hiff) Hi. apply Hiff in Hi as (e & He & Hid & _).
  by eapply find_element_found.
Qed.

(** The state after a successful application, from the new text, the
    operands and the ids of the new connections. *)
Lemma applyNegation_true (c : core) (stamp : float) :
  fst (applyNegation c stamp) = true ->
  exists i rest e,
    selectedElements c = i :: rest
    /\ find_element (elements c) i = Some e
    /\ snd (applyNegation c stamp) =
       clearSelection
         (set_currentExpression
            (snd (createConnection
                    (snd (createElement c ([LPAREN; TILDE] ++ el_text e ++ [RPAREN])
                            (el_x e + el_width e + 100)%float (el_y e)))
                    stamp e
                    (fst (createElement c ([LPAREN; TILDE] ++ el_text e ++ [RPAREN])
                            (el_x e + el_width e + 100)%float (el_y e)))))
            ([LPAREN; TILDE] ++ el_text e ++ [RPAREN])).
Proof.
  unfold applyNegation. destruct (selectedElements c) as [|i rest]; [done|].
  destruct (find_element (elements c) i) as [e|] eqn:Hf; [|done].
  intros _. exists i, rest, e. done.
Qed.

Lemma applyNegation_false (c : core) (stamp : float) :
  fst (applyNegation c stamp) = false -> snd (applyNegation c stamp) = c.
Proof.
  unfold applyNegation. destruct (selectedElements c) as [|i rest]; [done|].
  by destruct (find_element (elements c) i).
Qed.

Lemma applyBinaryOperator_true (c : core) (operator : jsstring)
    (stamp1 stamp2 : float) :
  fst (applyBinaryOperator c operator stamp1 stamp2) = true ->
  exists i1 i2 e1 e2,
    selectedElements c = [i1; i2]
    /\ find_element (elements c) i1 = Some e1
    /\ find_element (elements c) i2 = Some e2
    /\ exists x y,
        let newText := [LPAREN] ++ el_text e1 ++ operator ++ el_text e2 ++ [RPAREN] in
        let created := createElement c newText x y in
        snd (applyBinaryOperator c operator stamp1 stamp2) =
        clearSelection
          (set_currentExpression
             (snd (createConnection
                     (snd (createConnection (snd created) stamp1 e1 (fst created)))
                     stamp2 e2 (fst created)))
             newText).
Proof.
  unfold applyBinaryOperator.
  destruct (selectedElements c) as [|i1 [|i2 [|? ?]]]; try done.
  destruct (find_element (elements c) i1) as [e1|] eqn:H1; [|done].
  destruct (find_element (elements c) i2) as [e2|] eqn:H2; [|done].
  intros _. exists i1, i2, e1, e2. repeat split; try done. eauto.
Qed.

Lemma applyBinaryOperator_false (c : core) (operator : jsstring)
    (stamp1 stamp2 : float) :
  fst (applyBinaryOperator c operator stamp1 stamp2) = false ->
  snd (applyBinaryOperator c operator stamp1 stamp2) = c.
Proof.
  unfold applyBinaryOperator.
  destruct (selectedElements c) as [|i1 [|i2 [|? ?]]]; try done.
  destruct (find_element (elements c) i1) as [e1|]; [|done].
  by destruct (find_element (elements c) i2) as [e2|].
Qed.

(** X12.  [applyOperator] either succeeds or changes nothing: when it
    returns [false] the core is as before.  On a core the methods of
    [LogicCore] keep consistent it succeeds exactly when '~' meets a
    selection of one element or another operator a selection of two. *)
Theorem applyOperator_fails_without_effect :
  forall (c : core) (operator : jsstring) (stamp1 stamp2 : float),
    (fst (applyOperator c operator stamp1 stamp2) = false ->
     snd (applyOperator c operator stamp1 stamp2) = c)
    /\ (core_ok c ->
        (fst (applyOperator c operator stamp1 stamp2) = true <->
         (operator = [TILDE] /\ length (selectedElements c) = 1%nat)
         \/ (operator <> [TILDE] /\ length (selectedElements c) = 2%nat))).
Proof.
  intros c operator stamp1 stamp2. unfold applyOperator.
  destruct (decide (operator = [TILDE])) as [Hop|Hop].
  - rewrite (bool_decide_eq_true_2 _ Hop). simpl.
    destruct (Nat.eqb_spec (length (selectedElements c)) 1) as [Hlen|Hlen].
    + split; [apply applyNegation_false|]. intros Hok.
      split; [auto|]. intros _.
      destruct (selectedElements c) as [|i [|? ?]] eqn:Hsel; try done.
      destruct (selected_found c i Hok) as [e He]; [rewrite Hsel; by left|].
      unfold applyNegation. by rewrite Hsel, He.
    + split; [done|]. intros _. split; [done|]. intros [[_ ?]|[? _]]; done.
  - rewrite (bool_decide_eq_false_2 _ Hop). simpl.
    destruct (Nat.eqb_spec (length (selectedElements c)) 2) as [Hlen|Hlen].
    + split; [apply applyBinaryOperator_false|]. intros Hok.
      split; [auto|]. intros _.
      destruct (selectedElements c) as [|i1 [|i2 [|? ?]]] eqn:Hsel; try done.
      destruct (selected_found c i1 Hok) as [e1 He1]; [rewrite Hsel; by left|].
      destruct (selected_found c i2 Hok) as [e2 He2];
        [rewrite Hsel; right; by left|].
      unfold applyBinaryOperator. by rewrite Hsel, He1, He2.
    + split; [done|]. intros _. split; [done|]. intros [[? _]|[_ ?]]; done.
Qed.

Lemma applyOperator_fails_without_effect_witness :
  snd (applyOperator ex_core [TILDE] 0%float 0%float) = ex_core.
Proof.
  apply (proj1 (applyOperator_fails_without_effect ex_core [TILDE]
                  0%float 0%float)).
  reflexivity.
Defined.

Lemma fmap_with_isSelected_id (els : list element) (b : bool) :
  el_id <$> ((fun e => with_isSelected e b) <$> els) = el_id <$> els.
Proof. by rewrite <- list_fmap_compose. Qed.

Lemma fmap_with_isSelected_text (els : list element) (b : bool) :
  el_text <$> ((fun e => with_isSelected e b) <$> els) = el_text <$> els.
Proof. by rewrite <- list_fmap_compose. Qed.

(** X13.  A successful [applyOperator] adds exactly one element: its id
    is the former [nextElementId], its text is [(~x)] for the selected
    element [x], or [(x op y)] for the first and the second selected
    element in that order, and this text becomes the current expression.
    Ids and texts of the existing elements are kept, no element is left
    selected, the selection is empty, and one connection per operand
    leads to the new element. *)
Theorem applyOperator_builds_expression :
  forall (c : core) (operator : jsstring) (stamp1 stamp2 : float),
    fst (applyOperator c operator stamp1 stamp2) = true ->
    exists (newText : jsstring) (operands : list element),
      ((operator = [TILDE]
        /\ exists i e,
            selectedElements c = [i]
            /\ find_element (elements c) i = Some e
            /\ operands = [e]
            /\ newText = [LPAREN; TILDE] ++ el_text e ++ [RPAREN])
       \/ (operator <> [TILDE]
           /\ exists i1 i2 e1 e2,
               selectedElements c = [i1; i2]
               /\ find_element (elements c) i1 = Some e1
               /\ find_element (elements c) i2 = Some e2
               /\ operands = [e1; e2]
               /\ newText =
                  [LPAREN] ++ el_text e1 ++ operator ++ el_text e2 ++ [RPAREN]))
      /\ currentExpression (snd (applyOperator c operator stamp1 stamp2)) = newText
      /\ nextElementId (snd (applyOperator c operator stamp1 stamp2))
         = S (nextElementId c)
      /\ selectedElements (snd (applyOperator c operator stamp1 stamp2)) = []
      /\ el_id <$> elements (snd (applyOperator c operator stamp1 stamp2))
         = (el_id <$> elements c) ++ [nextElementId c]
      /\ el_text <$> elements (snd (applyOperator c operator stamp1 stamp2))
         = (el_text <$> elements c) ++ [newText]
      /\ Forall (fun e => el_isSelected e = false)
                (elements (snd (applyOperator c operator stamp1 stamp2)))
      /\ (fun k => (cn_from k, cn_to k))
           <$> connections (snd (applyOperator c operator stamp1 stamp2))
         = ((fun k => (cn_from k, cn_to k)) <$> connections c)
           ++ ((fun e => (el_id e, nextElementId c)) <$> operands).
Proof.
  intros c operator stamp1 stamp2. unfold applyOperator.
  destruct (decide (operator = [TILDE])) as [Hop|Hop].
  - rewrite (bool_decide_eq_true_2 _ Hop). simpl.
    destruct (Nat.eqb_spec (length (selectedElements c)) 1) as [Hlen|Hlen];
      [|done].
    intros Ht. destruct (applyNegation_true c stamp1 Ht)
      as (i & rest & e & Hsel & Hf & ->).
    assert (rest = []) as -> by (rewrite Hsel in Hlen; by destruct rest).
    exists ([LPAREN; TILDE] ++ el_text e ++ [RPAREN]), [e].
    split; [left; split; [done|]; by exists i, e|].
    cbn [clearSelection set_currentExpression createConnection createElement
         fst snd currentExpression nextElementId selectedElements elements
         connections].
    rewrite fmap_with_isSelected_id, fmap_with_isSelected_text, !fmap_app.
    repeat split; try done.
    rewrite <- fmap_app. apply Forall_fmap, Forall_forall. done.
  - rewrite (bool_decide_eq_false_2 _ Hop). simpl.
    destruct (Nat.eqb_spec (length (selectedElements c)) 2) as [Hlen|Hlen];
      [|done].
    intros Ht. destruct (applyBinaryOperator_true c operator stamp1 stamp2 Ht)
      as (i1 & i2 & e1 & e2 & Hsel & Hf1 & Hf2 & x & y & ->).
    exists ([LPAREN] ++ el_text e1 ++ operator ++ el_text e2 ++ [RPAREN]), [e1; e2].
    split; [right; split; [done|]; by exists i1, i2, e1, e2|].
    cbn [clearSelection set_currentExpression createConnection createElement
         fst snd currentExpression nextElementId selectedElements elements
         connections].
    rewrite fmap_with_isSelected_id, fmap_with_isSelected_text, !fmap_app.
    repeat split; try done.
    + rewrite <- fmap_app. apply Forall_fmap, Forall_forall. done.
    + by rewrite <- app_assoc.
Qed.

Lemma applyOperator_builds_expression_witness :
  exists (newText : jsstring),
    currentExpression (snd (applyOperator ex_core [ARROW] 0%float 0%float))
    = newText
    /\ newText = [LPAREN; p_; ARROW; q_; RPAREN].
Proof.
  destruct (applyOperator_builds_expression ex_core [ARROW] 0%float 0%float
              eq_refl) as (newText & operands & _ & Hcur & _).
  exists newText. split; [exact Hcur|].
  rewrite <- Hcur. reflexivity.
Defined.

Lemma applyOperator_false (c : core) (operator : jsstring) (stamp1 stamp2 : float) :
  fst (applyOperator c operator stamp1 stamp2) = false ->
  snd (applyOperator c operator stamp1 stamp2) = c.
Proof.
  unfold applyOperator.
  destruct (bool_decide (operator = [TILDE]) && _); [apply applyNegation_false|].
  destruct (negb (bool_decide (operator = [TILDE])) && _);
    [apply applyBinaryOperator_false | done].
Qed.

(** The shape of the core after a successful application. *)
Lemma applyOperator_true (c : core) (operator : jsstring) (stamp1 stamp2 : float) :
  fst (applyOperator c operator stamp1 stamp2) = true ->
  exists (t : jsstring) (x y : float) (c2 : core),
    snd (applyOperator c operator stamp1 stamp2)
    = clearSelection (set_currentExpression c2 t)
    /\ elements c2 = elements (snd (createElement c t x y))
    /\ selectedElements c2 = selectedElements c
    /\ nextElementId c2 = S (nextElementId c)
    /\ ((operator = [TILDE]
         /\ exists e, e ∈ elements c
                      /\ t = [LPAREN; TILDE] ++ el_text e ++ [RPAREN])
        \/ (operator <> [TILDE]
            /\ exists e1 e2,
                e1 ∈ elements c /\ e2 ∈ elements c
                /\ t = [LPAREN] ++ el_text e1 ++ operator ++ el_text e2
                       ++ [RPAREN])).
Proof.
  unfold applyOperator.
  destruct (decide (operator = [TILDE])) as [Hop|Hop].
  - rewrite (bool_decide_eq_true_2 _ Hop). simpl.
    destruct (length (selectedElements c) =? 1)%nat; [|done].
    intros Ht. destruct (applyNegation_true c stamp1 Ht)
      as (i & rest & e & Hsel & Hf & ->).
    apply find_element_Some in Hf as [Hin _].
    do 4 eexists. split; [reflexivity|]. repeat split; try done.
    left. split; [done|]. by exists e.
  - rewrite (bool_decide_eq_false_2 _ Hop). simpl.
    destruct (length (selectedElements c) =? 2)%nat; [|done].
    intros Ht. destruct (applyBinaryOperator_true c operator stamp1 stamp2 Ht)
      as (i1 & i2 & e1 & e2 & Hsel & Hf1 & Hf2 & x & y & ->).
    apply find_element_Some in Hf1 as [Hin1 _].
    apply find_element_Some in Hf2 as [Hin2 _].
    do 4 eexists. split; [reflexivity|]. repeat split; try done.
    right. split; [done|]. by exists e1, e2.
Qed.

Lemma core_ok_applyOperator (c : core) (operator : jsstring)
    (stamp1 stamp2 : float) :
  core_ok c -> core_ok (snd (applyOperator c operator stamp1 stamp2)).
Proof.
  intros Hok.
  destruct (fst (applyOperator c operator stamp1 stamp2)) eqn:Hr.
  - destruct (applyOperator_true c operator stamp1 stamp2 Hr)
      as (t & x & y & c2 & -> & He & Hs & Hn & _).
    apply core_ok_clearSelection.
    apply (core_ok_same (snd (createElement c t x y))); try done.
    by apply core_ok_createElement.
  - by rewrite applyOperator_false.
Qed.

Lemma core_ok_place (vars : list char) (c : core) (index : nat) :
  core_ok c -> core_ok (place c vars index).
Proof.
  revert c index. induction vars as [|v rest IH]; intros c index Hok; simpl;
    [done|]. apply IH. by apply core_ok_createElement.
Qed.

(** X14.  The methods of [LogicCore] keep the core consistent: from the
    state the constructor builds, after any sequence of [clear],
    [createElement], [toggleSelection], [clearSelection],
    [applyOperator] and generation of variable elements, the ids of the
    elements are distinct, positive and below [nextElementId], and
    [selectedElements] lists, each once, exactly the ids of the elements
    whose [isSelected] flag is set. *)
Theorem core_methods_keep_consistency :
  core_ok fresh
  /\ (forall c : core,
      core_ok c ->
      core_ok (clear c)
      /\ (forall (text : jsstring) (x y : float),
          core_ok (snd (createElement c text x y)))
      /\ (forall i : nat, core_ok (toggleSelection c i))
      /\ core_ok (clearSelection c)
      /\ (forall (operator : jsstring) (stamp1 stamp2 : float),
          core_ok (snd (applyOperator c operator stamp1 stamp2)))
      /\ (forall variables : list char,
          core_ok (generateVariableElements c variables))).
Proof.
  split; [apply core_ok_fresh|]. intros c Hok.
  split; [apply core_ok_fresh|].
  split; [intros; by apply core_ok_createElement|].
  split; [intros; by apply core_ok_toggleSelection|].
  split; [by apply core_ok_clearSelection|].
  split; [intros; by apply core_ok_applyOperator|].
  intros variables. apply core_ok_place, core_ok_fresh.
Qed.

Lemma core_methods_keep_consistency_witness :
  core_ok (snd (applyOperator ex_core [ARROW] 0%float 0%float)).
Proof.
  apply (proj2 core_methods_keep_consistency ex_core).
  apply (proj2 core_methods_keep_consistency). 
  apply (proj2 core_methods_keep_consistency).
  apply (proj2 core_methods_keep_consistency fresh).
  apply (proj1 core_methods_keep_consistency).
Defined.

Lemma texts_ok_same (c1 c2 : core) :
  el_text <$> elements c1 = el_text <$> elements c2 ->
  currentExpression c1 = currentExpression c2 ->
  texts_ok c1 -> texts_ok c2.
Proof.
  unfold texts_ok. intros He Hc [H1 H2]. rewrite <- Hc. split; [|done].
  apply (Forall_fmap el_text well_formed).
  rewrite <- He. by apply (Forall_fmap el_text well_formed).
Qed.

Lemma texts_ok_place (vars : list char) (c : core) (index : nat) :
  Forall (fun v => isLetter v = true) vars ->
  texts_ok c -> texts_ok (place c vars index).
Proof.
  revert c index. induction vars as [|v rest IH]; intros c index Hv Hok; simpl;
    [done|]. inversion Hv as [|? ? Hl Hrest]; subst.
  apply IH; [done|]. destruct Hok as [H1 H2]. split; [|done]. simpl.
  apply Forall_app. split; [done|]. constructor; [|constructor].
  by exists (Var v).
Qed.

Lemma texts_ok_applyOperator (c : core) (operator : jsstring)
    (stamp1 stamp2 : float) :
  texts_ok c ->
  (operator = [TILDE] \/ exists o, operator = [symbol o]) ->
  texts_ok (snd (applyOperator c operator stamp1 stamp2)).
Proof.
  intros Hok Hop.
  destruct (fst (applyOperator c operator stamp1 stamp2)) eqn:Hr;
    [|by rewrite applyOperator_false].
  destruct (applyOperator_true c operator stamp1 stamp2 Hr)
    as (t & x & y & c2 & -> & He & _ & _ & Hshape).
  destruct Hok as [H1 H2]. rewrite Forall_forall in H1.
  assert (Ht : well_formed t).
  { destruct Hshape as [(_ & e & Hin & ->)|(Hne & e1 & e2 & Hin1 & Hin2 & ->)].
    - destruct (H1 e Hin) as (f & Hf & ->). by exists (Neg f).
    - destruct Hop as [?|[o ->]]; [done|].
      destruct (H1 e1 Hin1) as (f1 & Hf1 & ->).
      destruct (H1 e2 Hin2) as (f2 & Hf2 & ->).
      by exists (Bin o f1 f2). }
  split; [|by right]. simpl. rewrite He. simpl.
  apply Forall_fmap, Forall_app. split.
  - apply Forall_forall. intros e Hin. simpl. by apply H1.
  - constructor; [done | constructor].
Qed.

(** X15.  Whatever the canvas builds is a formula: starting from
    elements generated for letters and applying only '~' and the four
    binary operators, the text of every element is the text of a
    formula over letters, and so is the current expression once there
    is one.  The evaluator then gives the current expression its truth
    value under every assignment covering its variables;
    [generateTable] accepts it when it has at most 31 distinct letters,
    and fails with the RangeError of [generateCombinations] when it has
    more. *)
Theorem canvas_builds_formulas :
  texts_ok fresh
  /\ (forall (c : core) (variables : list char),
      Forall (fun v => isLetter v = true) variables ->
      texts_ok (generateVariableElements c variables))
  /\ (forall (c : core) (input : jsstring),
      texts_ok (generateVariableElements c (parseVariables input)))
  /\ (forall c : core,
      texts_ok c ->
      (forall i : nat, texts_ok (toggleSelection c i))
      /\ texts_ok (clearSelection c)
      /\ (forall (operator : jsstring) (stamp1 stamp2 : float),
          (operator = [TILDE] \/ exists o, operator = [symbol o]) ->
          texts_ok (snd (applyOperator c operator stamp1 stamp2)))
      /\ (currentExpression c <> [] ->
          exists f : formula,
            letters f
            /\ currentExpression c = text f
            /\ (forall (vv : gmap char jsval) (m : char -> bool),
                covers vv m f ->
                evaluate (currentExpression c) vv = JBool (truth m f))
            /\ (forall g : generator,
                ((length (getVariables (currentExpression c)) <= 31)%nat ->
                 exists t : table,
                   fst (generateTable g (currentExpression c)) = Ok t)
                /\ ((32 <= length (getVariables (currentExpression c)))%nat ->
                    generateTable g (currentExpression c)
                    = (Throw InvalidArrayLength, g))))).
Proof.
  assert (Hfresh : texts_ok fresh) by (split; [constructor | by left]).
  assert (Hgen : forall c variables,
    Forall (fun v => isLetter v = true) variables ->
    texts_ok (generateVariableElements c variables)).
  { intros c variables Hv. by apply texts_ok_place. }
  split; [done|]. split; [done|]. split.
  { intros c input. apply Hgen, parseVariables_letters. }
  intros c Hok. split; [|split; [|split]].
  - intros i. unfold toggleSelection.
    destruct (find_element (elements c) i) as [e|]; [|done].
    destruct (el_isSelected e);
      (eapply texts_ok_same; [| |exact Hok]; [simpl; by rewrite mark_texts|done]).
  - eapply texts_ok_same; [| |exact Hok]; [|done]. simpl.
    by rewrite fmap_with_isSelected_text.
  - intros. by apply texts_ok_applyOperator.
  - intros Hne. destruct Hok as [_ [?|(f & Hf & Ht)]]; [done|].
    exists f. split; [done|]. split; [done|]. split.
    + intros vv m Hc. rewrite Ht. by apply evaluate_text.
    + intros g. rewrite Ht. destruct (text_accepted f Hf) as [Htrim Hvars].
      destruct (generateTable_cases g (text f))
        as [[? _]|[(_ & ? & _)|[(_ & _ & Hge & ->)
                               |(_ & _ & Hle & _ & t & _ & ->)]]];
        try done.
      * split; [lia | done].
      * split; [by exists t | lia].
Qed.

Lemma canvas_builds_formulas_witness :
  texts_ok (generateVariableElements fresh [p_; q_]).
Proof.
  apply (proj1 (proj2 canvas_builds_formulas) fresh [p_; q_]).
  repeat constructor.
Defined.

Lemma find_element_mark (els : list element) (i : nat) (b : bool) (e : element) :
  find_element els i = Some e ->
  find_element (mark els i b) i = Some (with_isSelected e b).
Proof.
  unfold find_element. induction els as [|e0 rest IH]; simpl; [done|].
  destruct (Nat.eqb_spec (el_id e0) i) as [Heq|Hne]; simpl.
  - intros [= ->]. by rewrite Heq, Nat.eqb_refl.
  - intros H. destruct (Nat.eqb_spec (el_id e0) i); [done|]. by apply IH.
Qed.

Lemma mark_mark (els : list element) (i : nat) (e : element) :
  find_element els i = Some e -> el_isSelected e = false ->
  mark (mark els i true) i false = els.
Proof.
  unfold find_element. induction els as [|e0 rest IH]; simpl; [done|].
  destruct (Nat.eqb_spec (el_id e0) i) as [Heq|Hne]; simpl.
  - intros [= ->] Hflag. rewrite Heq, Nat.eqb_refl.
    destruct e. simpl in *. by subst.
  - intros H Hflag. destruct (Nat.eqb_spec (el_id e0) i); [done|].
    by rewrite IH.
Qed.

(** X16.  Selecting an unselected element and deselecting it again
    restores the core exactly, on a core the methods keep consistent;
    and toggling an id that no element has changes nothing. *)
Theorem toggleSelection_undo :
  (forall (c : core) (i : nat) (e : element),
      core_ok c ->
      find_element (elements c) i = Some e ->
      el_isSelected e = false ->
      toggleSelection (toggleSelection c i) i = c)
  /\ (forall (c : core) (i : nat),
      find_element (elements c) i = None -> toggleSelection c i = c).
Proof.
  split.
  - intros c i e Hok Hf Hflag.
    assert (Hnin : i ∉ selectedElements c).
    { destruct Hok as (Hids & _ & _ & _ & Hiff). intros Hi.
      apply Hiff in Hi as (e' & He' & Hid' & Hs').
      pose proof (find_element_Some _ _ _ Hf) as [He Hid].
      apply list_elem_of_lookup in He' as [k1 Hk1].
      apply list_elem_of_lookup in He as [k2 Hk2].
      assert (k1 = k2).
      { eapply NoDup_lookup; [exact Hids| |];
          rewrite list_lookup_fmap; [rewrite Hk1|rewrite Hk2]; simpl;
          [by rewrite Hid' | by rewrite Hid]. }
      subst k2. congruence. }
    unfold toggleSelection at 2. rewrite Hf, Hflag.
    unfold toggleSelection. cbn [elements selectedElements connections
                                  currentExpression nextElementId].
    rewrite (find_element_mark _ _ true e Hf). cbn [el_isSelected with_isSelected].
    rewrite (mark_mark _ _ e Hf Hflag).
    rewrite List.filter_app. simpl. rewrite Nat.eqb_refl. simpl.
    rewrite app_nil_r.
    assert (Hfil : List.filter (fun j => negb (j =? i)%nat) (selectedElements c)
                   = selectedElements c).
    { clear -Hnin. induction (selectedElements c) as [|a l IH]; simpl; [done|].
      apply not_elem_of_cons in Hnin as [Hne Hnin].
      destruct (Nat.eqb_spec a i); [congruence|]. simpl. by rewrite IH. }
    rewrite Hfil. by destruct c.
  - intros c i Hf. unfold toggleSelection. by rewrite Hf.
Qed.

Lemma toggleSelection_undo_witness :
  toggleSelection
    (toggleSelection (generateVariableElements fresh [p_; q_]) 2) 2
  = generateVariableElements fresh [p_; q_].
Proof.
  refine (proj1 toggleSelection_undo (generateVariableElements fresh [p_; q_]) 2%nat
            (fst (createElement
                    (snd (createElement fresh [p_] 20%float 50%float))
                    [q_] 20%float 100%float)) _ _ _).
  - apply core_ok_place, core_ok_fresh.
  - reflexivity.
  - reflexivity.
Defined.

Lemma place_spec (vars : list char) (c : core) (index : nat) :
  el_id <$> elements (place c vars index)
  = (el_id <$> elements c) ++ seq (nextElementId c) (length vars)
  /\ el_text <$> elements (place c vars index)
     = (el_text <$> elements c) ++ ((fun v => [v]) <$> vars)
  /\ el_isSelected <$> elements (place c vars index)
     = (el_isSelected <$> elements c) ++ replicate (length vars) false
  /\ nextElementId (place c vars index) = (nextElementId c + length vars)%nat
  /\ selectedElements (place c vars index) = selectedElements c
  /\ connections (place c vars index) = connections c
  /\ currentExpression (place c vars index) = currentExpression c.
Proof.
  revert c index. induction vars as [|v rest IH]; intros c index.
  - simpl. rewrite !app_nil_r, Nat.add_0_r. done.
  - cbn [place]. destruct (IH (snd (createElement c [v] 20%float
                                      (50 + number_of_nat index * 50)%float))
                              (S index)) as (H1 & H2 & H3 & H4 & H5 & H6 & H7).
    rewrite H1, H2, H3, H4, H5, H6, H7. simpl.
    rewrite !fmap_app, <- !app_assoc. simpl.
    repeat split; try done; lia.
Qed.

(** X17.  Generating the variable elements discards whatever the core
    held and creates one element per variable, in order: the ids are
    [1, 2, ..., n], the texts are the variables, nothing is selected,
    there are no connections and no current expression, and the next id
    is [n + 1]. *)
Theorem generateVariableElements_starts_afresh :
  forall (c : core) (variables : list char),
    el_id <$> elements (generateVariableElements c variables)
    = seq 1 (length variables)
    /\ el_text <$> elements (generateVariableElements c variables)
       = (fun v => [v]) <$> variables
    /\ el_isSelected <$> elements (generateVariableElements c variables)
       = replicate (length variables) false
    /\ nextElementId (generateVariableElements c variables)
       = S (length variables)
    /\ selectedElements (generateVariableElements c variables) = []
    /\ connections (generateVariableElements c variables) = []
    /\ currentExpression (generateVariableElements c variables) = [].
Proof.
  intros c variables. unfold generateVariableElements, clear.
  destruct (place_spec variables fresh 0) as (H1 & H2 & H3 & H4 & H5 & H6 & H7).
  rewrite H1, H2, H3, H4, H5, H6, H7. done.
Qed.

Lemma operator_pick (k : nat) :
  (k < 4)%nat -> exists o, [WEDGE; VEE; ARROW; IFF] !! k = Some (symbol o).
Proof.
  intros Hk. destruct k as [|[|[|[|k]]]]; [| | | |lia].
  - by exists Conj.
  - by exists Disj.
  - by exists Impl.
  - by exists Equiv.
Qed.

Lemma letter_in_negation (f : formula) (c : char) :
  isLetter c = true -> c ∈ [LPAREN; TILDE] ++ text f ++ [RPAREN] -> c ∈ text f.
Proof.
  intros Hl Hin. simpl in Hin.
  apply elem_of_cons in Hin as [->|Hin]; [done|].
  apply elem_of_cons in Hin as [->|Hin]; [done|].
  apply elem_of_app in Hin as [?|Hin]; [done|].
  apply list_elem_of_singleton in Hin as ->. done.
Qed.

Lemma letter_in_binary (o : connective) (f : formula) (v c : char) :
  isLetter c = true ->
  c ∈ [LPAREN] ++ text f ++ [symbol o] ++ [v] ++ [RPAREN] ->
  c ∈ text f \/ c = v.
Proof.
  intros Hl Hin. simpl in Hin.
  apply elem_of_cons in Hin as [->|Hin]; [done|].
  apply elem_of_app in Hin as [?|Hin]; [by left|].
  apply elem_of_cons in Hin as [->|Hin]; [by destruct o|].
  apply elem_of_cons in Hin as [->|Hin]; [by right|].
  apply list_elem_of_singleton in Hin as ->. done.
Qed.

Lemma random_steps_well_formed (vars : list char) (draws : nat -> draw)
    (l : list nat) (result : jsstring) :
  Forall (fun v => isLetter v = true) vars ->
  (forall i, i ∈ l ->
     (pick_operator (draws i) < 4)%nat
     /\ (pick_variable (draws i) < length vars)%nat) ->
  (exists f, letters f /\ result = text f
             /\ forall c, isLetter c = true -> c ∈ text f -> c ∈ vars) ->
  exists f,
    letters f
    /\ fold_left (fun result i => random_step vars result (draws i)) l result
       = text f
    /\ forall c, isLetter c = true -> c ∈ text f -> c ∈ vars.
Proof.
  intros Hvars. revert result. induction l as [|i l IH]; intros result Hr Hres;
    simpl; [done|].
  apply IH; [intros j Hj; apply Hr; by right|].
  destruct Hres as (f & Hf & -> & Hsub).
  destruct (Hr i) as [Hop Hvar]; [by left|].
  destruct (operator_pick _ Hop) as [o Ho].
  destruct (lookup_lt_is_Some_2 vars _ Hvar) as [v Hv].
  assert (Hvl : isLetter v = true).
  { rewrite Forall_forall in Hvars. apply Hvars.
    by eapply list_elem_of_lookup_2. }
  unfold random_step. rewrite Ho, Hv. cbn [interpolate].
  destruct (negate (draws i)).
  - exists (Bin o (Neg f) (Var v)). split; [done|]. split; [done|].
    intros c Hc Hin.
    destruct (letter_in_binary o (Neg f) v c Hc Hin) as [Hin'| ->];
      [|by eapply list_elem_of_lookup_2].
    apply Hsub; [done|]. by apply letter_in_negation.
  - exists (Bin o f (Var v)). split; [done|]. split; [done|].
    intros c Hc Hin.
    destruct (letter_in_binary o f v c Hc Hin) as [Hin'| ->];
      [by apply Hsub | by eapply list_elem_of_lookup_2].
Qed.

(** X18.  Whenever the drawn indices are within the arrays they index
    (as [Math.floor(Math.random() * length)] is), [generateRandomFormula]
    returns the text of a formula whose variables are among the first
    [max(2, variableCount)] of p, q, r, s, t; [generateTable] accepts
    it, and it evaluates to its truth value. *)
Theorem generateRandomFormula_well_formed :
  forall (variableCount : nat) (draws : nat -> draw),
    (forall i : nat,
        (i < variableCount - 1)%nat ->
        (pick_operator (draws i) < 4)%nat
        /\ (pick_variable (draws i) < Nat.min 5 (Nat.max 2 variableCount))%nat) ->
    exists f : formula,
      letters f
      /\ generateRandomFormula variableCount draws = text f
      /\ (forall c : char,
          isLetter c = true -> c ∈ text f ->
          c ∈ take (Nat.max 2 variableCount) [112; 113; 114; 115; 116]%N)
      /\ (forall (vv : gmap char jsval) (m : char -> bool),
          covers vv m f ->
          evaluate (generateRandomFormula variableCount draws) vv
          = JBool (truth m f))
      /\ (forall g : generator,
          exists t : table,
            fst (generateTable g (generateRandomFormula variableCount draws))
            = Ok t).
Proof.
  intros n draws Hd. unfold generateRandomFormula.
  remember (take (Nat.max 2 n) [112; 113; 114; 115; 116]%N) as vars eqn:Hdef.
  assert (Hvars : Forall (fun v => isLetter v = true) vars).
  { subst vars. apply Forall_take. repeat constructor. }
  assert (Hlen : length vars = Nat.min 5 (Nat.max 2 n)).
  { subst vars. rewrite length_take. cbn [length]. lia. }
  assert (H0 : vars !! 0%nat = Some 112%N).
  { subst vars. destruct (Nat.max 2 n) eqn:Hm; [lia | done]. }
  destruct (random_steps_well_formed vars draws (seq 0 (n - 1))
              (interpolate (vars !! 0%nat)) Hvars) as (f & Hf & Ht & Hsub).
  - intros i Hi. apply elem_of_seq in Hi.
    destruct (Hd i) as [Hi1 Hi2]; [lia|]. split; [exact Hi1|].
    eapply Nat.lt_le_trans; [exact Hi2|]. rewrite <- Hlen. done.
  - exists (Var 112%N). split; [done|]. split.
    + transitivity (interpolate (Some 112%N)); [f_equal; exact H0 | done].
    + intros c _ Hc. apply list_elem_of_singleton in Hc as ->.
      by eapply list_elem_of_lookup_2.
  - exists f. rewrite Ht. split; [done|]. split; [done|]. split; [done|]. split.
    + intros vv m Hc. by apply evaluate_text.
    + intros g. destruct (text_accepted f Hf) as [Htrim Hv].
      assert (Hfew : (length (getVariables (text f)) <= 5)%nat).
      { transitivity (length vars); [|lia].
        apply submseteq_length, NoDup_submseteq; [apply getVariables_NoDup|].
        intros c Hc. apply getVariables_elem in Hc as [Hc Hin].
        by apply Hsub. }
      destruct (generateTable_cases g (text f))
        as [[? _]|[(_ & ? & _)|[(_ & _ & Hge & _)
                               |(_ & _ & _ & _ & t & _ & ->)]]];
        try done; [lia|].
      by exists t.
Qed.

Lemma generateRandomFormula_well_formed_witness :
  exists f : formula,
    letters f /\ generateRandomFormula 2 ex_draws = text f.
Proof.
  destruct (generateRandomFormula_well_formed 2 ex_draws) as (f & Hf & Ht & _).
  - intros i _. simpl. split; lia.
  - exists f. split; [exact Hf | exact Ht].
Defined.

End CoreOperators.

(** ** The value of a formula under any assignment *)

Lemma step_symbol_js (vv : gmap char jsval) (o : connective) (a b : jsval)
    (stack : list jsval) :
  step vv (b :: a :: stack) (symbol o) = Ok (js_binary o a b :: stack).
Proof. by destruct o. Qed.

Lemma run_postfix_js (vv : gmap char jsval) (f : formula) :
  letters f ->
  forall stack, run vv stack (postfix_of f) = Ok (js_value vv f :: stack).
Proof.
  induction f as [c | f IH | o f IHf g IHg]; simpl.
  - intros Hl stack. by rewrite step_letter.
  - intros Hl stack. rewrite run_snoc, IH by done. done.
  - intros [Hf Hg] stack.
    rewrite run_app, IHf by done. simpl.
    rewrite run_snoc, IHg by done. simpl.
    apply step_symbol_js.
Qed.

(** X19.  For a formula built from letters with [(~x)] and [(x op y)],
    the postfix run never underflows and ends with exactly one value on
    the stack, and [evaluate] returns the value of the formula computed
    with JavaScript's [!], [&&], [||] and [===] on what the assignment
    holds, a missing variable reading as [undefined]: the result is
    [undefined] only through such a variable. *)
Theorem evaluate_formula_under_any_assignment :
  forall (f : formula) (vv : gmap char jsval),
    letters f ->
    run vv [] (infixToPostfix (text f)) = Ok [js_value vv f]
    /\ evaluate (text f) vv = js_value vv f
    /\ (js_value vv f = JUndefined ->
        exists c, c ∈ text f /\ isLetter c = true /\ read vv c = JUndefined).
Proof.
  intros f vv Hl. rewrite infixToPostfix_text by done.
  split; [by apply run_postfix_js|]. split.
  - unfold evaluate, evaluatePostfix.
    rewrite infixToPostfix_text, run_postfix_js by done. done.
  - clear -Hl. induction f as [c | f IH | o f IHf g IHg]; simpl in *.
    + intros Hu. exists c. split; [by left | done].
    + done.
    + destruct Hl as [Hf Hg]. intros Hu.
      assert (Hor : js_value vv f = JUndefined \/ js_value vv g = JUndefined).
      { destruct o; simpl in Hu; unfold js_and, js_or, js_not, js_strict_eq in Hu;
          destruct (js_value vv f) as [|[|]], (js_value vv g) as [|[|]];
          simpl in Hu; auto; done. }
      destruct Hor as [Hu'|Hu'].
      * destruct (IHf Hf Hu') as (c & Hc & Hlc & Hr). exists c.
        split; [|done]. right. apply elem_of_app. by left.
      * destruct (IHg Hg Hu') as (c & Hc & Hlc & Hr). exists c.
        split; [|done]. right. rewrite elem_of_app, elem_of_cons, elem_of_app.
        auto.
Qed.

Lemma evaluate_formula_under_any_assignment_witness :
  evaluate (text (Bin Conj (Var p_) (Var q_))) (<[p_ := JBool true]> ∅)
  = JUndefined.
Proof.
  exact (proj1 (proj2 (evaluate_formula_under_any_assignment
                         (Bin Conj (Var p_) (Var q_)) (<[p_ := JBool true]> ∅)
                         (conj eq_refl eq_refl)))).
Defined.

(** ** Parentheses that are never closed *)

Lemma count_parens_app (l1 l2 : list char) :
  count_parens (l1 ++ l2) = (count_parens l1 + count_parens l2)%nat.
Proof. unfold count_parens. by rewrite List.filter_app, length_app. Qed.

Lemma count_parens_above (stack : list char) :
  count_parens (above_paren stack) = 0%nat.
Proof.
  induction stack as [|top below IH]; simpl; [done|].
  destruct (top =? LPAREN)%N eqn:Ht; [done|].
  unfold count_parens in *. simpl. by rewrite Ht.
Qed.

Lemma count_parens_popped (p : N) (stack : list char) :
  count_parens (fst (pop_higher p stack)) = 0%nat.
Proof.
  induction stack as [|top below IH]; simpl; [done|].
  destruct (pops_before p top) eqn:Hp; [|done].
  destruct (pop_higher p below) as [popped rest]. simpl in *.
  unfold pops_before in Hp. apply andb_true_iff in Hp as [Hp _].
  apply negb_true_iff in Hp. unfold count_parens in *. simpl. by rewrite Hp.
Qed.

Lemma scan_depth (st : scanner) (c : char) :
  count_parens (output st) = 0%nat ->
  count_parens (output (scan st c)) = 0%nat
  /\ count_parens (operatorStack (scan st c))
     = depth_step (count_parens (operatorStack st)) c.
Proof.
  intros Hout. unfold scan, depth_step, isVariable.
  destruct (N.eqb_spec c SPACE) as [->|Hsp]; [done|].
  destruct (isLetter c) eqn:Hl.
  { destruct (letter_not_special c Hl) as (_ & -> & -> & _). simpl.
    rewrite count_parens_app, Hout. unfold count_parens. simpl.
    destruct (N.eqb_spec c LPAREN) as [->|]; done. }
  destruct (N.eqb_spec c LPAREN) as [->|Hlp]; [done|].
  destruct (N.eqb_spec c RPAREN) as [->|Hrp].
  { rewrite pop_to_paren_spec. simpl.
    rewrite count_parens_app, Hout, count_parens_above.
    split; [done|].
    rewrite <- (above_from_paren (operatorStack st)) at 2.
    rewrite count_parens_app, count_parens_above. simpl.
    destruct (from_paren_head (operatorStack st)) as [->|[below ->]]; done. }
  destruct (operators c) as [info|] eqn:Hinfo; [|done].
  pose proof (pop_higher_split (precedence info) (operatorStack st)) as Hsplit.
  pose proof (count_parens_popped (precedence info) (operatorStack st)) as Hpop.
  destruct (pop_higher (precedence info) (operatorStack st)) as [popped rest].
  simpl in *. rewrite count_parens_app, Hout, Hpop. split; [done|].
  rewrite <- Hsplit, count_parens_app, Hpop.
  unfold count_parens. simpl.
  destruct (N.eqb_spec c LPAREN); done.
Qed.

Lemma scan_all_depth (e : jsstring) :
  count_parens (output (scan_all e)) = 0%nat
  /\ count_parens (operatorStack (scan_all e)) = unclosed e.
Proof.
  induction e as [|c e [IH1 IH2]] using rev_ind; [done|].
  rewrite scan_all_snoc. unfold unclosed. rewrite fold_left_app. simpl.
  fold (unclosed e). rewrite <- IH2. by apply scan_depth.
Qed.

(** X20.  The postfix sequence contains exactly as many '(' tokens as
    the expression leaves open, a ')' closing the nearest open '(' when
    there is one: an expression whose parentheses are all closed
    converts to a sequence without '('. *)
Theorem postfix_parens_are_the_unclosed_ones :
  forall e : jsstring,
    count_parens (infixToPostfix e) = unclosed e
    /\ (unclosed e = 0%nat <-> LPAREN ∉ infixToPostfix e).
Proof.
  intros e. destruct (scan_all_depth e) as [H1 H2].
  assert (Hc : count_parens (infixToPostfix e) = unclosed e).
  { unfold infixToPostfix. rewrite flush_app, count_parens_app. lia. }
  split; [done|]. rewrite <- Hc. unfold count_parens.
  generalize (infixToPostfix e). clear. intros l.
  induction l as [|c l IH]; simpl.
  - split; [intros _ H; by apply elem_of_nil in H | done].
  - destruct (N.eqb_spec c LPAREN) as [->|Hne]; simpl.
    + split; [done|]. intros H. exfalso. apply H. by left.
    + rewrite IH. split.
      * intros H Hin. apply elem_of_cons in Hin as [?|?]; [congruence | done].
      * intros H Hin. apply H. by right.
Qed.

(** ** The handlers of the application *)

Section Handlers.

Import LogicCoreState MathLogicApp.

(** X21.  [handleOperatorClick] checks the size of the selection before
    it calls [applyOperator]: a warning leaves the core untouched, and
    on a core the methods keep consistent the call then always
    succeeds, so the error alert "operation failed" is never shown. *)
Theorem handleOperatorClick_never_fails :
  forall (c : core) (operator : jsstring) (stamp1 stamp2 : float),
    (fst (handleOperatorClick c operator stamp1 stamp2) = NegationNeedsOne
     \/ fst (handleOperatorClick c operator stamp1 stamp2) = BinaryNeedsTwo ->
     snd (handleOperatorClick c operator stamp1 stamp2) = c)
    /\ (core_ok c ->
        fst (handleOperatorClick c operator stamp1 stamp2) <> OperatorFailed
        /\ (fst (handleOperatorClick c operator stamp1 stamp2)
            = OperatorApplied operator <->
            (operator = [TILDE] /\ length (selectedElements c) = 1%nat)
            \/ (operator <> [TILDE] /\ length (selectedElements c) = 2%nat))).
Proof.
  intros c operator stamp1 stamp2. unfold handleOperatorClick.
  destruct (decide (operator = [TILDE])) as [Hop|Hop].
  - rewrite (bool_decide_eq_true_2 _ Hop). cbn [andb negb].
    destruct (Nat.eqb_spec (length (selectedElements c)) 1) as [Hlen|Hlen];
      cbn [negb].
    + destruct (applyOperator c operator stamp1 stamp2) as [success c'] eqn:Ha.
      split; [destruct success; intros [?|?]; done|].
      intros Hok.
      assert (Hs : success = true).
      { change success with (fst (success, c')). rewrite <- Ha.
        unfold applyOperator. rewrite (bool_decide_eq_true_2 _ Hop).
        rewrite (proj2 (Nat.eqb_eq _ _) Hlen). simpl.
        destruct (selectedElements c) as [|i [|? ?]] eqn:Hsel; try done.
        destruct (selected_found c i Hok) as [e He]; [rewrite Hsel; by left|].
        unfold applyNegation. by rewrite Hsel, He. }
      subst success. simpl. split; [done|]. split; [auto | done].
    + split; [done|]. intros _. split; [done|]. simpl.
      split; [done|]. intros [[_ ?]|[? _]]; done.
  - rewrite (bool_decide_eq_false_2 _ Hop). cbn [andb negb].
    destruct (Nat.eqb_spec (length (selectedElements c)) 2) as [Hlen|Hlen];
      cbn [negb].
    + destruct (applyOperator c operator stamp1 stamp2) as [success c'] eqn:Ha.
      split; [destruct success; intros [?|?]; done|].
      intros Hok.
      assert (Hs : success = true).
      { change success with (fst (success, c')). rewrite <- Ha.
        unfold applyOperator. rewrite (bool_decide_eq_false_2 _ Hop).
        rewrite (proj2 (Nat.eqb_eq _ _) Hlen). simpl.
        destruct (selectedElements c) as [|i1 [|i2 [|? ?]]] eqn:Hsel; try done.
        destruct (selected_found c i1 Hok) as [e1 He1]; [rewrite Hsel; by left|].
        destruct (selected_found c i2 Hok) as [e2 He2];
          [rewrite Hsel; right; by left|].
        unfold applyBinaryOperator. by rewrite Hsel, He1, He2. }
      subst success. simpl. split; [done|]. split; [auto | done].
    + split; [done|]. intros _. split; [done|]. simpl.
      split; [done|]. intros [[? _]|[_ ?]]; done.
Qed.

Lemma handleOperatorClick_never_fails_witness :
  fst (handleOperatorClick ex_core [WEDGE] 0%float 0%float) <> OperatorFailed.
Proof.
  apply (proj2 (handleOperatorClick_never_fails ex_core [WEDGE] 0%float 0%float)).
  apply core_ok_toggleSelection, core_ok_toggleSelection, core_ok_place,
    core_ok_fresh.
Defined.

Lemma collect_units_no_letters (l acc : list char) :
  Forall (fun c => isLetter c = false) l -> fold_left collect_unit l acc = acc.
Proof.
  intros H. revert acc. induction H as [|c l Hc _ IH]; intros acc; simpl; [done|].
  replace (collect_unit acc c) with acc by (unfold collect_unit; by rewrite Hc).
  apply IH.
Qed.

Lemma whitespace_not_letter (c : char) :
  isWhiteSpace c = true -> isLetter c = false.
Proof.
  intros Hw. destruct (isLetter c) eqn:Hl; [|done].
  by rewrite letter_not_whitespace in Hw.
Qed.

Lemma trimStart_units (s acc : jsstring) :
  fold_left collect_unit (trimStart s) acc = fold_left collect_unit s acc.
Proof.
  induction s as [|c s IH]; simpl; [done|].
  destruct (isWhiteSpace c) eqn:Hw; [|done].
  replace (collect_unit acc c) with acc
    by (unfold collect_unit; by rewrite whitespace_not_letter).
  apply IH.
Qed.

Lemma trimStart_split (s : jsstring) :
  exists ws, s = ws ++ trimStart s
             /\ Forall (fun c => isLetter c = false) ws.
Proof.
  induction s as [|c s (ws & Hs & Hws)]; simpl; [by exists []|].
  destruct (isWhiteSpace c) eqn:Hw.
  - exists (c :: ws). split; [simpl; by rewrite <- Hs|].
    constructor; [by apply whitespace_not_letter | done].
  - by exists [].
Qed.

Lemma parseVariables_trim (s : jsstring) :
  parseVariables (trim s) = parseVariables s.
Proof.
  rewrite !parseVariables_units. unfold trim, trimEnd.
  rewrite <- (trimStart_units s).
  destruct (trimStart_split (rev (trimStart s))) as (ws & Hs & Hws).
  apply (f_equal (@rev char)) in Hs. rewrite rev_involutive, rev_app_distr in Hs.
  rewrite Hs at 2. rewrite fold_left_app.
  symmetry. apply collect_units_no_letters. by apply Forall_rev.
Qed.

(** X22.  [handleGenerateVariables] warns exactly when the field holds
    white space only, reports an error exactly when the trimmed text
    has no letter, and in both cases leaves the core untouched;
    otherwise it replaces the content of the core by one element per
    distinct letter of the field, in order of first occurrence. *)
Theorem handleGenerateVariables_outcomes :
  forall (c : core) (input : jsstring),
    (fst (handleGenerateVariables c input) = NoInput <-> trim input = [])
    /\ (fst (handleGenerateVariables c input) = NoValidVariables <->
        trim input <> [] /\ (forall x, x ∈ input -> isLetter x = false))
    /\ (fst (handleGenerateVariables c input) = NoInput
        \/ fst (handleGenerateVariables c input) = NoValidVariables ->
        snd (handleGenerateVariables c input) = c)
    /\ ((exists x, x ∈ input /\ isLetter x = true) ->
        handleGenerateVariables c input =
        (VariablesGenerated (parseVariables input),
         generateVariableElements c (parseVariables input))).
Proof.
  intros c input. unfold handleGenerateVariables.
  rewrite parseVariables_trim.
  assert (Hnil : parseVariables input = [] <->
                 (forall x, x ∈ input -> isLetter x = false)).
  { split.
    - intros H x Hx. destruct (isLetter x) eqn:Hl; [|done].
      assert (Hin : x ∈ parseVariables input).
      { rewrite parseVariables_units. apply collect_units_elem. by right. }
      rewrite H in Hin. by apply elem_of_nil in Hin.
    - intros H. destruct (parseVariables input) as [|x l] eqn:Hp; [done|].
      assert (Hin : x ∈ parseVariables input) by (rewrite Hp; by left).
      rewrite parseVariables_units in Hin.
      apply collect_units_elem in Hin as [Hin|[Hl Hin]];
        [by apply elem_of_nil in Hin|].
      rewrite (H x Hin) in Hl. done. }
  destruct (decide (trim input = [])) as [Ht|Ht].
  - rewrite (bool_decide_eq_true_2 _ Ht). simpl.
    split; [done|]. split; [split; [done | by intros [? _]]|]. split; [done|].
    intros (x & Hx & Hl). exfalso.
    apply trim_nil in Ht. rewrite Forall_forall in Ht.
    specialize (Ht x Hx). by rewrite letter_not_whitespace in Ht.
  - rewrite (bool_decide_eq_false_2 _ Ht).
    destruct (parseVariables input) as [|v l] eqn:Hp; simpl.
    + split; [done|]. split; [split; [|done]|].
      * intros _. split; [done|]. by apply Hnil.
      * split; [done|]. intros (x & Hx & Hl).
        rewrite (proj1 Hnil eq_refl x Hx) in Hl. done.
    + split; [done|]. split; [split; [done|]|].
      * intros [_ H]. apply Hnil in H. done.
      * split; [intros [?|?]; done | done].
Qed.

Lemma handleGenerateVariables_outcomes_witness :
  handleGenerateVariables fresh [SPACE; q_; 44%N; p_; q_] =
  (VariablesGenerated [q_; p_], generateVariableElements fresh [q_; p_]).
Proof.
  refine (proj2 (proj2 (proj2
            (handleGenerateVariables_outcomes fresh [SPACE; q_; 44%N; p_; q_])))
            _).
  exists q_. split; [|reflexivity].
  apply list_elem_of_In. simpl. auto.
Defined.

(** X23.  On a core built by the canvas (variable elements for letters,
    then '~' and the four binary operators), [handleTruthTable] warns
    that there is no expression yet, changing nothing, exactly when the
    current expression is empty.  Otherwise, with at most 31 distinct
    letters in the expression, the table is generated and made current,
    and the success alert is shown unless drawing the table or opening
    the modal throws, in which case that error is shown as the failure,
    the table staying current; with 32 or more distinct letters the
    failure alert carries the RangeError of [generateCombinations] and
    the generator is unchanged.  [generateTable] never fails there with
    the errors for an empty expression or for an expression without
    variables. *)
Theorem handleTruthTable_on_canvas :
  forall (c : core) (g : generator) (display : generator -> option error),
    texts_ok c ->
    (currentExpression c = [] /\ handleTruthTable c g display = (NoExpression, g))
    \/ (currentExpression c <> []
        /\ (length (getVariables (currentExpression c)) <= 31)%nat
        /\ exists t : table,
            generateTable g (currentExpression c)
            = (Ok t, {| currentTable := Some t; userAnswers := userAnswers g |})
            /\ handleTruthTable c g display =
               (match display {| currentTable := Some t;
                                 userAnswers := userAnswers g |} with
                | None => TableGenerated
                | Some e => TableFailed e
                end,
                {| currentTable := Some t; userAnswers := userAnswers g |}))
    \/ (currentExpression c <> []
        /\ (32 <= length (getVariables (currentExpression c)))%nat
        /\ handleTruthTable c g display = (TableFailed InvalidArrayLength, g)).
Proof.
  intros c g display [_ Hcur]. unfold handleTruthTable.
  destruct (decide (currentExpression c = [])) as [He|He].
  - left. by rewrite (bool_decide_eq_true_2 _ He).
  - right. rewrite (bool_decide_eq_false_2 _ He).
    destruct Hcur as [?|(f & Hf & Ht)]; [done|]. rewrite Ht in *.
    destruct (text_accepted f Hf) as [Htrim Hv].
    destruct (generateTable_cases g (text f))
      as [[? _]|[(_ & ? & _)|[(_ & _ & Hge & Hg)
                             |(_ & _ & Hle & _ & t & _ & Hg)]]];
      try done.
    + right. by rewrite Hg.
    + left. split; [done|]. split; [done|]. exists t. rewrite Hg.
      split; [done|]. by destruct (display _).
Qed.

Lemma texts_ok_toggleSelection (c : core) (i : nat) :
  texts_ok c -> texts_ok (toggleSelection c i).
Proof.
  intros Hok. unfold toggleSelection.
  destruct (find_element (elements c) i) as [e|]; [|done].
  destruct (el_isSelected e);
    (eapply texts_ok_same; [| |exact Hok]; [simpl; by rewrite mark_texts|done]).
Qed.

Lemma handleTruthTable_on_canvas_witness :
  fst (handleTruthTable (snd (applyOperator ex_core [ARROW] 0%float 0%float)) g0
         (fun _ => None))
  = TableGenerated.
Proof.
  destruct (handleTruthTable_on_canvas
              (snd (applyOperator ex_core [ARROW] 0%float 0%float)) g0
              (fun _ => None))
    as [[He _]|[(_ & _ & t & _ & Hh)|(_ & Hge & _)]].
  - apply (texts_ok_applyOperator ex_core [ARROW]).
    + do 2 apply texts_ok_toggleSelection.
      apply texts_ok_place; [repeat constructor|].
      split; [constructor | by left].
    + right. by exists Impl.
  - vm_compute in He. discriminate He.
  - by rewrite Hh.
  - vm_compute in Hge. lia.
Defined.

End Handlers.
